(** * Kinematics engine of the 7-axis robot arm demo

    A shallow embedding of the pure helpers of the control module
    ([getBoneOffsets], [computeFK], [distSegmentToSegment],
    [checkSelfCollision], [solveIK] and the workspace generator) together
    with the constants of [constants.ts] and the defaults of [types.ts].

    Numbers.  A JavaScript [number] is modelled as a real number: [+], [-],
    [*], [/], [Math.sqrt], [Math.sin], [Math.cos], [Math.acos], [Math.abs],
    [Math.max] and [Math.min] are the operations of the same name on [R], and
    a comparison [x < y] in a condition is the decision [Rlt_dec x y].
    Rounding, overflow, infinities and NaN are outside this model.

    Arrays.  [number[]] and [Vector3[]] are lists.  A read of the angle
    array is [nth i angles 0]; the engine only reads indices 0..6, which
    exist for the seven-angle vectors of [RobotState.joints].  A read
    [configs[i].min] of a missing configuration entry throws in JavaScript,
    so the solver returns [option] and [None] stands for that exception. *)

From Stdlib Require Import Reals Lra Lia List Bool String.
From Stdlib Require Import RNsatz ZArith.
Import ListNotations.
Local Open Scope R_scope.

(** ** The part of three.js the engine calls

    [Vector3] and [Matrix4] come from the three.js library.  The definitions
    below follow the library's methods of the same name; a [Matrix4] is kept
    by its entries in the row-major order of [Matrix4.set], so [n14], [n24],
    [n34] is the translation column ([elements[12..14]]). *)
Module Three.

Record Vector3 : Type := mkVector3 { vx : R; vy : R; vz : R }.

Record Matrix4 : Type := mkMatrix4 {
  n11 : R; n12 : R; n13 : R; n14 : R;
  n21 : R; n22 : R; n23 : R; n24 : R;
  n31 : R; n32 : R; n33 : R; n34 : R;
  n41 : R; n42 : R; n43 : R; n44 : R }.

(** [new Vector3()] *)
Definition zero : Vector3 := mkVector3 0 0 0.

(** [new Matrix4()] *)
Definition identity : Matrix4 :=
  mkMatrix4 1 0 0 0
            0 1 0 0
            0 0 1 0
            0 0 0 1.

Definition makeTranslation (x y z : R) : Matrix4 :=
  mkMatrix4 1 0 0 x
            0 1 0 y
            0 0 1 z
            0 0 0 1.

Definition makeRotationX (theta : R) : Matrix4 :=
  let c := cos theta in
  let s := sin theta in
  mkMatrix4 1 0 0 0
            0 c (- s) 0
            0 s c 0
            0 0 0 1.

Definition makeRotationY (theta : R) : Matrix4 :=
  let c := cos theta in
  let s := sin theta in
  mkMatrix4 c 0 s 0
            0 1 0 0
            (- s) 0 c 0
            0 0 0 1.

Definition makeRotationZ (theta : R) : Matrix4 :=
  let c := cos theta in
  let s := sin theta in
  mkMatrix4 c (- s) 0 0
            s c 0 0
            0 0 1 0
            0 0 0 1.

(** [a.multiply(b)]: the product [a * b]. *)
Definition multiply (a b : Matrix4) : Matrix4 :=
  mkMatrix4
    (n11 a * n11 b + n12 a * n21 b + n13 a * n31 b + n14 a * n41 b)
    (n11 a * n12 b + n12 a * n22 b + n13 a * n32 b + n14 a * n42 b)
    (n11 a * n13 b + n12 a * n23 b + n13 a * n33 b + n14 a * n43 b)
    (n11 a * n14 b + n12 a * n24 b + n13 a * n34 b + n14 a * n44 b)
    (n21 a * n11 b + n22 a * n21 b + n23 a * n31 b + n24 a * n41 b)
    (n21 a * n12 b + n22 a * n22 b + n23 a * n32 b + n24 a * n42 b)
    (n21 a * n13 b + n22 a * n23 b + n23 a * n33 b + n24 a * n43 b)
    (n21 a * n14 b + n22 a * n24 b + n23 a * n34 b + n24 a * n44 b)
    (n31 a * n11 b + n32 a * n21 b + n33 a * n31 b + n34 a * n41 b)
    (n31 a * n12 b + n32 a * n22 b + n33 a * n32 b + n34 a * n42 b)
    (n31 a * n13 b + n32 a * n23 b + n33 a * n33 b + n34 a * n43 b)
    (n31 a * n14 b + n32 a * n24 b + n33 a * n34 b + n34 a * n44 b)
    (n41 a * n11 b + n42 a * n21 b + n43 a * n31 b + n44 a * n41 b)
    (n41 a * n12 b + n42 a * n22 b + n43 a * n32 b + n44 a * n42 b)
    (n41 a * n13 b + n42 a * n23 b + n43 a * n33 b + n44 a * n43 b)
    (n41 a * n14 b + n42 a * n24 b + n43 a * n34 b + n44 a * n44 b).

Definition setFromMatrixPosition (m : Matrix4) : Vector3 :=
  mkVector3 (n14 m) (n24 m) (n34 m).

Definition subVectors (a b : Vector3) : Vector3 :=
  mkVector3 (vx a - vx b) (vy a - vy b) (vz a - vz b).

Definition addVectors (a b : Vector3) : Vector3 :=
  mkVector3 (vx a + vx b) (vy a + vy b) (vz a + vz b).

(** [a.sub(b)] *)
Definition sub (a b : Vector3) : Vector3 := subVectors a b.

Definition dot (a b : Vector3) : R :=
  vx a * vx b + vy a * vy b + vz a * vz b.

Definition multiplyScalar (v : Vector3) (s : R) : Vector3 :=
  mkVector3 (vx v * s) (vy v * s) (vz v * s).

Definition divideScalar (v : Vector3) (s : R) : Vector3 :=
  multiplyScalar v (1 / s).

Definition length (v : Vector3) : R :=
  sqrt (vx v * vx v + vy v * vy v + vz v * vz v).

(** [this.divideScalar(this.length() || 1)] *)
Definition normalize (v : Vector3) : Vector3 :=
  let l := length v in
  divideScalar v (if Req_dec_T l 0 then 1 else l).

Definition distanceToSquared (a b : Vector3) : R :=
  let dx := vx a - vx b in
  let dy := vy a - vy b in
  let dz := vz a - vz b in
  dx * dx + dy * dy + dz * dz.

Definition distanceTo (a b : Vector3) : R := sqrt (distanceToSquared a b).

Definition crossVectors (a b : Vector3) : Vector3 :=
  mkVector3 (vy a * vz b - vz a * vy b)
            (vz a * vx b - vx a * vz b)
            (vx a * vy b - vy a * vx b).

(** [v.transformDirection(m)]: the upper-left 3x3 block of [m] applied to
    [v], then normalised. *)
Definition transformDirection (v : Vector3) (m : Matrix4) : Vector3 :=
  normalize
    (mkVector3 (n11 m * vx v + n12 m * vy v + n13 m * vz v)
               (n21 m * vx v + n22 m * vy v + n23 m * vz v)
               (n31 m * vx v + n32 m * vy v + n33 m * vz v)).

End Three.
Import Three.

(** ** constants.ts *)

Definition COLLISION_WARNING_THRESHOLD : R := 0.15.
Definition FLOOR_LIMIT : R := 0.0.

(** ** types.ts *)

Inductive Axis : Type := AxisX | AxisY | AxisZ.

Record JointConfig : Type := mkJointConfig {
  id : nat;
  name : string;
  min : R;
  max : R;
  axis : Axis;
  defaultValue : R;
  speed : R }.

Record RobotDimensions : Type := mkRobotDimensions {
  baseHeight : R;
  j1j2 : R;
  j2j3 : R;
  j3j4 : R;
  j4j5 : R;
  j5j6 : R;
  j6j7 : R;
  j7tip : R }.

Definition DEFAULT_JOINTS : list JointConfig :=
  [ mkJointConfig 0 "J1: Base Yaw" (- PI) PI AxisY 0 0.02;
    mkJointConfig 1 "J2: Shoulder Pitch" (- PI / 2) (PI / 2) AxisX 0 0.02;
    mkJointConfig 2 "J3: Arm Yaw 1" (- PI / 1.5) (PI / 1.5) AxisY 0 0.03;
    mkJointConfig 3 "J4: Arm Yaw 2" (- PI / 1.5) (PI / 1.5) AxisY 0 0.03;
    mkJointConfig 4 "J5: Arm Yaw 3" (- PI / 1.5) (PI / 1.5) AxisY 0 0.03;
    mkJointConfig 5 "J6: Wrist Pitch" (- PI / 1.2) (PI / 1.2) AxisX (PI / 4) 0.04;
    mkJointConfig 6 "J7: Wrist Roll" (- PI * 2) (PI * 2) AxisZ 0 0.05 ].

Definition DEFAULT_DIMENSIONS : RobotDimensions :=
  mkRobotDimensions 0.2 0.3 0.8 0.6 0.6 0.5 0.3 0.2.

(** ** The chain model *)

(** Axes of rotation for each joint (local space). *)
Definition JOINT_AXES : list Vector3 :=
  [ mkVector3 0 1 0;
    mkVector3 1 0 0;
    mkVector3 0 1 0;
    mkVector3 0 1 0;
    mkVector3 0 1 0;
    mkVector3 1 0 0;
    mkVector3 0 0 1 ].

Definition getBoneOffsets (dims : RobotDimensions) : list Vector3 :=
  [ mkVector3 0 (baseHeight dims) 0;
    mkVector3 0 (j1j2 dims) 0;
    mkVector3 0 0 (j2j3 dims);
    mkVector3 0 0 (j3j4 dims);
    mkVector3 0 0 (j4j5 dims);
    mkVector3 0 0 (j5j6 dims);
    mkVector3 0 0 (j6j7 dims);
    mkVector3 0 0 (j7tip dims) ].

(** [new Matrix4().makeTranslation(v.x, v.y, v.z)] *)
Definition translationOf (v : Vector3) : Matrix4 :=
  makeTranslation (vx v) (vy v) (vz v).

(** ** Forward kinematics *)

(** The rotation chosen in [computeFK]: [JOINT_AXES[i].x === 1], then
    [JOINT_AXES[i].y === 1], else Z. *)
Definition fkRotation (a : Vector3) (angle : R) : Matrix4 :=
  if Req_dec_T (vx a) 1 then makeRotationX angle
  else if Req_dec_T (vy a) 1 then makeRotationY angle
  else makeRotationZ angle.

(** One pass of the [for] loop of [computeFK]; the state is
    [(currentMatrix, jointPositions)]. *)
Definition fkStep (angles : list R) (boneOffsets : list Vector3)
    (st : Matrix4 * list Vector3) (i : nat) : Matrix4 * list Vector3 :=
  let rotationMatrix := fkRotation (nth i JOINT_AXES zero) (nth i angles 0) in
  let currentMatrix := multiply (fst st) rotationMatrix in
  let offset := nth (i + 1) boneOffsets zero in
  let currentMatrix := multiply currentMatrix (translationOf offset) in
  (currentMatrix, snd st ++ [setFromMatrixPosition currentMatrix]).

Definition computeFK (angles : list R) (dims : RobotDimensions) : list Vector3 :=
  let boneOffsets := getBoneOffsets dims in
  let currentMatrix :=
    multiply identity (translationOf (nth 0 boneOffsets zero)) in
  let jointPositions := [setFromMatrixPosition currentMatrix] in
  snd (fold_left (fkStep angles boneOffsets) (seq 0 7)
         (currentMatrix, jointPositions)).

(** ** Shortest distance between two line segments P1-Q1 and P2-Q2 *)

(** A condition [x < y] used as a boolean. *)
Definition Rltb (x y : R) : bool := if Rlt_dec x y then true else false.

(** The numerators and denominators [sN / sD] and [tN / tD] of the two
    interpolation parameters. *)
Record SegParams : Type := mkSegParams { sN : R; sD : R; tN : R; tD : R }.

(** First block: [if (D < 1e-6) { ... } else { ... }]. *)
Definition segParamsS (a b c d e : R) : SegParams :=
  let D := a * c - b * b in
  if Rlt_dec D 1e-6 then mkSegParams 0 1 e c
  else
    let sN := b * e - c * d in
    let tN := a * e - b * d in
    if Rlt_dec sN 0 then mkSegParams 0 D e c
    else if Rgt_dec sN D then mkSegParams D D (e + b) c
    else mkSegParams sN D tN D.

(** Second block: [if (tN < 0.0) { ... } else if (tN > tD) { ... }]. *)
Definition segParamsT (a b d : R) (q : SegParams) : SegParams :=
  if Rlt_dec (tN q) 0 then
    if Rlt_dec (- d) 0 then mkSegParams 0 (sD q) 0 (tD q)
    else if Rgt_dec (- d) a then mkSegParams (sD q) (sD q) 0 (tD q)
    else mkSegParams (- d) a 0 (tD q)
  else if Rgt_dec (tN q) (tD q) then
    if Rlt_dec (- d + b) 0 then mkSegParams 0 (sD q) (tD q) (tD q)
    else if Rgt_dec (- d + b) a then mkSegParams (sD q) (sD q) (tD q) (tD q)
    else mkSegParams (- d + b) a (tD q) (tD q)
  else q.

(** The values of [sN], [sD], [tN], [tD] when the two quotients are taken. *)
Definition segParams (p1 q1 p2 q2 : Vector3) : SegParams :=
  let u := subVectors q1 p1 in
  let v := subVectors q2 p2 in
  let w := subVectors p1 p2 in
  let a := dot u u in
  let b := dot u v in
  let c := dot v v in
  let d := dot u w in
  let e := dot v w in
  segParamsT a b d (segParamsS a b c d e).

(** [sc = (Math.abs(sN) < 1e-6 ? 0.0 : sN / sD)] *)
Definition segSc (q : SegParams) : R :=
  if Rlt_dec (Rabs (sN q)) 1e-6 then 0 else sN q / sD q.

(** [tc = (Math.abs(tN) < 1e-6 ? 0.0 : tN / tD)] *)
Definition segTc (q : SegParams) : R :=
  if Rlt_dec (Rabs (tN q)) 1e-6 then 0 else tN q / tD q.

Definition distSegmentToSegment (p1 q1 p2 q2 : Vector3) : R :=
  let u := subVectors q1 p1 in
  let v := subVectors q2 p2 in
  let w := subVectors p1 p2 in
  let q := segParams p1 q1 p2 q2 in
  let sc := segSc q in
  let tc := segTc q in
  let dP := sub (addVectors w (multiplyScalar u sc)) (multiplyScalar v tc) in
  length dP.

(** ** Collision check *)

Record Segment : Type := mkSegment { p1 : Vector3; p2 : Vector3 }.

(** [segments]: base (0,0,0) -> position 0, then one per consecutive pair. *)
Definition buildSegments (positions : list Vector3) : list Segment :=
  mkSegment (mkVector3 0 0 0) (nth 0 positions zero)
  :: map (fun i => mkSegment (nth i positions zero) (nth (i + 1) positions zero))
         (seq 0 (List.length positions - 1)).

Definition segmentAt (segments : list Segment) (i : nat) : Segment :=
  nth i segments (mkSegment zero zero).

(** The test in the body of the two nested loops. *)
Definition tooClose (segments : list Segment) (i j : nat) : bool :=
  let dist :=
    distSegmentToSegment
      (p1 (segmentAt segments i)) (p2 (segmentAt segments i))
      (p1 (segmentAt segments j)) (p2 (segmentAt segments j)) in
  Rltb dist COLLISION_WARNING_THRESHOLD.

Definition checkSelfCollision (positions : list Vector3) : bool :=
  if existsb (fun p => Rltb (vy p) (FLOOR_LIMIT + 0.05)) positions then true
  else
    let segments := buildSegments positions in
    let n := List.length segments in
    existsb
      (fun i => existsb (fun j => tooClose segments i j)
                        (seq (i + 2) (n - (i + 2))))
      (seq 0 n).

(** ** CCD inverse kinematics *)

Definition threshold : R := 0.01.
Definition maxIterations : nat := 5.

(** [arr[i] = x] on an array that has index [i]. *)
Fixpoint setAt (i : nat) (x : R) (arr : list R) : list R :=
  match arr, i with
  | [], _ => []
  | _ :: rest, O => x :: rest
  | y :: rest, S i' => y :: setAt i' x rest
  end.

(** The rotation chosen when replaying the chain in [solveIK]:
    [JOINT_AXES[j].x] truthy, then [JOINT_AXES[j].y] truthy, else Z. *)
Definition ikRotation (a : Vector3) (angle : R) : Matrix4 :=
  if Req_dec_T (vx a) 0 then
    if Req_dec_T (vy a) 0 then makeRotationZ angle
    else makeRotationY angle
  else makeRotationX angle.

(** The loop [for (j = 0; j < i; j++)] that rebuilds the frame of joint [i],
    and the world-space axis read from it. *)
Definition worldAxisOf (newAngles : list R) (boneOffsets : list Vector3)
    (i : nat) : Vector3 :=
  let tempMatrix :=
    multiply identity (translationOf (nth 0 boneOffsets zero)) in
  let tempMatrix :=
    fold_left
      (fun m j =>
         let rot := ikRotation (nth j JOINT_AXES zero) (nth j newAngles 0) in
         multiply (multiply m rot)
                  (translationOf (nth (j + 1) boneOffsets zero)))
      (seq 0 i) tempMatrix in
  normalize (transformDirection (nth i JOINT_AXES zero) tempMatrix).

(** The state a sweep changes: the working copy of the angles and the
    end-effector position, which [endEffectorPos.copy] overwrites in place.
    The other entries of [positions] stay those of the FK at the start of
    the outer iteration. *)
Record IKState : Type := mkIKState {
  newAngles : list R;
  endEffectorPos : Vector3 }.

(** The damped, signed rotation computed for joint [i]. *)
Definition ikRotAngle (toEnd toTarget worldAxis : Vector3) : R :=
  let vE_proj :=
    normalize (sub toEnd (multiplyScalar worldAxis (dot toEnd worldAxis))) in
  let vT_proj :=
    normalize (sub toTarget (multiplyScalar worldAxis (dot toTarget worldAxis))) in
  let rotAngle := acos (Rmax (-1) (Rmin 1 (dot vE_proj vT_proj))) in
  let cross := crossVectors vE_proj vT_proj in
  let rotAngle := if Rlt_dec (dot cross worldAxis) 0 then - rotAngle else rotAngle in
  rotAngle * 0.5.

(** Body of the inner loop for joint [i]. [None] is the exception thrown by
    [configs[i].min] when [configs] has no entry [i]. *)
Definition ikJointStep (targetPos : Vector3) (dims : RobotDimensions)
    (configs : list JointConfig) (positions : list Vector3)
    (st : IKState) (i : nat) : option IKState :=
  let boneOffsets := getBoneOffsets dims in
  let jointPos := nth i positions zero in
  let toEnd := normalize (subVectors (endEffectorPos st) jointPos) in
  let toTarget := normalize (subVectors targetPos jointPos) in
  let angleDiff := dot toEnd toTarget in
  let angleDiff := Rmax (-1) (Rmin 1 angleDiff) in
  if Rlt_dec (Rabs (1 - angleDiff)) 0.0001 then Some st
  else
    let worldAxis := worldAxisOf (newAngles st) boneOffsets i in
    let rotAngle := ikRotAngle toEnd toTarget worldAxis in
    let angles1 := setAt i (nth i (newAngles st) 0 + rotAngle) (newAngles st) in
    match nth_error configs i with
    | None => None
    | Some cfg =>
        let angles2 :=
          setAt i (Rmax (min cfg) (Rmin (max cfg) (nth i angles1 0))) angles1 in
        let updatedPos := computeFK angles2 dims in
        Some (mkIKState angles2 (nth 7 updatedPos zero))
    end.

(** The inner loop over the joints [js] (in the source: 5 down to 0). *)
Fixpoint ikSweep (targetPos : Vector3) (dims : RobotDimensions)
    (configs : list JointConfig) (positions : list Vector3)
    (js : list nat) (st : IKState) : option IKState :=
  match js with
  | [] => Some st
  | i :: js' =>
      match ikJointStep targetPos dims configs positions st i with
      | None => None
      | Some st' => ikSweep targetPos dims configs positions js' st'
      end
  end.

(** [for (let i = 5; i >= 0; i--)] *)
Definition sweepJoints : list nat := [5; 4; 3; 2; 1; 0]%nat.

(** One full backward pass started from the angles [angles]. *)
Definition ikPass (targetPos : Vector3) (dims : RobotDimensions)
    (configs : list JointConfig) (angles : list R) : option (list R) :=
  let positions := computeFK angles dims in
  match ikSweep targetPos dims configs positions sweepJoints
          (mkIKState angles (nth 7 positions zero)) with
  | None => None
  | Some st => Some (newAngles st)
  end.

(** The outer loop; [fuel] is the number of iterations still allowed. *)
Fixpoint ikIterate (fuel : nat) (targetPos : Vector3) (dims : RobotDimensions)
    (configs : list JointConfig) (angles : list R) : option (list R) :=
  match fuel with
  | O => Some angles
  | S fuel' =>
      let positions := computeFK angles dims in
      let endEffector := nth 7 positions zero in
      if Rlt_dec (distanceTo endEffector targetPos) threshold then Some angles
      else
        match ikPass targetPos dims configs angles with
        | None => None
        | Some angles' => ikIterate fuel' targetPos dims configs angles'
        end
  end.

Definition solveIK (targetPos : Vector3) (currentAngles : list R)
    (dims : RobotDimensions) (configs : list JointConfig) : option (list R) :=
  ikIterate maxIterations targetPos dims configs currentAngles.

(** Every value the working copy [newAngles] takes during a sweep, one per
    joint visited, in order. *)
Fixpoint ikSweepTrace (targetPos : Vector3) (dims : RobotDimensions)
    (configs : list JointConfig) (positions : list Vector3)
    (js : list nat) (st : IKState) : list (list R) :=
  match js with
  | [] => []
  | i :: js' =>
      match ikJointStep targetPos dims configs positions st i with
      | None => []
      | Some st' =>
          newAngles st' :: ikSweepTrace targetPos dims configs positions js' st'
      end
  end.

Fixpoint ikIterateTrace (fuel : nat) (targetPos : Vector3)
    (dims : RobotDimensions) (configs : list JointConfig) (angles : list R)
    : list (list R) :=
  match fuel with
  | O => []
  | S fuel' =>
      let positions := computeFK angles dims in
      let endEffector := nth 7 positions zero in
      if Rlt_dec (distanceTo endEffector targetPos) threshold then []
      else
        ikSweepTrace targetPos dims configs positions sweepJoints
          (mkIKState angles endEffector)
        ++ match ikPass targetPos dims configs angles with
           | None => []
           | Some angles' => ikIterateTrace fuel' targetPos dims configs angles'
           end
  end.

(** The angle vectors held by [newAngles] in the course of one call of
    [solveIK]: the copy of the input, then the vector after each joint of
    each sweep. *)
Definition solveIKTrace (targetPos : Vector3) (currentAngles : list R)
    (dims : RobotDimensions) (configs : list JointConfig) : list (list R) :=
  currentAngles :: ikIterateTrace maxIterations targetPos dims configs currentAngles.

(** [k] backward passes in a row, with no early exit. *)
Fixpoint ikPasses (k : nat) (targetPos : Vector3) (dims : RobotDimensions)
    (configs : list JointConfig) (angles : list R) : option (list R) :=
  match k with
  | O => Some angles
  | S k' =>
      match ikPass targetPos dims configs angles with
      | None => None
      | Some angles' => ikPasses k' targetPos dims configs angles'
      end
  end.

(** An angle vector respects the limits of [configs], joint by joint. *)
Definition withinLimit (cfg : JointConfig) (angle : R) : Prop :=
  min cfg <= angle <= max cfg.

Definition jointWithin (configs : list JointConfig) (angles : list R)
    (i : nat) : Prop :=
  forall cfg, nth_error configs i = Some cfg -> withinLimit cfg (nth i angles 0).

(** An angle between the two bounds of a joint, whichever of them is the
    larger; nothing in the program orders [min] and [max], and the two
    sliders of the overlay move independently.  With [min <= max] this is
    [withinLimit]. *)
Definition betweenLimits (cfg : JointConfig) (angle : R) : Prop :=
  Rmin (min cfg) (max cfg) <= angle <= Rmax (min cfg) (max cfg).

Definition jointBetween (configs : list JointConfig) (angles : list R)
    (i : nat) : Prop :=
  forall cfg, nth_error configs i = Some cfg -> betweenLimits cfg (nth i angles 0).

(** ** Workspace generator *)

(** [configs.map(j => j.min + Math.random() * (j.max - j.min))], where
    [rnd k] is the value returned by the [k]-th call of [Math.random]. *)
Fixpoint randAngles (configs : list JointConfig) (rnd : nat -> R) (k : nat)
    : list R :=
  match configs with
  | [] => []
  | j :: rest => (min j + rnd k * (max j - min j)) :: randAngles rest rnd (S k)
  end.

(** The sampling loop; [k] counts the calls of [Math.random] made so far and
    [points] is the flat coordinate array being filled. *)
Fixpoint workspaceLoop (samples : nat) (dims : RobotDimensions)
    (configs : list JointConfig) (rnd : nat -> R) (k : nat)
    (points : list R) : list R :=
  match samples with
  | O => points
  | S samples' =>
      let randA := randAngles configs rnd k in
      let positions := computeFK randA dims in
      let points :=
        if negb (checkSelfCollision positions) then
          let tip := nth 7 positions zero in
          points ++ [vx tip; vy tip; vz tip]
        else points in
      workspaceLoop samples' dims configs rnd (k + List.length configs) points
  end.

(** The array [points] handed to [setWorkspacePoints]. *)
Definition generateWorkspace (samples : nat) (dims : RobotDimensions)
    (configs : list JointConfig) (rnd : nat -> R) : list R :=
  workspaceLoop samples dims configs rnd 0 [].

(** The points stored in a flat coordinate array, three numbers each. *)
Fixpoint pointsOf (coords : list R) : list Vector3 :=
  match coords with
  | x :: y :: z :: rest => mkVector3 x y z :: pointsOf rest
  | _ => []
  end.

(** The angle vector drawn for sample number [i]. *)
Definition sampleAngles (configs : list JointConfig) (rnd : nat -> R)
    (i : nat) : list R :=
  randAngles configs rnd (i * List.length configs).

(** The default rest pose: [DEFAULT_JOINTS.map(j => j.defaultValue)]. *)
Definition defaultAngles : list R := map defaultValue DEFAULT_JOINTS.

Definition zeroAngles : list R := [0; 0; 0; 0; 0; 0; 0].

(** The tip, [positions[7]]. *)
Definition tipOf (positions : list Vector3) : Vector3 := nth 7 positions zero.

(** What holds of the numerators and denominators when the quotients are
    taken: each numerator lies between zero and its denominator. *)
Definition paramsClamped (q : SegParams) : Prop :=
  0 <= sN q <= sD q /\ 0 <= tN q <= tD q.

(** ** The links, as the collision check numbers them

    Link 0 goes from the world origin to position 0; link [k + 1] goes from
    position [k] to position [k + 1]. *)
Definition linkStart (positions : list Vector3) (k : nat) : Vector3 :=
  match k with
  | O => mkVector3 0 0 0
  | S k' => nth k' positions zero
  end.

Definition linkEnd (positions : list Vector3) (k : nat) : Vector3 :=
  nth k positions zero.

(** The distance the check computes for links [i] and [j]. *)
Definition linkDistance (positions : list Vector3) (i j : nat) : R :=
  distSegmentToSegment (linkStart positions i) (linkEnd positions i)
                       (linkStart positions j) (linkEnd positions j).

(** Whether sample number [i] passes the collision check, and its tip. *)
Definition sampleValid (dims : RobotDimensions) (configs : list JointConfig)
    (rnd : nat -> R) (i : nat) : bool :=
  negb (checkSelfCollision (computeFK (sampleAngles configs rnd i) dims)).

Definition sampleTip (dims : RobotDimensions) (configs : list JointConfig)
    (rnd : nat -> R) (i : nat) : Vector3 :=
  tipOf (computeFK (sampleAngles configs rnd i) dims).

(** ** Frames of the chain

    [fkFrame angles boneOffsets k] is the value of [currentMatrix] in
    [computeFK] when position [k] is pushed: the base translation for
    [k = 0], then one rotation and one translation per joint. *)
Fixpoint fkFrame (angles : list R) (boneOffsets : list Vector3) (k : nat)
    : Matrix4 :=
  match k with
  | O => multiply identity (translationOf (nth 0 boneOffsets zero))
  | S k' =>
      multiply
        (multiply (fkFrame angles boneOffsets k')
                  (fkRotation (nth k' JOINT_AXES zero) (nth k' angles 0)))
        (translationOf (nth (k' + 1) boneOffsets zero))
  end.

(** A rigid motion: the columns of the upper-left 3x3 block are orthonormal
    and the last row is (0, 0, 0, 1). *)
Definition rigid (m : Matrix4) : Prop :=
  n11 m * n11 m + n21 m * n21 m + n31 m * n31 m = 1
  /\ n12 m * n12 m + n22 m * n22 m + n32 m * n32 m = 1
  /\ n13 m * n13 m + n23 m * n23 m + n33 m * n33 m = 1
  /\ n11 m * n12 m + n21 m * n22 m + n31 m * n32 m = 0
  /\ n11 m * n13 m + n21 m * n23 m + n31 m * n33 m = 0
  /\ n12 m * n13 m + n22 m * n23 m + n32 m * n33 m = 0
  /\ n41 m = 0 /\ n42 m = 0 /\ n43 m = 0 /\ n44 m = 1.

(** The seven link lengths after the base, in chain order. *)
Definition linkLengths (dims : RobotDimensions) : list R :=
  [ j1j2 dims; j2j3 dims; j3j4 dims; j4j5 dims; j5j6 dims; j6j7 dims;
    j7tip dims ].

(** The sum of the absolute values of the first [k] entries. *)
Fixpoint sumAbs (k : nat) (l : list R) : R :=
  match k, l with
  | S k', x :: rest => Rabs x + sumAbs k' rest
  | _, _ => 0
  end.

(** The point of the segment from [p] to [q] at parameter [s]. *)
Definition pointOn (p q : Vector3) (s : R) : Vector3 :=
  addVectors p (multiplyScalar (subVectors q p) s).

(** ** The control loop ([updateLoop])

    The refs the loop reads and writes, with the one piece of React state it
    computes itself ([isColliding]).  [lastButton0], [lastButton4] and
    [lastButton5] are the entries of [lastButtonStateRef.current]; an entry
    never written reads as falsy, hence [false] at the start. *)
Record LoopState : Type := mkLoopState {
  jointValues : list R;
  gripperValue : R;
  controlMode : Z;
  ikMode : bool;
  ikTargetPos : Vector3;
  lastButton0 : bool;
  lastButton4 : bool;
  lastButton5 : bool;
  isColliding : bool }.

Record GamepadButton : Type := mkGamepadButton { pressed : bool; value : R }.

(** [navigator.getGamepads()[0]], as far as the loop reads it. *)
Record Gamepad : Type := mkGamepad {
  axes : list R;
  buttons : list GamepadButton }.

(** Sequencing of steps that may throw. *)
Definition bind {A B : Type} (o : option A) (f : A -> option B) : option B :=
  match o with
  | Some a => f a
  | None => None
  end.

Notation "x <- c ;; k" := (bind c (fun x => k))
  (at level 61, c at next level, right associativity).

(** [gp.buttons[k]], whose [.pressed] is read: a missing entry throws. *)
Definition buttonAt (gp : Gamepad) (k : nat) : option GamepadButton :=
  nth_error (buttons gp) k.

Definition Rgtb (x y : R) : bool := if Rgt_dec x y then true else false.

(** [Math.abs(gp.axes[k]) > threshold ? gp.axes[k] : 0]; a missing axis
    fails the comparison and reads as 0. *)
Definition stickThreshold : R := 0.1.

Definition axisAt (gp : Gamepad) (k : nat) : R :=
  match nth_error (axes gp) k with
  | Some a => if Rgt_dec (Rabs a) stickThreshold then a else 0
  | None => 0
  end.

(** [(controlModeRef.current - 1 + 3) % 3] and
    [(controlModeRef.current + 1) % 3]. *)
Definition prevMode (m : Z) : Z := Z.rem (m - 1 + 3) 3.
Definition nextMode (m : Z) : Z := Z.rem (m + 1) 3.

(** [arr[i] += x] and [arr[i] -= x]. *)
Definition addAt (i : nat) (x : R) (arr : list R) : list R :=
  setAt i (nth i arr 0 + x) arr.

Definition subAt (i : nat) (x : R) (arr : list R) : list R :=
  setAt i (nth i arr 0 - x) arr.

(** [configs[i].speed]; throws when the entry is missing. *)
Definition speedAt (configs : list JointConfig) (i : nat) : option R :=
  option_map speed (nth_error configs i).

(** [Math.max(cfg.min, Math.min(cfg.max, val))] *)
Definition clampTo (cfg : JointConfig) (val : R) : R :=
  Rmax (min cfg) (Rmin (max cfg) val).

(** The "common apply logic": every proposed joint is clamped to the limits
    of the entry with the same index; a joint without an entry throws. *)
Fixpoint clampJoints (configs : list JointConfig) (vals : list R)
    {struct vals} : option (list R) :=
  match vals with
  | [] => Some []
  | v :: vals' =>
      match configs with
      | [] => None
      | cfg :: configs' =>
          rest <- clampJoints configs' vals' ;;
          Some (clampTo cfg v :: rest)
      end
  end.

(** Collision check of the clamped proposal; it replaces the joint values
    only when no collision is detected. *)
Definition commitJoints (dims : RobotDimensions) (st : LoopState)
    (proposedJoints : list R) : LoopState :=
  let fkPositions := computeFK proposedJoints dims in
  let collisionDetected := checkSelfCollision fkPositions in
  mkLoopState
    (if negb collisionDetected then proposedJoints else jointValues st)
    (gripperValue st) (controlMode st) (ikMode st) (ikTargetPos st)
    (lastButton0 st) (lastButton4 st) (lastButton5 st)
    collisionDetected.

Definition applyJoints (dims : RobotDimensions) (configs : list JointConfig)
    (st : LoopState) (proposedJoints : list R) : option LoopState :=
  clamped <- clampJoints configs proposedJoints ;;
  Some (commitJoints dims st clamped).

(** Buttons: A toggles IK (and snaps the target to the tip when it turns IK
    on), LB and RB cycle the manual mode outside IK; then the button history
    is updated. *)
Definition buttonEvents (b0 b4 b5 : GamepadButton) (dims : RobotDimensions)
    (st : LoopState) : LoopState :=
  let toggle := pressed b0 && negb (lastButton0 st) in
  let newIkMode := if toggle then negb (ikMode st) else ikMode st in
  let target :=
    if toggle && newIkMode then tipOf (computeFK (jointValues st) dims)
    else ikTargetPos st in
  let mode :=
    if negb newIkMode then
      let m :=
        if pressed b4 && negb (lastButton4 st) then prevMode (controlMode st)
        else controlMode st in
      if pressed b5 && negb (lastButton5 st) then nextMode m else m
    else controlMode st in
  mkLoopState (jointValues st) (gripperValue st) mode newIkMode target
    (pressed b0) (pressed b4) (pressed b5) (isColliding st).

Definition ikSpeed : R := 0.04.

(** The IK branch: the sticks move the target, the solver follows it, then
    the manual wrist adjustments are applied on top. *)
Definition ikControl (axis0 axis1 axis2 axis3 : R)
    (dUp dDown dLeft dRight : bool) (dims : RobotDimensions)
    (configs : list JointConfig) (target : Vector3) (joints : list R)
    : option (Vector3 * list R) :=
  let target :=
    if Rgtb (Rabs axis0) 0 || Rgtb (Rabs axis1) 0 || Rgtb (Rabs axis3) 0 then
      mkVector3 (vx target - axis0 * ikSpeed)
                (Rmax 0.05 (vy target - axis3 * ikSpeed))
                (vz target - axis1 * ikSpeed)
    else target in
  proposedJoints <- solveIK target joints dims configs ;;
  s6 <- speedAt configs 6 ;;
  let proposedJoints := subAt 6 (axis2 * s6) proposedJoints in
  let proposedJoints := if dUp then addAt 5 0.02 proposedJoints else proposedJoints in
  let proposedJoints := if dDown then subAt 5 0.02 proposedJoints else proposedJoints in
  let proposedJoints := if dLeft then subAt 4 0.02 proposedJoints else proposedJoints in
  let proposedJoints := if dRight then addAt 4 0.02 proposedJoints else proposedJoints in
  let target :=
    if (if Req_dec_T axis2 0 then false else true)
       || dUp || dDown || dLeft || dRight
    then tipOf (computeFK proposedJoints dims)
    else target in
  Some (target, proposedJoints).

(** The manual branch: each mode drives its own joints. *)
Definition manualControl (mode : Z) (axis0 axis1 axis2 axis3 : R)
    (dUp dDown : bool) (configs : list JointConfig) (joints : list R)
    : option (list R) :=
  if Z.eqb mode 0 then
    s0 <- speedAt configs 0 ;;
    let joints := subAt 0 (axis0 * s0) joints in
    s1 <- speedAt configs 1 ;;
    let joints := subAt 1 (axis1 * s1) joints in
    s2 <- speedAt configs 2 ;;
    Some (subAt 2 (axis2 * s2) joints)
  else if Z.eqb mode 1 then
    s2 <- speedAt configs 2 ;;
    let joints := subAt 2 (axis1 * s2) joints in
    s3 <- speedAt configs 3 ;;
    let joints := subAt 3 (axis3 * s3) joints in
    s4 <- speedAt configs 4 ;;
    Some (subAt 4 (axis2 * s4) joints)
  else if Z.eqb mode 2 then
    s5 <- speedAt configs 5 ;;
    let joints := subAt 5 (axis1 * s5) joints in
    s6 <- speedAt configs 6 ;;
    let joints := subAt 6 (axis2 * s6) joints in
    let joints := if dUp then addAt 3 0.02 joints else joints in
    Some (if dDown then subAt 3 0.02 joints else joints)
  else Some joints.

(** The gripper: triggers close and open it, within [0, 1].  A trigger that
    is not an object (here: a missing entry) is skipped. *)
Definition gripperStep (gp : Gamepad) (gripper : R) : R :=
  let gripperChange := 0 in
  let gripperChange :=
    match nth_error (buttons gp) 6 with
    | Some b6 => gripperChange - value b6 * 0.05
    | None => gripperChange
    end in
  let gripperChange :=
    match nth_error (buttons gp) 7 with
    | Some b7 => gripperChange + value b7 * 0.05
    | None => gripperChange
    end in
  let newGripper := gripper + gripperChange in
  Rmax 0 (Rmin 1 newGripper).

(** One frame with a gamepad connected. *)
Definition gamepadFrame (gp : Gamepad) (dims : RobotDimensions)
    (configs : list JointConfig) (st : LoopState) : option LoopState :=
  b0 <- buttonAt gp 0 ;;
  b4 <- buttonAt gp 4 ;;
  b5 <- buttonAt gp 5 ;;
  let st := buttonEvents b0 b4 b5 dims st in
  let axis0 := axisAt gp 0 in
  let axis1 := axisAt gp 1 in
  let axis2 := axisAt gp 2 in
  let axis3 := axisAt gp 3 in
  b12 <- buttonAt gp 12 ;;
  b13 <- buttonAt gp 13 ;;
  b14 <- buttonAt gp 14 ;;
  b15 <- buttonAt gp 15 ;;
  let dUp := pressed b12 in
  let dDown := pressed b13 in
  let dLeft := pressed b14 in
  let dRight := pressed b15 in
  moved <-
    (if ikMode st then
       ikControl axis0 axis1 axis2 axis3 dUp dDown dLeft dRight dims configs
         (ikTargetPos st) (jointValues st)
     else
       proposedJoints <-
         manualControl (controlMode st) axis0 axis1 axis2 axis3 dUp dDown
           configs (jointValues st) ;;
       Some (ikTargetPos st, proposedJoints)) ;;
  let st :=
    mkLoopState (jointValues st) (gripperStep gp (gripperValue st))
      (controlMode st) (ikMode st) (fst moved)
      (lastButton0 st) (lastButton4 st) (lastButton5 st) (isColliding st) in
  applyJoints dims configs st (snd moved).

(** One frame with no gamepad: only an active IK mode does anything. *)
Definition idleFrame (dims : RobotDimensions) (configs : list JointConfig)
    (st : LoopState) : option LoopState :=
  if ikMode st then
    currentJoints <- solveIK (ikTargetPos st) (jointValues st) dims configs ;;
    applyJoints dims configs st currentJoints
  else Some st.

Definition updateLoop (gp : option Gamepad) (dims : RobotDimensions)
    (configs : list JointConfig) (st : LoopState) : option LoopState :=
  match gp with
  | Some g => gamepadFrame g dims configs st
  | None => idleFrame dims configs st
  end.

(** The IK switch of the overlay and the drag handler of the target.  The
    switch reads the React state [ikMode]; every writer sets it together with
    [ikModeRef.current], so the two are one field here. *)
Definition toggleIkMode (dims : RobotDimensions) (st : LoopState) : LoopState :=
  let newMode := negb (ikMode st) in
  mkLoopState (jointValues st) (gripperValue st) (controlMode st) newMode
    (if newMode then tipOf (computeFK (jointValues st) dims)
     else ikTargetPos st)
    (lastButton0 st) (lastButton4 st) (lastButton5 st) (isColliding st).

Definition handleTargetDrag (newPos : Vector3) (st : LoopState) : LoopState :=
  mkLoopState (jointValues st) (gripperValue st) (controlMode st) true newPos
    (lastButton0 st) (lastButton4 st) (lastButton5 st) (isColliding st).

(** A pose the loop may hold: within the limits and free of collision. *)
Definition validPose (dims : RobotDimensions) (configs : list JointConfig)
    (joints : list R) : Prop :=
  (forall j, jointWithin configs joints j)
  /\ checkSelfCollision (computeFK joints dims) = false.

(** The state the application starts from, and a pad with sixteen released
    buttons and four centred sticks. *)
Definition initialState : LoopState :=
  mkLoopState defaultAngles 0 0 false (mkVector3 0 1.5 1.5)
    false false false false.

Definition idlePad : Gamepad :=
  mkGamepad [0; 0; 0; 0] (repeat (mkGamepadButton false 0) 16).

(** The joints each manual mode drives. *)
Definition modeJoints (mode : Z) : list nat :=
  if Z.eqb mode 0 then [0; 1; 2]%nat
  else if Z.eqb mode 1 then [2; 3; 4]%nat
  else if Z.eqb mode 2 then [5; 6; 3]%nat
  else [].

(** A pad with button A held down, the sticks slightly off centre and
    everything else released. *)
Definition pressAPad : Gamepad :=
  mkGamepad [0.05; -0.02; 0; 0]
    (mkGamepadButton true 1 :: repeat (mkGamepadButton false 0) 15).

(** A pad with drifting sticks (inside the dead zone) and nothing pressed. *)
Definition driftPad : Gamepad :=
  mkGamepad [0.08; -0.1; 0.03; 0] (repeat (mkGamepadButton false 0) 16).

(** A pad with both sticks deflected and nothing pressed. *)
Definition steerPad : Gamepad :=
  mkGamepad [0.5; -0.3; 0.2; 0] (repeat (mkGamepadButton false 0) 16).

(** The default limits with the wrist-roll range turned upside down
    (min = 1 above max = 0), and the straight pose in manual mode. *)
Definition invertedRollLimits : list JointConfig :=
  firstn 6 DEFAULT_JOINTS
  ++ [mkJointConfig 6 "J7: Wrist Roll" 1 0 AxisZ 0 0.05].

Definition straightState : LoopState :=
  mkLoopState zeroAngles 0 0 false (mkVector3 0 1.5 1.5)
    false false false false.

(** ** The limit sliders of the overlay *)

Inductive LimitField : Type := FieldMin | FieldMax.

(** [{ ...cfg, [field]: rad }] *)
Definition withLimit (cfg : JointConfig) (field : LimitField) (rad : R)
    : JointConfig :=
  match field with
  | FieldMin =>
      mkJointConfig (id cfg) (name cfg) rad (max cfg) (axis cfg)
        (defaultValue cfg) (speed cfg)
  | FieldMax =>
      mkJointConfig (id cfg) (name cfg) (min cfg) rad (axis cfg)
        (defaultValue cfg) (speed cfg)
  end.

(** [handleLimitChange(index, field, value)] for a slider of an existing
    joint; [value] is the number [parseFloat] reads from the slider. *)
Fixpoint handleLimitChange (jointsConfig : list JointConfig) (index : nat)
    (field : LimitField) (value : R) : list JointConfig :=
  match jointsConfig, index with
  | [], _ => []
  | cfg :: rest, O => withLimit cfg field (value * (PI / 180)) :: rest
  | cfg :: rest, S index' => cfg :: handleLimitChange rest index' field value
  end.

(** [Math.round(x)]: the integer below [x + 0.5]. *)
Definition mathRound (x : R) : Z := Int_part (x + 0.5).

(** The degrees shown next to a slider: [Math.round(rad * 180 / Math.PI)]. *)
Definition shownDegrees (rad : R) : Z := mathRound (rad * 180 / PI).

Definition limitOf (field : LimitField) (cfg : JointConfig) : R :=
  match field with
  | FieldMin => min cfg
  | FieldMax => max cfg
  end.

(** The starting state with IK switched on, and a pad that pushes the
    target: left stick and right stick Y deflected, right stick X centred. *)
Definition ikState : LoopState :=
  mkLoopState defaultAngles 0 0 true (mkVector3 0 1.5 1.5)
    false false false false.

Definition pushPad : Gamepad :=
  mkGamepad [0.5; -0.3; 0; 0.9] (repeat (mkGamepadButton false 0) 16).

(** * Properties *)

(** ** Geometry *)

Lemma Matrix4_ext a b :
  n11 a = n11 b -> n12 a = n12 b -> n13 a = n13 b -> n14 a = n14 b ->
  n21 a = n21 b -> n22 a = n22 b -> n23 a = n23 b -> n24 a = n24 b ->
  n31 a = n31 b -> n32 a = n32 b -> n33 a = n33 b -> n34 a = n34 b ->
  n41 a = n41 b -> n42 a = n42 b -> n43 a = n43 b -> n44 a = n44 b ->
  a = b.
Proof. destruct a, b; cbn; intros; subst; reflexivity. Qed.

Ltac matrix_eq := apply Matrix4_ext; cbn; try ring.

Lemma makeRotationX_0 : makeRotationX 0 = identity.
Proof. unfold makeRotationX. rewrite cos_0, sin_0. matrix_eq. Qed.

Lemma makeRotationY_0 : makeRotationY 0 = identity.
Proof. unfold makeRotationY. rewrite cos_0, sin_0. matrix_eq. Qed.

Lemma makeRotationZ_0 : makeRotationZ 0 = identity.
Proof. unfold makeRotationZ. rewrite cos_0, sin_0. matrix_eq. Qed.

Lemma multiply_identity_l m : multiply identity m = m.
Proof. matrix_eq. Qed.

Lemma multiply_identity_r m : multiply m identity = m.
Proof. matrix_eq. Qed.

Lemma multiply_translations x y z x' y' z' :
  multiply (makeTranslation x y z) (makeTranslation x' y' z')
  = makeTranslation (x + x') (y + y') (z + z').
Proof. matrix_eq. Qed.

(** A translation followed by a rotation about X, and what a further
    translation along the local Z axis does to it. *)
Lemma translate_rotX_translateZ x y z theta l :
  multiply (multiply (makeTranslation x y z) (makeRotationX theta))
           (makeTranslation 0 0 l)
  = multiply (makeTranslation x (y - sin theta * l) (z + cos theta * l))
             (makeRotationX theta).
Proof. matrix_eq. Qed.

Lemma position_translate_rotX x y z theta :
  setFromMatrixPosition (multiply (makeTranslation x y z) (makeRotationX theta))
  = mkVector3 x y z.
Proof.
  unfold setFromMatrixPosition; cbn. f_equal; ring.
Qed.

Lemma sqrt_sum_squares_nonneg x y z : 0 <= x * x + y * y + z * z.
Proof. nra. Qed.

Lemma length_nonneg v : 0 <= length v.
Proof. apply sqrt_pos. Qed.

(** The length of a vector is at least the size of each coordinate. *)
Lemma length_ge_abs_vy v : Rabs (vy v) <= length v.
Proof.
  unfold length. rewrite <- sqrt_Rsqr_abs.
  apply sqrt_le_1_alt. unfold Rsqr. nra.
Qed.

Lemma length_ge_abs_vz v : Rabs (vz v) <= length v.
Proof.
  unfold length. rewrite <- sqrt_Rsqr_abs.
  apply sqrt_le_1_alt. unfold Rsqr. nra.
Qed.

Lemma distanceTo_self p : distanceTo p p = 0.
Proof.
  unfold distanceTo, distanceToSquared.
  replace ((vx p - vx p) * (vx p - vx p) + (vy p - vy p) * (vy p - vy p)
           + (vz p - vz p) * (vz p - vz p)) with 0 by ring.
  apply sqrt_0.
Qed.

Lemma Rltb_true x y : Rltb x y = true <-> x < y.
Proof. unfold Rltb. destruct (Rlt_dec x y); split; intros; try lra; congruence. Qed.

Lemma Rltb_false x y : Rltb x y = false <-> y <= x.
Proof. unfold Rltb. destruct (Rlt_dec x y); split; intros; try lra; congruence. Qed.

(** ** Forward kinematics *)

Lemma fkRotation_X angle : fkRotation (mkVector3 1 0 0) angle = makeRotationX angle.
Proof. unfold fkRotation; simpl. destruct (Req_dec_T 1 1); [reflexivity | lra]. Qed.

Lemma fkRotation_Y angle : fkRotation (mkVector3 0 1 0) angle = makeRotationY angle.
Proof.
  unfold fkRotation; simpl.
  destruct (Req_dec_T 0 1); [lra |].
  destruct (Req_dec_T 1 1); [reflexivity | lra].
Qed.

Lemma fkRotation_Z angle : fkRotation (mkVector3 0 0 1) angle = makeRotationZ angle.
Proof. unfold fkRotation; simpl. destruct (Req_dec_T 0 1); [lra | reflexivity]. Qed.

(** [computeFK] always produces eight positions. *)
Lemma computeFK_length angles dims : List.length (computeFK angles dims) = 8%nat.
Proof. reflexivity. Qed.

Ltac fk_unroll :=
  unfold computeFK;
  cbn [fold_left seq fkStep nth JOINT_AXES getBoneOffsets Nat.add fst snd app];
  rewrite ?fkRotation_X, ?fkRotation_Y, ?fkRotation_Z.

Ltac fk_collapse :=
  unfold translationOf; cbn [vx vy vz];
  rewrite ?makeRotationX_0, ?makeRotationY_0, ?makeRotationZ_0;
  rewrite ?multiply_identity_l, ?multiply_identity_r;
  repeat (rewrite ?multiply_translations, ?translate_rotX_translateZ,
            ?multiply_identity_r).

(** With every angle at zero the chain is a stack of translations: the first
    two links go up, the other six go along Z. *)
Lemma computeFK_zero dims :
  computeFK zeroAngles dims =
  let h := baseHeight dims in
  let h1 := h + j1j2 dims in
  let z2 := j2j3 dims in
  let z3 := z2 + j3j4 dims in
  let z4 := z3 + j4j5 dims in
  let z5 := z4 + j5j6 dims in
  let z6 := z5 + j6j7 dims in
  let z7 := z6 + j7tip dims in
  [ mkVector3 0 h 0; mkVector3 0 h1 0; mkVector3 0 h1 z2; mkVector3 0 h1 z3;
    mkVector3 0 h1 z4; mkVector3 0 h1 z5; mkVector3 0 h1 z6; mkVector3 0 h1 z7 ].
Proof.
  unfold zeroAngles. fk_unroll. fk_collapse.
  unfold setFromMatrixPosition, makeTranslation; cbn [n14 n24 n34].
  cbv zeta. repeat (f_equal; try ring).
Qed.

(** C1, as stated, fails: at the zero pose with the default lengths the tip is
    not above the base at the height of the eight lengths added up. *)
Lemma C1_zero_pose_tip_not_above_base :
  ~ (let tip := tipOf (computeFK zeroAngles DEFAULT_DIMENSIONS) in
     vx tip = 0 /\ vz tip = 0 /\
     vy tip = 0.2 + 0.3 + 0.8 + 0.6 + 0.6 + 0.5 + 0.3 + 0.2).
Proof.
  rewrite computeFK_zero. unfold tipOf; cbn. lra.
Qed.

(** C1 (amended): for the all-zero angle vector and the default lengths the
    tip has x = 0, its height is baseHeight + j1j2 = 0.5, and its horizontal
    offset along Z is the sum of the other six lengths, 3.0. *)
Theorem C1_zero_pose_tip :
  tipOf (computeFK zeroAngles DEFAULT_DIMENSIONS)
  = mkVector3 0
      (baseHeight DEFAULT_DIMENSIONS + j1j2 DEFAULT_DIMENSIONS)
      (j2j3 DEFAULT_DIMENSIONS + j3j4 DEFAULT_DIMENSIONS
       + j4j5 DEFAULT_DIMENSIONS + j5j6 DEFAULT_DIMENSIONS
       + j6j7 DEFAULT_DIMENSIONS + j7tip DEFAULT_DIMENSIONS)
  /\ baseHeight DEFAULT_DIMENSIONS + j1j2 DEFAULT_DIMENSIONS = 0.5
  /\ j2j3 DEFAULT_DIMENSIONS + j3j4 DEFAULT_DIMENSIONS
     + j4j5 DEFAULT_DIMENSIONS + j5j6 DEFAULT_DIMENSIONS
     + j6j7 DEFAULT_DIMENSIONS + j7tip DEFAULT_DIMENSIONS = 3.0.
Proof.
  rewrite computeFK_zero. unfold tipOf; cbn.
  repeat split; try lra.
Qed.

(** ** Segment-to-segment distance *)

Lemma segParamsS_bounds a b c d e :
  0 <= c ->
  let q := segParamsS a b c d e in
  0 <= sN q <= sD q /\ 0 < sD q /\ 0 <= tD q.
Proof.
  intros Hc. unfold segParamsS.
  destruct (Rlt_dec (a * c - b * b) 1e-6) as [HD | HD]; cbn.
  - lra.
  - destruct (Rlt_dec (b * e - c * d) 0) as [Hs | Hs]; cbn; [lra |].
    destruct (Rgt_dec (b * e - c * d) (a * c - b * b)) as [Hg | Hg]; cbn;
      unfold Rgt in *; lra.
Qed.

Lemma segParamsT_clamped a b d q :
  0 <= sN q <= sD q -> 0 <= tD q ->
  paramsClamped (segParamsT a b d q).
Proof.
  intros Hs Ht. unfold segParamsT, paramsClamped.
  destruct (Rlt_dec (tN q) 0) as [H1 | H1].
  - destruct (Rlt_dec (- d) 0); cbn; [lra |].
    destruct (Rgt_dec (- d) a); cbn; unfold Rgt in *; lra.
  - destruct (Rgt_dec (tN q) (tD q)) as [H2 | H2].
    + destruct (Rlt_dec (- d + b) 0); cbn; [lra |].
      destruct (Rgt_dec (- d + b) a); cbn; unfold Rgt in *; lra.
    + unfold Rgt in *; lra.
Qed.

Lemma dot_self_nonneg v : 0 <= dot v v.
Proof. unfold dot. nra. Qed.

Lemma segParams_clamped p q p' q' : paramsClamped (segParams p q p' q').
Proof.
  unfold segParams.
  pose proof (segParamsS_bounds
                (dot (subVectors q p) (subVectors q p))
                (dot (subVectors q p) (subVectors q' p'))
                (dot (subVectors q' p') (subVectors q' p'))
                (dot (subVectors q p) (subVectors p p'))
                (dot (subVectors q' p') (subVectors p p'))
                (dot_self_nonneg _)) as H.
  cbv zeta in H. destruct H as (H1 & _ & H3).
  apply segParamsT_clamped; assumption.
Qed.

(** A quotient that is taken has a denominator above the guard. *)
Lemma guarded_quotient_denominator n dn :
  0 <= n <= dn -> ~ Rabs n < 1e-6 -> 1e-6 <= dn.
Proof.
  intros H Hn. rewrite Rabs_right in Hn by lra. lra.
Qed.

Lemma guarded_quotient_unit n dn :
  0 <= n <= dn ->
  0 <= (if Rlt_dec (Rabs n) 1e-6 then 0 else n / dn) <= 1.
Proof.
  intros H. destruct (Rlt_dec (Rabs n) 1e-6) as [Hn | Hn]; [lra |].
  pose proof (guarded_quotient_denominator n dn H Hn) as Hd.
  assert (0 < dn) by lra.
  split.
  - apply Rmult_le_pos; [lra |]. apply Rlt_le, Rinv_0_lt_compat; assumption.
  - apply Rmult_le_reg_r with dn; [assumption |].
    unfold Rdiv. rewrite Rmult_assoc, Rinv_l by lra. lra.
Qed.

Lemma segSc_unit p q p' q' : 0 <= segSc (segParams p q p' q') <= 1.
Proof. apply guarded_quotient_unit, segParams_clamped. Qed.

Lemma segTc_unit p q p' q' : 0 <= segTc (segParams p q p' q') <= 1.
Proof. apply guarded_quotient_unit, segParams_clamped. Qed.

(** C9: in the segment-distance computation a quotient [sN / sD] or
    [tN / tD] is only taken with a nonzero denominator, whatever the four
    endpoints, and the distance returned is nonnegative. *)
Theorem C9_segment_distance_divisions_safe (p q p' q' : Vector3) :
  let r := segParams p q p' q' in
  (~ Rabs (sN r) < 1e-6 -> sD r <> 0)
  /\ (~ Rabs (tN r) < 1e-6 -> tD r <> 0)
  /\ 0 <= distSegmentToSegment p q p' q'.
Proof.
  cbv zeta. destruct (segParams_clamped p q p' q') as [Hs Ht].
  repeat split.
  - intros Hn. pose proof (guarded_quotient_denominator _ _ Hs Hn). lra.
  - intros Hn. pose proof (guarded_quotient_denominator _ _ Ht Hn). lra.
  - apply length_nonneg.
Qed.

(** The distance returned is the distance between a point of the first
    segment and a point of the second; when a plane of constant [z]
    separates the two segments by [delta], it is at least [delta]. *)
Lemma distSegmentToSegment_separated_z p q p' q' m delta :
  vz p <= m -> vz q <= m ->
  m + delta <= vz p' -> m + delta <= vz q' ->
  0 <= delta ->
  delta <= distSegmentToSegment p q p' q'.
Proof.
  intros Hp Hq Hp' Hq' Hd.
  unfold distSegmentToSegment.
  pose proof (segSc_unit p q p' q') as Hs.
  pose proof (segTc_unit p q p' q') as Ht.
  set (sc := segSc _) in *. set (tc := segTc _) in *.
  eapply Rle_trans; [| apply length_ge_abs_vz].
  cbn. rewrite Rabs_left1; nra.
Qed.

Lemma distSegmentToSegment_separated_y p q p' q' m delta :
  vy p <= m -> vy q <= m ->
  m + delta <= vy p' -> m + delta <= vy q' ->
  0 <= delta ->
  delta <= distSegmentToSegment p q p' q'.
Proof.
  intros Hp Hq Hp' Hq' Hd.
  unfold distSegmentToSegment.
  pose proof (segSc_unit p q p' q') as Hs.
  pose proof (segTc_unit p q p' q') as Ht.
  set (sc := segSc _) in *. set (tc := segTc _) in *.
  eapply Rle_trans; [| apply length_ge_abs_vy].
  cbn. rewrite Rabs_left1; nra.
Qed.

(** ** Collision check *)

Lemma existsb_false_iff {A} (f : A -> bool) l :
  existsb f l = false <-> forall x, In x l -> f x = false.
Proof.
  induction l as [| y l IH]; cbn.
  - split; [intros _ x [] | reflexivity].
  - rewrite orb_false_iff, IH. split.
    + intros [Hy Hl] x [<- | Hx]; auto.
    + intros H. split; [apply H; auto | intros x Hx; apply H; auto].
Qed.

(** For eight positions the segment array holds the eight links. *)
Lemma segmentAt_buildSegments positions k :
  List.length positions = 8%nat -> (k < 8)%nat ->
  segmentAt (buildSegments positions) k
  = mkSegment (linkStart positions k) (linkEnd positions k).
Proof.
  intros Hlen Hk.
  do 8 (destruct positions as [| ? positions]; [discriminate Hlen |]).
  destruct positions; [| discriminate Hlen].
  do 8 (destruct k as [| k]; [reflexivity |]). lia.
Qed.

Lemma buildSegments_length positions :
  List.length (buildSegments positions) = S (List.length positions - 1).
Proof. unfold buildSegments. cbn. rewrite length_map, length_seq. reflexivity. Qed.

Lemma tooClose_linkDistance positions i j :
  List.length positions = 8%nat -> (i < 8)%nat -> (j < 8)%nat ->
  tooClose (buildSegments positions) i j = true
  <-> linkDistance positions i j < COLLISION_WARNING_THRESHOLD.
Proof.
  intros Hlen Hi Hj. unfold tooClose, linkDistance.
  rewrite !segmentAt_buildSegments by assumption. cbn [p1 p2].
  apply Rltb_true.
Qed.

(** The two loops of the check, read as a statement about the positions. *)
Lemma checkSelfCollision_true_iff (positions : list Vector3) :
  List.length positions = 8%nat ->
  checkSelfCollision positions = true
  <-> (exists p, In p positions /\ vy p < FLOOR_LIMIT + 0.05)
      \/ (exists i j, (i + 1 < j)%nat /\ (j < 8)%nat /\
                      linkDistance positions i j < COLLISION_WARNING_THRESHOLD).
Proof.
  intros Hlen. unfold checkSelfCollision.
  destruct (existsb _ positions) eqn:Hfloor.
  - split; [intros _ | reflexivity]. left.
    apply existsb_exists in Hfloor. destruct Hfloor as (p & Hin & Hp).
    exists p. split; [assumption | apply Rltb_true; assumption].
  - rewrite existsb_false_iff in Hfloor.
    rewrite buildSegments_length, Hlen.
    change (S (8 - 1)) with 8%nat.
    rewrite existsb_exists. split.
    + intros (i & Hi & Hex). right.
      apply in_seq in Hi. apply existsb_exists in Hex.
      destruct Hex as (j & Hj & Hclose). apply in_seq in Hj.
      exists i, j. split; [lia |]. split; [lia |].
      apply (tooClose_linkDistance positions i j Hlen); [lia | lia | assumption].
    + intros [(p & Hin & Hp) | (i & j & Hij & Hj & Hd)].
      * apply Hfloor in Hin. apply Rltb_false in Hin. lra.
      * exists i. split; [apply in_seq; lia |].
        apply existsb_exists. exists j. split; [apply in_seq; lia |].
        apply (tooClose_linkDistance positions i j Hlen); [lia | lia | assumption].
Qed.

(** C3: on eight positions the check answers true exactly when some position
    is below [FLOOR_LIMIT + 0.05] or two links whose numbers differ by more
    than one are closer than 0.15, the distance being the one computed from
    the lower-numbered link to the higher-numbered one. *)
Theorem C3_checkSelfCollision_iff (positions : list Vector3) :
  List.length positions = 8%nat ->
  checkSelfCollision positions = true
  <-> (exists p, In p positions /\ vy p < FLOOR_LIMIT + 0.05)
      \/ (exists i j, (i + 1 < j)%nat /\ (j < 8)%nat /\
                      linkDistance positions i j < 0.15).
Proof. exact (checkSelfCollision_true_iff positions). Qed.

Lemma C3_checkSelfCollision_iff_witness :
  checkSelfCollision (computeFK zeroAngles DEFAULT_DIMENSIONS) = true
  <-> (exists p, In p (computeFK zeroAngles DEFAULT_DIMENSIONS)
                 /\ vy p < FLOOR_LIMIT + 0.05)
      \/ (exists i j, (i + 1 < j)%nat /\ (j < 8)%nat /\
                      linkDistance (computeFK zeroAngles DEFAULT_DIMENSIONS) i j
                      < 0.15).
Proof.
  apply (C3_checkSelfCollision_iff (computeFK zeroAngles DEFAULT_DIMENSIONS)).
  reflexivity.
Defined.

(** ** The default rest pose *)

Lemma cos_PI4_bounds : 0.7 < cos (PI / 4) < 0.71.
Proof.
  rewrite cos_PI4.
  assert (H2 : 0 <= 2) by lra.
  pose proof (sqrt_sqrt 2 H2) as Hs.
  pose proof (sqrt_lt_R0 2 ltac:(lra)) as Hpos.
  assert (Hlo : 1.41 < sqrt 2) by nra.
  assert (Hhi : sqrt 2 < 1.42) by nra.
  split.
  - apply Rmult_lt_reg_r with (sqrt 2); [assumption |].
    unfold Rdiv. rewrite Rmult_assoc, Rinv_l by lra. lra.
  - apply Rmult_lt_reg_r with (sqrt 2); [assumption |].
    unfold Rdiv. rewrite Rmult_assoc, Rinv_l by lra. lra.
Qed.

(** At rest only the wrist pitch is bent: positions 0 to 5 are those of the
    straight chain, and the last two links point down by a quarter turn. *)
Lemma computeFK_rest_pose :
  computeFK defaultAngles DEFAULT_DIMENSIONS =
  let s := sin (PI / 4) in
  let c := cos (PI / 4) in
  [ mkVector3 0 0.2 0; mkVector3 0 0.5 0; mkVector3 0 0.5 0.8;
    mkVector3 0 0.5 1.4; mkVector3 0 0.5 2.0; mkVector3 0 0.5 2.5;
    mkVector3 0 (0.5 - s * 0.3) (2.5 + c * 0.3);
    mkVector3 0 (0.5 - s * 0.3 - s * 0.2) (2.5 + c * 0.3 + c * 0.2) ].
Proof.
  unfold defaultAngles, DEFAULT_JOINTS. cbn [map defaultValue].
  fk_unroll. unfold DEFAULT_DIMENSIONS.
  cbn [baseHeight j1j2 j2j3 j3j4 j4j5 j5j6 j6j7 j7tip].
  fk_collapse.
  rewrite !position_translate_rotX.
  unfold setFromMatrixPosition, makeTranslation; cbn [n14 n24 n34].
  cbv zeta. repeat (f_equal; try lra).
Qed.

Ltac separated :=
  match goal with
  | |- _ <= distSegmentToSegment ?p ?q ?p' ?q' =>
      first
        [ apply (distSegmentToSegment_separated_z p q p' q' (vz q));
          cbn [vx vy vz]; lra
        | apply (distSegmentToSegment_separated_y p q p' q' (vy q));
          cbn [vx vy vz]; lra ]
  end.

Ltac links_apart Hc :=
  let p := fresh "p" in
  let i := fresh "i" in
  let j := fresh "j" in
  let Hin := fresh "Hin" in
  let Hp := fresh "Hp" in
  let Hij := fresh "Hij" in
  let Hj := fresh "Hj" in
  let Hd := fresh "Hd" in
  unfold FLOOR_LIMIT, COLLISION_WARNING_THRESHOLD in Hc;
  destruct Hc as [(p & Hin & Hp) | (i & j & Hij & Hj & Hd)];
  [ cbn [In] in Hin;
    repeat (destruct Hin as [<- | Hin]; [cbn [vy] in Hp; lra |]);
    contradiction
  | apply Rlt_not_le in Hd; apply Hd; clear Hd;
    unfold linkDistance;
    do 7 (destruct i as [| i]; [
      do 8 (destruct j as [| j]; [
        try lia; cbn [linkStart linkEnd nth]; separated |]); lia |]);
    lia ].

(** C5: the check answers false on the positions of the default rest pose
    (all angles zero except the wrist pitch at pi/4) with the default
    lengths. *)
Theorem C5_rest_pose_collision_free :
  checkSelfCollision (computeFK defaultAngles DEFAULT_DIMENSIONS) = false.
Proof.
  destruct (checkSelfCollision _) eqn:Hc; [exfalso | reflexivity].
  apply checkSelfCollision_true_iff in Hc; [| reflexivity].
  rewrite computeFK_rest_pose in Hc. cbv zeta in Hc.
  pose proof cos_PI4_bounds as Hcos.
  pose proof sin_cos_PI4 as Hsin.
  links_apart Hc.
Qed.

(** The straight chain of the zero pose passes the check as well. *)
Lemma zero_pose_collision_free :
  checkSelfCollision (computeFK zeroAngles DEFAULT_DIMENSIONS) = false.
Proof.
  destruct (checkSelfCollision _) eqn:Hc; [exfalso | reflexivity].
  apply checkSelfCollision_true_iff in Hc; [| reflexivity].
  rewrite computeFK_zero in Hc. unfold DEFAULT_DIMENSIONS in Hc.
  cbn [baseHeight j1j2 j2j3 j3j4 j4j5 j5j6 j6j7 j7tip] in Hc. cbv zeta in Hc.
  links_apart Hc.
Qed.

(** ** Array update *)

Lemma setAt_length i x arr : List.length (setAt i x arr) = List.length arr.
Proof.
  revert i. induction arr as [| y arr IH]; intros [| i]; cbn; auto.
Qed.

Lemma nth_setAt_same i x arr d :
  (i < List.length arr)%nat -> nth i (setAt i x arr) d = x.
Proof.
  revert i. induction arr as [| y arr IH]; intros [| i] H; cbn in *;
    try lia; auto. apply IH. lia.
Qed.

Lemma nth_setAt_other i j x arr d :
  i <> j -> nth j (setAt i x arr) d = nth j arr d.
Proof.
  revert i j. induction arr as [| y arr IH]; intros [| i] [| j] H; cbn;
    try reflexivity; try congruence. apply IH. congruence.
Qed.

Lemma nth_error_setAt_other i j x arr :
  i <> j -> nth_error (setAt i x arr) j = nth_error arr j.
Proof.
  revert i j. induction arr as [| y arr IH]; intros [| i] [| j] H; cbn;
    try reflexivity; try congruence. apply IH. congruence.
Qed.

Lemma setAt_beyond i x arr : (List.length arr <= i)%nat -> setAt i x arr = arr.
Proof.
  revert i. induction arr as [| y arr IH]; intros [| i] H; cbn in *;
    try reflexivity; try lia. f_equal. apply IH. lia.
Qed.

(** ** The clamp [Math.max(lo, Math.min(hi, x))] *)

Lemma clamp_within lo hi x : lo <= hi -> lo <= Rmax lo (Rmin hi x) <= hi.
Proof.
  intros H. unfold Rmax, Rmin.
  destruct (Rle_dec hi x); destruct (Rle_dec lo _); lra.
Qed.

(** ** Inverse kinematics: one joint *)

(** A joint step either leaves the state as it is (the [continue]) or writes
    a clamped value at index [i] and nothing else. *)
Lemma ikJointStep_cases targetPos dims configs positions st i st' :
  ikJointStep targetPos dims configs positions st i = Some st' ->
  st' = st
  \/ exists cfg x y,
       nth_error configs i = Some cfg
       /\ newAngles st'
          = setAt i (Rmax (min cfg) (Rmin (max cfg) x))
              (setAt i y (newAngles st)).
Proof.
  unfold ikJointStep. intros H.
  destruct (Rlt_dec _ 0.0001).
  - left. injection H as <-. reflexivity.
  - destruct (nth_error configs i) as [cfg |] eqn:Hcfg; [| discriminate].
    right. exists cfg. eexists. eexists. split; [reflexivity |].
    match type of H with
    | Some (mkIKState _ ?e) = Some _ => set (e' := e) in H; clearbody e'
    end.
    injection H as <-. reflexivity.
Qed.

Lemma ikJointStep_total targetPos dims configs positions st i :
  (i < List.length configs)%nat ->
  exists st', ikJointStep targetPos dims configs positions st i = Some st'.
Proof.
  intros Hi. unfold ikJointStep.
  destruct (Rlt_dec _ 0.0001); [eauto |].
  destruct (nth_error configs i) eqn:Hcfg; [eauto |].
  apply nth_error_None in Hcfg. lia.
Qed.

Lemma ikJointStep_length targetPos dims configs positions st i st' :
  ikJointStep targetPos dims configs positions st i = Some st' ->
  List.length (newAngles st') = List.length (newAngles st).
Proof.
  intros H. apply ikJointStep_cases in H.
  destruct H as [-> | (cfg & x & y & _ & ->)]; [reflexivity |].
  rewrite !setAt_length. reflexivity.
Qed.

(** Only index [i] can change. *)
Lemma ikJointStep_frame targetPos dims configs positions st i st' j :
  ikJointStep targetPos dims configs positions st i = Some st' ->
  i <> j ->
  nth_error (newAngles st') j = nth_error (newAngles st) j.
Proof.
  intros H Hij. apply ikJointStep_cases in H.
  destruct H as [-> | (cfg & x & y & _ & ->)]; [reflexivity |].
  rewrite !nth_error_setAt_other by assumption. reflexivity.
Qed.

Lemma nth_of_nth_error (l l' : list R) j :
  nth_error l j = nth_error l' j -> nth j l 0 = nth j l' 0.
Proof.
  intros H.
  destruct (nth_error l j) as [a |] eqn:Ha.
  - symmetry in H. apply (nth_error_nth _ _ 0) in Ha, H. congruence.
  - symmetry in H. apply nth_error_None in Ha, H.
    rewrite !nth_overflow by assumption. reflexivity.
Qed.

(** A joint step keeps within its limits any joint that was within them. *)
Lemma ikJointStep_within targetPos dims configs positions st i st' j :
  (forall cfg, In cfg configs -> min cfg <= max cfg) ->
  ikJointStep targetPos dims configs positions st i = Some st' ->
  jointWithin configs (newAngles st) j ->
  jointWithin configs (newAngles st') j.
Proof.
  intros Hcfgs H Hj.
  destruct (Nat.eq_dec i j) as [<- | Hne].
  - apply ikJointStep_cases in H.
    destruct H as [-> | (cfg & x & y & Hcfg & Hst)]; [assumption |].
    intros cfg' Hcfg'. rewrite Hcfg in Hcfg'. injection Hcfg' as <-.
    rewrite Hst.
    destruct (Nat.lt_ge_cases i (List.length (newAngles st))) as [Hlt | Hge].
    + rewrite nth_setAt_same by (rewrite setAt_length; assumption).
      apply clamp_within, Hcfgs. eapply nth_error_In; eassumption.
    + rewrite !setAt_beyond by (rewrite ?setAt_length; assumption).
      apply Hj. assumption.
  - intros cfg Hcfg.
    rewrite (nth_of_nth_error _ _ _
               (ikJointStep_frame _ _ _ _ _ _ _ j H Hne)).
    apply Hj. assumption.
Qed.

(** ** Inverse kinematics: sweeps and the outer loop *)

Section Solver.

Variable targetPos : Vector3.
Variable dims : RobotDimensions.
Variable configs : list JointConfig.

Lemma ikSweep_total positions js st :
  (forall i, In i js -> (i < List.length configs)%nat) ->
  exists st', ikSweep targetPos dims configs positions js st = Some st'.
Proof.
  revert st. induction js as [| i js IH]; intros st Hjs; cbn [ikSweep].
  - eauto.
  - destruct (ikJointStep_total targetPos dims configs positions st i)
      as [st1 ->]; [apply Hjs; left; reflexivity |].
    apply IH. intros k Hk. apply Hjs. right. assumption.
Qed.

Lemma ikSweep_length positions js st st' :
  ikSweep targetPos dims configs positions js st = Some st' ->
  List.length (newAngles st') = List.length (newAngles st).
Proof.
  revert st. induction js as [| i js IH]; intros st H; cbn [ikSweep] in H.
  - injection H as <-. reflexivity.
  - destruct (ikJointStep _ _ _ _ st i) as [st1 |] eqn:H1; [| discriminate].
    rewrite (IH _ H). eapply ikJointStep_length; eassumption.
Qed.

(** A sweep leaves alone every index it does not visit. *)
Lemma ikSweep_frame positions js st st' j :
  ikSweep targetPos dims configs positions js st = Some st' ->
  ~ In j js ->
  nth_error (newAngles st') j = nth_error (newAngles st) j.
Proof.
  revert st. induction js as [| i js IH]; intros st H Hj; cbn [ikSweep] in H.
  - injection H as <-. reflexivity.
  - destruct (ikJointStep _ _ _ _ st i) as [st1 |] eqn:H1; [| discriminate].
    rewrite (IH _ H) by (intros Hin; apply Hj; right; assumption).
    eapply ikJointStep_frame; [eassumption |].
    intros ->. apply Hj. left. reflexivity.
Qed.

Hypothesis limits_ordered : forall cfg, In cfg configs -> min cfg <= max cfg.

Lemma ikSweep_within positions js st st' j :
  ikSweep targetPos dims configs positions js st = Some st' ->
  jointWithin configs (newAngles st) j ->
  jointWithin configs (newAngles st') j.
Proof.
  revert st. induction js as [| i js IH]; intros st H Hj; cbn [ikSweep] in H.
  - injection H as <-. assumption.
  - destruct (ikJointStep _ _ _ _ st i) as [st1 |] eqn:H1; [| discriminate].
    apply (IH _ H). eapply ikJointStep_within; eassumption.
Qed.

Lemma ikSweepTrace_within positions js st j :
  jointWithin configs (newAngles st) j ->
  forall v, In v (ikSweepTrace targetPos dims configs positions js st) ->
            jointWithin configs v j.
Proof.
  revert st. induction js as [| i js IH]; intros st Hj v Hv; cbn [ikSweepTrace] in Hv.
  - contradiction.
  - destruct (ikJointStep _ _ _ _ st i) as [st1 |] eqn:H1; [| contradiction].
    assert (H1j : jointWithin configs (newAngles st1) j)
      by (eapply ikJointStep_within; eassumption).
    destruct Hv as [<- | Hv]; [assumption |].
    eapply IH; eassumption.
Qed.

Lemma ikPass_within angles angles' j :
  ikPass targetPos dims configs angles = Some angles' ->
  jointWithin configs angles j -> jointWithin configs angles' j.
Proof.
  unfold ikPass. intros H Hj.
  destruct (ikSweep _ _ _ _ _ _) as [st |] eqn:Hs; [| discriminate].
  injection H as <-. eapply ikSweep_within in Hs; eassumption.
Qed.

Lemma ikIterateTrace_within fuel angles j :
  jointWithin configs angles j ->
  forall v, In v (ikIterateTrace fuel targetPos dims configs angles) ->
            jointWithin configs v j.
Proof.
  revert angles. induction fuel as [| fuel IH]; intros angles Hj v Hv;
    cbn [ikIterateTrace] in Hv; [contradiction |].
  destruct (Rlt_dec _ threshold); [contradiction |].
  apply in_app_or in Hv. destruct Hv as [Hv | Hv].
  - eapply ikSweepTrace_within; [| eassumption]. assumption.
  - destruct (ikPass targetPos dims configs angles) as [angles' |] eqn:Hp;
      [| contradiction].
    eapply IH; [| eassumption]. eapply ikPass_within; eassumption.
Qed.

End Solver.

Lemma ikPass_total targetPos dims configs angles :
  (6 <= List.length configs)%nat ->
  exists angles', ikPass targetPos dims configs angles = Some angles'.
Proof.
  intros Hlen. unfold ikPass.
  destruct (ikSweep_total targetPos dims configs (computeFK angles dims)
              sweepJoints (mkIKState angles (nth 7 (computeFK angles dims) zero)))
    as [st ->]; [| eauto].
  intros i Hi. unfold sweepJoints in Hi. cbn in Hi.
  repeat (destruct Hi as [<- | Hi]; [lia |]). contradiction.
Qed.

Lemma ikPass_length targetPos dims configs angles angles' :
  ikPass targetPos dims configs angles = Some angles' ->
  List.length angles' = List.length angles.
Proof.
  unfold ikPass. intros H.
  destruct (ikSweep _ _ _ _ _ _) as [st |] eqn:Hs; [| discriminate].
  injection H as <-. apply ikSweep_length in Hs. assumption.
Qed.

(** A backward pass visits joints 5 to 0 and so never writes index 6. *)
Lemma ikPass_keeps_wrist_roll targetPos dims configs angles angles' :
  ikPass targetPos dims configs angles = Some angles' ->
  nth_error angles' 6 = nth_error angles 6.
Proof.
  unfold ikPass. intros H.
  destruct (ikSweep _ _ _ _ _ _) as [st |] eqn:Hs; [| discriminate].
  injection H as <-.
  apply (ikSweep_frame _ _ _ _ _ _ _ 6%nat) in Hs; [assumption |].
  unfold sweepJoints. cbn. intuition lia.
Qed.

(** The outer loop is a run of at most [fuel] backward passes; it stops
    before the budget is spent only on the early exit. *)
Lemma ikIterate_passes fuel targetPos dims configs angles :
  (6 <= List.length configs)%nat ->
  exists k result,
    (k <= fuel)%nat
    /\ ikIterate fuel targetPos dims configs angles = Some result
    /\ ikPasses k targetPos dims configs angles = Some result
    /\ ((k < fuel)%nat ->
        distanceTo (tipOf (computeFK result dims)) targetPos < threshold).
Proof.
  intros Hlen. revert angles.
  induction fuel as [| fuel IH]; intros angles; cbn [ikIterate].
  - exists 0%nat, angles. repeat split; [lia |]. lia.
  - destruct (Rlt_dec _ threshold) as [Hnear | Hfar].
    + exists 0%nat, angles. repeat split; [lia |]. intros _. exact Hnear.
    + destruct (ikPass_total targetPos dims configs angles Hlen)
        as [angles' Hp].
      destruct (IH angles') as (k & result & Hk & Hit & Hps & Hex).
      exists (S k), result. rewrite Hp. cbn [ikPasses]. rewrite Hp.
      repeat split; try assumption; [lia |]. intros Hlt. apply Hex. lia.
Qed.

Lemma ikPasses_length k targetPos dims configs angles result :
  ikPasses k targetPos dims configs angles = Some result ->
  List.length result = List.length angles.
Proof.
  revert angles. induction k as [| k IH]; intros angles H; cbn [ikPasses] in H.
  - injection H as <-. reflexivity.
  - destruct (ikPass _ _ _ angles) as [angles' |] eqn:Hp; [| discriminate].
    rewrite (IH _ H). eapply ikPass_length; eassumption.
Qed.

Lemma ikPasses_keeps_wrist_roll k targetPos dims configs angles result :
  ikPasses k targetPos dims configs angles = Some result ->
  nth_error result 6 = nth_error angles 6.
Proof.
  revert angles. induction k as [| k IH]; intros angles H; cbn [ikPasses] in H.
  - injection H as <-. reflexivity.
  - destruct (ikPass _ _ _ angles) as [angles' |] eqn:Hp; [| discriminate].
    rewrite (IH _ H). eapply ikPass_keeps_wrist_roll; eassumption.
Qed.

(** The early exit: a tip already within the threshold ends the call at
    once, with the copy of the input angles. *)
Lemma solveIK_early_exit targetPos angles dims configs :
  distanceTo (tipOf (computeFK angles dims)) targetPos < threshold ->
  solveIK targetPos angles dims configs = Some angles.
Proof.
  intros H. unfold solveIK, maxIterations. cbn [ikIterate].
  unfold tipOf in H.
  destruct (Rlt_dec _ threshold); [reflexivity | contradiction].
Qed.

(** The result of a call is one of the vectors the working copy held. *)
Lemma ikSweep_in_trace targetPos dims configs positions js st st' :
  ikSweep targetPos dims configs positions js st = Some st' ->
  In (newAngles st')
     (newAngles st :: ikSweepTrace targetPos dims configs positions js st).
Proof.
  revert st. induction js as [| i js IH]; intros st H; cbn [ikSweep ikSweepTrace] in H |- *.
  - left. injection H as <-. reflexivity.
  - destruct (ikJointStep _ _ _ _ st i) as [st1 |] eqn:H1; [| discriminate].
    right. apply IH. assumption.
Qed.

Lemma ikIterate_in_trace fuel targetPos dims configs angles result :
  ikIterate fuel targetPos dims configs angles = Some result ->
  In result (angles :: ikIterateTrace fuel targetPos dims configs angles).
Proof.
  revert angles. induction fuel as [| fuel IH]; intros angles H;
    cbn [ikIterate ikIterateTrace] in *.
  - left. congruence.
  - destruct (Rlt_dec _ threshold); [left; congruence |].
    destruct (ikPass targetPos dims configs angles) as [angles' |] eqn:Hp;
      [| discriminate].
    apply IH in H. unfold ikPass in Hp.
    destruct (ikSweep _ _ _ _ _ _) as [st |] eqn:Hs; [| discriminate].
    injection Hp as Hp. apply ikSweep_in_trace in Hs.
    rewrite Hp in Hs. cbn [newAngles] in Hs.
    destruct H as [<- | H].
    + destruct Hs as [Hs | Hs]; [left; assumption |].
      right. apply in_or_app. left. assumption.
    + right. apply in_or_app. right. assumption.
Qed.

Lemma DEFAULT_JOINTS_ordered :
  forall cfg, In cfg DEFAULT_JOINTS -> min cfg <= max cfg.
Proof.
  pose proof PI_RGT_0 as Hpi.
  intros cfg Hin. unfold DEFAULT_JOINTS in Hin. cbn [In] in Hin.
  repeat (destruct Hin as [<- | Hin]; [cbn [min max]; lra |]).
  contradiction.
Qed.

(** C2, as stated, fails: a wrist roll of 9 rad is outside the default
    range [-2 pi, 2 pi], the target is the tip itself, and the call returns
    the input vector, wrist roll included. *)
Lemma C2_returned_angle_outside_limits :
  let angles := [0; 0; 0; 0; 0; 0; 9] in
  let target := tipOf (computeFK angles DEFAULT_DIMENSIONS) in
  List.length angles = 7%nat
  /\ List.length DEFAULT_JOINTS = 7%nat
  /\ (forall cfg, In cfg DEFAULT_JOINTS -> min cfg <= max cfg)
  /\ exists result,
       solveIK target angles DEFAULT_DIMENSIONS DEFAULT_JOINTS = Some result
       /\ ~ jointWithin DEFAULT_JOINTS result 6.
Proof.
  cbv zeta. pose proof PI_4 as Hpi4.
  split; [reflexivity |]. split; [reflexivity |].
  split; [exact DEFAULT_JOINTS_ordered |].
  exists [0; 0; 0; 0; 0; 0; 9]. split.
  - apply solveIK_early_exit. rewrite distanceTo_self. unfold threshold. lra.
  - intros H. specialize (H _ eq_refl). unfold withinLimit in H.
    cbn in H. lra.
Qed.

(** C2 (amended): with seven angles, seven limit entries and min <= max for
    each, a joint whose input angle lies within its range stays within it in
    every vector the working copy holds after a joint step, and in the
    vector returned; in particular an input that respects all limits gives
    a result that respects them. *)
Theorem C2_limits_preserved (targetPos : Vector3) (angles : list R)
    (dims : RobotDimensions) (configs : list JointConfig) (i : nat) :
  List.length angles = 7%nat ->
  List.length configs = 7%nat ->
  (forall cfg, In cfg configs -> min cfg <= max cfg) ->
  jointWithin configs angles i ->
  exists result,
    solveIK targetPos angles dims configs = Some result
    /\ In result (solveIKTrace targetPos angles dims configs)
    /\ forall v, In v (solveIKTrace targetPos angles dims configs) ->
                 jointWithin configs v i.
Proof.
  intros Hla Hlc Hord Hi.
  destruct (ikIterate_passes maxIterations targetPos dims configs angles)
    as (k & result & _ & Hres & _); [lia |].
  exists result. split; [exact Hres |]. split.
  - apply ikIterate_in_trace. exact Hres.
  - intros v [<- | Hv]; [assumption |].
    eapply ikIterateTrace_within; eassumption.
Qed.

(** The pose and target the application starts from. *)
Lemma defaultAngles_within i : jointWithin DEFAULT_JOINTS defaultAngles i.
Proof.
  pose proof PI_RGT_0 as Hpi.
  intros cfg Hcfg. unfold withinLimit.
  do 7 (destruct i as [| i];
        [injection Hcfg as <-; cbn; lra |]).
  destruct i; discriminate Hcfg.
Qed.

Lemma C2_limits_preserved_witness :
  exists result,
    solveIK (mkVector3 0 1.5 1.5) defaultAngles DEFAULT_DIMENSIONS DEFAULT_JOINTS
    = Some result
    /\ In result (solveIKTrace (mkVector3 0 1.5 1.5) defaultAngles
                    DEFAULT_DIMENSIONS DEFAULT_JOINTS)
    /\ forall v, In v (solveIKTrace (mkVector3 0 1.5 1.5) defaultAngles
                         DEFAULT_DIMENSIONS DEFAULT_JOINTS) ->
                 jointWithin DEFAULT_JOINTS v 5.
Proof.
  apply (C2_limits_preserved (mkVector3 0 1.5 1.5) defaultAngles
           DEFAULT_DIMENSIONS DEFAULT_JOINTS 5).
  - reflexivity.
  - reflexivity.
  - exact DEFAULT_JOINTS_ordered.
  - exact (defaultAngles_within 5).
Defined.

Lemma distanceTo_lt a b r :
  0 <= r -> distanceToSquared a b < r * r -> distanceTo a b < r.
Proof.
  intros Hr H. unfold distanceTo.
  rewrite <- (sqrt_square r Hr).
  apply sqrt_lt_1_alt. split; [| assumption].
  unfold distanceToSquared. cbv zeta. apply sqrt_sum_squares_nonneg.
Qed.

(** C4: when the tip computed from the input angles is within 0.01 of the
    target, the call returns the input vector; with the tip itself as the
    target it is the identity on the angles. *)
Theorem C4_early_exit_identity (targetPos : Vector3) (angles : list R)
    (dims : RobotDimensions) (configs : list JointConfig) :
  List.length angles = 7%nat ->
  (distanceTo (tipOf (computeFK angles dims)) targetPos < 0.01 ->
   solveIK targetPos angles dims configs = Some angles)
  /\ solveIK (tipOf (computeFK angles dims)) angles dims configs = Some angles.
Proof.
  intros _. split.
  - apply solveIK_early_exit.
  - apply solveIK_early_exit. rewrite distanceTo_self. unfold threshold. lra.
Qed.

Lemma C4_early_exit_identity_witness :
  solveIK (mkVector3 0 0.5 3.005) zeroAngles DEFAULT_DIMENSIONS DEFAULT_JOINTS
  = Some zeroAngles
  /\ solveIK (tipOf (computeFK zeroAngles DEFAULT_DIMENSIONS)) zeroAngles
       DEFAULT_DIMENSIONS DEFAULT_JOINTS
     = Some zeroAngles.
Proof.
  destruct (C4_early_exit_identity (mkVector3 0 0.5 3.005) zeroAngles
              DEFAULT_DIMENSIONS DEFAULT_JOINTS eq_refl) as [Hnear Hself].
  split; [apply Hnear | exact Hself].
  apply distanceTo_lt; [lra |].
  rewrite computeFK_zero. unfold tipOf, distanceToSquared. cbn. lra.
Defined.

(** C7: with seven limit entries the call returns an angle vector, never the
    exception; the result is what [k] backward passes over joints 5 to 0
    produce, for some [k] of at most 5, and has the seven entries of the
    input. *)
Theorem C7_solveIK_terminates (targetPos : Vector3) (angles : list R)
    (dims : RobotDimensions) (configs : list JointConfig) :
  List.length angles = 7%nat ->
  List.length configs = 7%nat ->
  exists k result,
    (k <= 5)%nat
    /\ solveIK targetPos angles dims configs = Some result
    /\ ikPasses k targetPos dims configs angles = Some result
    /\ List.length result = 7%nat.
Proof.
  intros Hla Hlc.
  destruct (ikIterate_passes maxIterations targetPos dims configs angles)
    as (k & result & Hk & Hres & Hps & _); [lia |].
  exists k, result. repeat split; try assumption.
  rewrite (ikPasses_length _ _ _ _ _ _ Hps). assumption.
Qed.

Lemma C7_solveIK_terminates_witness :
  exists k result,
    (k <= 5)%nat
    /\ solveIK (mkVector3 0 1.5 1.5) defaultAngles DEFAULT_DIMENSIONS
         DEFAULT_JOINTS = Some result
    /\ ikPasses k (mkVector3 0 1.5 1.5) DEFAULT_DIMENSIONS DEFAULT_JOINTS
         defaultAngles = Some result
    /\ List.length result = 7%nat.
Proof.
  apply (C7_solveIK_terminates (mkVector3 0 1.5 1.5) defaultAngles
           DEFAULT_DIMENSIONS DEFAULT_JOINTS); reflexivity.
Defined.

(** C8: the angle at index 6 (wrist roll) of the vector returned equals the
    input angle at index 6. *)
Theorem C8_wrist_roll_unchanged (targetPos : Vector3) (angles : list R)
    (dims : RobotDimensions) (configs : list JointConfig) :
  List.length angles = 7%nat ->
  List.length configs = 7%nat ->
  exists result,
    solveIK targetPos angles dims configs = Some result
    /\ nth_error result 6 = nth_error angles 6.
Proof.
  intros Hla Hlc.
  destruct (ikIterate_passes maxIterations targetPos dims configs angles)
    as (k & result & _ & Hres & Hps & _); [lia |].
  exists result. split; [exact Hres |].
  eapply ikPasses_keeps_wrist_roll; eassumption.
Qed.

Lemma C8_wrist_roll_unchanged_witness :
  exists result,
    solveIK (mkVector3 0 1.5 1.5) defaultAngles DEFAULT_DIMENSIONS
      DEFAULT_JOINTS = Some result
    /\ nth_error result 6 = nth_error defaultAngles 6.
Proof.
  apply (C8_wrist_roll_unchanged (mkVector3 0 1.5 1.5) defaultAngles
           DEFAULT_DIMENSIONS DEFAULT_JOINTS); reflexivity.
Defined.

(** ** Workspace generator *)

Lemma randAngles_length configs rnd k :
  List.length (randAngles configs rnd k) = List.length configs.
Proof.
  revert k. induction configs as [| j rest IH]; intros k; cbn; auto.
Qed.

(** A drawn angle lies in the range of its joint. *)
Lemma randAngles_within configs rnd k j cfg :
  nth_error configs j = Some cfg ->
  min cfg <= max cfg ->
  0 <= rnd (k + j)%nat < 1 ->
  withinLimit cfg (nth j (randAngles configs rnd k) 0).
Proof.
  revert k j. induction configs as [| c rest IH]; intros k [| j] Hcfg Hord Hr;
    cbn in Hcfg; try discriminate.
  - injection Hcfg as ->. cbn. rewrite Nat.add_0_r in Hr.
    unfold withinLimit. nra.
  - cbn [randAngles nth]. apply IH; try assumption.
    replace (S k + j)%nat with (k + S j)%nat by lia. assumption.
Qed.

Lemma Vector3_eta v : mkVector3 (vx v) (vy v) (vz v) = v.
Proof. destruct v. reflexivity. Qed.

Lemma pointsOf_push points x y z :
  List.length points = (3 * List.length (pointsOf points))%nat ->
  pointsOf (points ++ [x; y; z]) = pointsOf points ++ [mkVector3 x y z].
Proof.
  intros H.
  remember (List.length (pointsOf points)) as n eqn:Hn.
  revert points H Hn. induction n as [| n IH]; intros points H Hn.
  - destruct points; [reflexivity | discriminate H].
  - destruct points as [| a [| b [| c rest]]]; try discriminate Hn;
      try (cbn [List.length] in H; lia).
    cbn [pointsOf List.length] in Hn, H.
    cbn [app pointsOf]. f_equal. apply IH; lia.
Qed.

(** The loop appends, sample by sample, the tip of each sample that passes
    the check and nothing for the others. *)
Lemma workspaceLoop_points samples dims configs rnd first points :
  List.length points = (3 * List.length (pointsOf points))%nat ->
  let out :=
    workspaceLoop samples dims configs rnd (first * List.length configs) points in
  pointsOf out
  = pointsOf points
    ++ map (sampleTip dims configs rnd)
         (filter (sampleValid dims configs rnd) (seq first samples))
  /\ List.length out = (3 * List.length (pointsOf out))%nat.
Proof.
  cbv zeta. revert first points.
  induction samples as [| samples IH]; intros first points Hflat.
  - cbn [workspaceLoop seq filter map]. rewrite app_nil_r. auto.
  - cbn [workspaceLoop seq filter].
    replace (first * List.length configs + List.length configs)%nat
      with (S first * List.length configs)%nat by lia.
    fold (sampleAngles configs rnd first).
    unfold sampleValid at 1.
    destruct (negb (checkSelfCollision
                      (computeFK (sampleAngles configs rnd first) dims))).
    + fold (tipOf (computeFK (sampleAngles configs rnd first) dims)).
      fold (sampleTip dims configs rnd first).
      set (tip := sampleTip dims configs rnd first).
      pose proof (pointsOf_push points (vx tip) (vy tip) (vz tip) Hflat)
        as Hpush.
      rewrite Vector3_eta in Hpush.
      assert (Hlen : List.length (points ++ [vx tip; vy tip; vz tip])
                     = (3 * List.length
                              (pointsOf (points ++ [vx tip; vy tip; vz tip])))%nat).
      { rewrite Hpush, !length_app, Hflat. cbn [List.length]. lia. }
      destruct (IH (S first) _ Hlen) as [IH1 IH2].
      split; [| exact IH2].
      rewrite IH1, Hpush, <- app_assoc. reflexivity.
    + apply IH. assumption.
Qed.

Lemma generateWorkspace_points samples dims configs rnd :
  pointsOf (generateWorkspace samples dims configs rnd)
  = map (sampleTip dims configs rnd)
      (filter (sampleValid dims configs rnd) (seq 0 samples))
  /\ List.length (generateWorkspace samples dims configs rnd)
     = (3 * List.length (pointsOf (generateWorkspace samples dims configs rnd)))%nat.
Proof.
  unfold generateWorkspace.
  exact (workspaceLoop_points samples dims configs rnd 0 [] eq_refl).
Qed.

Lemma filter_length_le {A} (f : A -> bool) l :
  (List.length (filter f l) <= List.length l)%nat.
Proof.
  induction l as [| x l IH]; cbn; [lia |]. destruct (f x); cbn; lia.
Qed.

(** A drawn angle lies between the two bounds of its joint, in whichever
    order they are: [min + r * (max - min)] with [0 <= r < 1] runs from [min]
    towards [max]. *)
Lemma randAngles_between configs rnd k j cfg :
  nth_error configs j = Some cfg ->
  0 <= rnd (k + j)%nat < 1 ->
  betweenLimits cfg (nth j (randAngles configs rnd k) 0).
Proof.
  revert k j. induction configs as [| c rest IH]; intros k [| j] Hcfg Hr;
    cbn in Hcfg; try discriminate.
  - injection Hcfg as ->. cbn. rewrite Nat.add_0_r in Hr.
    unfold betweenLimits, Rmin, Rmax.
    destruct (Rle_dec (min cfg) (max cfg)); nra.
  - cbn [randAngles nth]. apply IH; try assumption.
    replace (S k + j)%nat with (k + S j)%nat by lia. assumption.
Qed.

(** Between ordered bounds is within the range. *)
Lemma betweenLimits_ordered cfg angle :
  min cfg <= max cfg -> betweenLimits cfg angle -> withinLimit cfg angle.
Proof.
  unfold betweenLimits, withinLimit. intros Hord.
  rewrite Rmin_left, Rmax_right by exact Hord. tauto.
Qed.

(** C6 (amended): for every seven-entry limit configuration, with the bounds
    of a joint in either order, the generator emits at most [samples] points;
    they are, in order, the tips of the samples that pass the collision
    check, each computed by [computeFK] from an angle vector whose seven
    angles lie between their joint's [min] and [max] (within [min, max] for
    every joint when the bounds are ordered); a sample that fails the check
    adds no point. *)
Theorem C6_workspace_points_between_limits (samples : nat)
    (dims : RobotDimensions) (configs : list JointConfig) (rnd : nat -> R) :
  List.length configs = 7%nat ->
  (forall k, 0 <= rnd k < 1) ->
  let out := generateWorkspace samples dims configs rnd in
  List.length out = (3 * List.length (pointsOf out))%nat
  /\ (0 <= List.length (pointsOf out) <= samples)%nat
  /\ pointsOf out
     = map (sampleTip dims configs rnd)
         (filter (sampleValid dims configs rnd) (seq 0 samples))
  /\ forall p, In p (pointsOf out) ->
       exists angles,
         List.length angles = 7%nat
         /\ (forall j, jointBetween configs angles j)
         /\ ((forall cfg, In cfg configs -> min cfg <= max cfg) ->
             forall j, jointWithin configs angles j)
         /\ checkSelfCollision (computeFK angles dims) = false
         /\ p = tipOf (computeFK angles dims).
Proof.
  intros Hlen Hrnd. cbv zeta.
  destruct (generateWorkspace_points samples dims configs rnd) as [Hpts Hflat].
  split; [exact Hflat |]. split.
  - rewrite Hpts, length_map. split; [lia |].
    eapply Nat.le_trans; [apply filter_length_le |].
    rewrite length_seq. lia.
  - split; [exact Hpts |].
    intros p Hp. rewrite Hpts in Hp.
    apply in_map_iff in Hp. destruct Hp as (i & <- & Hi).
    apply filter_In in Hi. destruct Hi as [_ Hvalid].
    assert (Hbetween : forall j, jointBetween configs (sampleAngles configs rnd i) j).
    { intros j cfg Hcfg. unfold sampleAngles.
      apply randAngles_between; [assumption | apply Hrnd]. }
    exists (sampleAngles configs rnd i). split.
    + unfold sampleAngles. rewrite randAngles_length. assumption.
    + split; [exact Hbetween |]. split.
      * intros Hord j cfg Hcfg. apply betweenLimits_ordered.
        -- apply Hord. eapply nth_error_In; eassumption.
        -- apply Hbetween. assumption.
      * split; [| reflexivity].
        unfold sampleValid in Hvalid. apply negb_true_iff in Hvalid.
        assumption.
Qed.

(** A draw sequence in [0, 1) for the examples below. *)
Lemma half_is_a_draw : forall k : nat, 0 <= (fun _ : nat => 0.5) k < 1.
Proof. intros k. cbv beta. lra. Qed.

Lemma C6_workspace_points_between_limits_witness :
  let out :=
    generateWorkspace 3 DEFAULT_DIMENSIONS invertedRollLimits (fun _ => 0.5) in
  List.length out = (3 * List.length (pointsOf out))%nat
  /\ (0 <= List.length (pointsOf out) <= 3)%nat
  /\ pointsOf out
     = map (sampleTip DEFAULT_DIMENSIONS invertedRollLimits (fun _ => 0.5))
         (filter
            (sampleValid DEFAULT_DIMENSIONS invertedRollLimits (fun _ => 0.5))
            (seq 0 3))
  /\ forall p, In p (pointsOf out) ->
       exists angles,
         List.length angles = 7%nat
         /\ (forall j, jointBetween invertedRollLimits angles j)
         /\ ((forall cfg, In cfg invertedRollLimits -> min cfg <= max cfg) ->
             forall j, jointWithin invertedRollLimits angles j)
         /\ checkSelfCollision (computeFK angles DEFAULT_DIMENSIONS) = false
         /\ p = tipOf (computeFK angles DEFAULT_DIMENSIONS).
Proof.
  apply (C6_workspace_points_between_limits 3 DEFAULT_DIMENSIONS
           invertedRollLimits (fun _ => 0.5)).
  - reflexivity.
  - exact half_is_a_draw.
Defined.

(** A verdict of no collision means no position is below the floor buffer. *)
Lemma checkSelfCollision_false_floor positions p :
  checkSelfCollision positions = false ->
  In p positions -> FLOOR_LIMIT + 0.05 <= vy p.
Proof.
  unfold checkSelfCollision. intros H Hin.
  destruct (existsb _ positions) eqn:Hfloor; [discriminate |].
  rewrite existsb_false_iff in Hfloor.
  apply Rltb_false, Hfloor, Hin.
Qed.

Lemma tipOf_In angles dims : In (tipOf (computeFK angles dims)) (computeFK angles dims).
Proof. unfold tipOf. apply nth_In. rewrite computeFK_length. lia. Qed.

(** C10: every point the generator emits has a height of at least
    [FLOOR_LIMIT + 0.05]. *)
Theorem C10_workspace_points_above_floor (samples : nat)
    (dims : RobotDimensions) (configs : list JointConfig) (rnd : nat -> R)
    (p : Vector3) :
  List.length configs = 7%nat ->
  In p (pointsOf (generateWorkspace samples dims configs rnd)) ->
  FLOOR_LIMIT + 0.05 <= vy p.
Proof.
  intros _ Hp.
  rewrite (proj1 (generateWorkspace_points samples dims configs rnd)) in Hp.
  apply in_map_iff in Hp. destruct Hp as (i & <- & Hi).
  apply filter_In in Hi. destruct Hi as [_ Hvalid].
  unfold sampleValid in Hvalid. apply negb_true_iff in Hvalid.
  unfold sampleTip.
  eapply checkSelfCollision_false_floor; [exact Hvalid | apply tipOf_In].
Qed.

(** With the default limits, which are symmetric, a draw of one half for
    every joint gives the zero pose. *)
Lemma sampleAngles_half i :
  sampleAngles DEFAULT_JOINTS (fun _ => 0.5) i = zeroAngles.
Proof.
  unfold sampleAngles, DEFAULT_JOINTS, zeroAngles.
  cbn [randAngles min max].
  repeat (f_equal; try lra).
Qed.

Lemma C10_workspace_points_above_floor_witness :
  FLOOR_LIMIT + 0.05 <= vy (tipOf (computeFK zeroAngles DEFAULT_DIMENSIONS)).
Proof.
  apply (C10_workspace_points_above_floor 1 DEFAULT_DIMENSIONS DEFAULT_JOINTS
           (fun _ => 0.5)); [reflexivity |].
  rewrite (proj1 (generateWorkspace_points 1 DEFAULT_DIMENSIONS DEFAULT_JOINTS
                    (fun _ => 0.5))).
  cbn [seq filter]. unfold sampleValid.
  rewrite sampleAngles_half, zero_pose_collision_free.
  cbn [negb map]. unfold sampleTip. rewrite sampleAngles_half.
  left. reflexivity.
Defined.

(** ** A worked distance

    Two perpendicular segments, one unit apart at their midpoints: both
    quotients are taken (8 / 16 each) and the distance is 1. *)

Lemma segParamsS_example : segParamsS 4 0 4 (-2) 2 = mkSegParams 8 16 8 16.
Proof.
  unfold segParamsS.
  destruct (Rlt_dec (4 * 4 - 0 * 0) 1e-6); [exfalso; lra |].
  destruct (Rlt_dec (0 * 2 - 4 * -2) 0); [exfalso; lra |].
  destruct (Rgt_dec (0 * 2 - 4 * -2) (4 * 4 - 0 * 0)); [exfalso; unfold Rgt in *; lra |].
  f_equal; ring.
Qed.

Lemma segParamsT_example :
  segParamsT 4 0 (-2) (mkSegParams 8 16 8 16) = mkSegParams 8 16 8 16.
Proof.
  unfold segParamsT. cbn [tN tD].
  destruct (Rlt_dec 8 0); [exfalso; lra |].
  destruct (Rgt_dec 8 16); [exfalso; unfold Rgt in *; lra |].
  reflexivity.
Qed.

Example segParams_crossing :
  segParams (mkVector3 0 0 0) (mkVector3 2 0 0)
            (mkVector3 1 (-1) 1) (mkVector3 1 1 1)
  = mkSegParams 8 16 8 16.
Proof.
  unfold segParams, subVectors, dot.
  cbn [vx vy vz].
  replace ((2 - 0) * (2 - 0) + (0 - 0) * (0 - 0) + (0 - 0) * (0 - 0)) with 4 by ring.
  replace ((2 - 0) * (1 - 1) + (0 - 0) * (1 - -1) + (0 - 0) * (1 - 1)) with 0 by ring.
  replace ((1 - 1) * (1 - 1) + (1 - -1) * (1 - -1) + (1 - 1) * (1 - 1)) with 4 by ring.
  replace ((2 - 0) * (0 - 1) + (0 - 0) * (0 - -1) + (0 - 0) * (0 - 1)) with (-2) by ring.
  replace ((1 - 1) * (0 - 1) + (1 - -1) * (0 - -1) + (1 - 1) * (0 - 1)) with 2 by ring.
  rewrite segParamsS_example. apply segParamsT_example.
Qed.

Example distSegmentToSegment_crossing :
  distSegmentToSegment (mkVector3 0 0 0) (mkVector3 2 0 0)
                       (mkVector3 1 (-1) 1) (mkVector3 1 1 1) = 1.
Proof.
  unfold distSegmentToSegment. rewrite segParams_crossing.
  unfold segSc, segTc. cbn [sN sD tN tD].
  rewrite (Rabs_right 8) by lra.
  destruct (Rlt_dec 8 1e-6); [exfalso; lra |].
  unfold length, sub, subVectors, addVectors, multiplyScalar. cbn [vx vy vz].
  replace (_ + _ + _) with 1 by field.
  apply sqrt_1.
Qed.

(** ** A worked joint step

    From the zero pose with the target one unit above the wrist-pitch joint,
    the step for joint 5 finds the quarter turn between "forward" and "up"
    about the X axis, applies half of it, and the clamp leaves it alone. *)

Lemma normalize_unit v :
  vx v * vx v + vy v * vy v + vz v * vz v = 1 -> normalize v = v.
Proof.
  intros H. unfold normalize, length. rewrite H, sqrt_1.
  destruct (Req_dec_T 1 0) as [H0 | _]; [lra |].
  destruct v as [x y z]. unfold divideScalar, multiplyScalar. cbn [vx vy vz].
  f_equal; field.
Qed.

Lemma normalize_along_z z : 0 < z -> normalize (mkVector3 0 0 z) = mkVector3 0 0 1.
Proof.
  intros Hz. unfold normalize, length. cbn [vx vy vz].
  replace (0 * 0 + 0 * 0 + z * z) with (z * z) by ring.
  rewrite sqrt_square by lra.
  destruct (Req_dec_T z 0) as [H0 | _]; [lra |].
  unfold divideScalar, multiplyScalar. cbn [vx vy vz].
  f_equal; field; lra.
Qed.

Lemma ikRotation_X angle : ikRotation (mkVector3 1 0 0) angle = makeRotationX angle.
Proof. unfold ikRotation; cbn [vx vy]. destruct (Req_dec_T 1 0); [lra | reflexivity]. Qed.

Lemma ikRotation_Y angle : ikRotation (mkVector3 0 1 0) angle = makeRotationY angle.
Proof.
  unfold ikRotation; cbn [vx vy].
  destruct (Req_dec_T 0 0); [| lra].
  destruct (Req_dec_T 1 0); [lra | reflexivity].
Qed.

Lemma worldAxisOf_zero_wrist_pitch dims :
  worldAxisOf zeroAngles (getBoneOffsets dims) 5 = mkVector3 1 0 0.
Proof.
  unfold worldAxisOf, zeroAngles.
  cbn [fold_left seq nth JOINT_AXES getBoneOffsets Nat.add].
  rewrite ?ikRotation_X, ?ikRotation_Y.
  fk_collapse.
  unfold transformDirection, makeTranslation. cbn [n11 n12 n13 n21 n22 n23 n31 n32 n33 vx vy vz].
  replace (mkVector3 (1 * 1 + 0 * 0 + 0 * 0) (0 * 1 + 1 * 0 + 0 * 0)
             (0 * 1 + 0 * 0 + 1 * 0)) with (mkVector3 1 0 0)
    by (f_equal; ring).
  rewrite !(normalize_unit (mkVector3 1 0 0)) by (cbn [vx vy vz]; ring).
  reflexivity.
Qed.

Lemma ikRotAngle_forward_to_up :
  ikRotAngle (mkVector3 0 0 1) (mkVector3 0 1 0) (mkVector3 1 0 0)
  = - (PI / 2) * 0.5.
Proof.
  unfold ikRotAngle, sub, subVectors, multiplyScalar, dot, crossVectors.
  cbn [vx vy vz].
  replace (mkVector3 (0 - 1 * (0 * 1 + 0 * 0 + 1 * 0))
             (0 - 0 * (0 * 1 + 0 * 0 + 1 * 0))
             (1 - 0 * (0 * 1 + 0 * 0 + 1 * 0)))
    with (mkVector3 0 0 1) by (f_equal; ring).
  replace (mkVector3 (0 - 1 * (0 * 1 + 1 * 0 + 0 * 0))
             (1 - 0 * (0 * 1 + 1 * 0 + 0 * 0))
             (0 - 0 * (0 * 1 + 1 * 0 + 0 * 0)))
    with (mkVector3 0 1 0) by (f_equal; ring).
  rewrite (normalize_unit (mkVector3 0 0 1)) by (cbn [vx vy vz]; ring).
  rewrite (normalize_unit (mkVector3 0 1 0)) by (cbn [vx vy vz]; ring).
  cbn [vx vy vz].
  replace (0 * 0 + 0 * 1 + 1 * 0) with 0 by ring.
  replace (Rmax (-1) (Rmin 1 0)) with 0
    by (unfold Rmax, Rmin; destruct (Rle_dec 1 0); [lra |];
        destruct (Rle_dec (-1) 0); lra).
  rewrite acos_0.
  destruct (Rlt_dec _ 0) as [_ | Hn]; [reflexivity |].
  exfalso. apply Hn. lra.
Qed.

Lemma setAt_setAt i x y arr : setAt i x (setAt i y arr) = setAt i x arr.
Proof.
  revert i. induction arr as [| a arr IH]; intros [| i]; cbn [setAt];
    try reflexivity. f_equal. apply IH.
Qed.

(** What a joint step writes when it does not take the [continue]. *)
Lemma ikJointStep_update targetPos dims configs positions st i cfg toEnd toTarget :
  normalize (subVectors (endEffectorPos st) (nth i positions zero)) = toEnd ->
  normalize (subVectors targetPos (nth i positions zero)) = toTarget ->
  0.0001 <= Rabs (1 - Rmax (-1) (Rmin 1 (dot toEnd toTarget))) ->
  nth_error configs i = Some cfg ->
  (i < List.length (newAngles st))%nat ->
  exists st',
    ikJointStep targetPos dims configs positions st i = Some st'
    /\ newAngles st'
       = setAt i
           (Rmax (min cfg)
              (Rmin (max cfg)
                 (nth i (newAngles st) 0
                  + ikRotAngle toEnd toTarget
                      (worldAxisOf (newAngles st) (getBoneOffsets dims) i))))
           (newAngles st).
Proof.
  intros HtoEnd HtoTarget Hfar Hcfg Hi.
  unfold ikJointStep. rewrite HtoEnd, HtoTarget, Hcfg.
  destruct (Rlt_dec _ 0.0001) as [Hnear | _]; [lra |].
  eexists. split; [reflexivity |].
  cbn [newAngles]. rewrite nth_setAt_same by assumption.
  apply setAt_setAt.
Qed.

Example ikJointStep_wrist_pitch :
  let positions := computeFK zeroAngles DEFAULT_DIMENSIONS in
  exists st',
    ikJointStep (mkVector3 0 1.5 2.5) DEFAULT_DIMENSIONS DEFAULT_JOINTS
      positions (mkIKState zeroAngles (tipOf positions)) 5 = Some st'
    /\ newAngles st' = [0; 0; 0; 0; 0; - (PI / 4); 0].
Proof.
  cbv zeta. pose proof PI_RGT_0 as Hpi.
  destruct (ikJointStep_update (mkVector3 0 1.5 2.5) DEFAULT_DIMENSIONS
              DEFAULT_JOINTS (computeFK zeroAngles DEFAULT_DIMENSIONS)
              (mkIKState zeroAngles (tipOf (computeFK zeroAngles DEFAULT_DIMENSIONS)))
              5 (mkJointConfig 5 "J6: Wrist Pitch" (- PI / 1.2) (PI / 1.2)
                   AxisX (PI / 4) 0.04)
              (mkVector3 0 0 1) (mkVector3 0 1 0))
    as (st' & Hstep & Hangles).
  - rewrite computeFK_zero. unfold tipOf, subVectors, DEFAULT_DIMENSIONS.
    cbn [nth endEffectorPos vx vy vz baseHeight j1j2 j2j3 j3j4 j4j5 j5j6 j6j7 j7tip].
    cbv zeta.
    match goal with
    | |- normalize ?v = _ =>
        replace v with (mkVector3 0 0 0.5) by (f_equal; lra)
    end.
    apply normalize_along_z. lra.
  - rewrite computeFK_zero. unfold subVectors, DEFAULT_DIMENSIONS.
    cbn [nth vx vy vz baseHeight j1j2 j2j3 j3j4 j4j5 j5j6 j6j7 j7tip].
    cbv zeta.
    match goal with
    | |- normalize ?v = _ =>
        replace v with (mkVector3 0 1 0) by (f_equal; lra)
    end.
    apply normalize_unit. cbn [vx vy vz]. ring.
  - unfold dot. cbn [vx vy vz].
    replace (0 * 0 + 0 * 1 + 1 * 0) with 0 by ring.
    unfold Rmax, Rmin. destruct (Rle_dec 1 0); [lra |].
    destruct (Rle_dec (-1) 0); [| lra].
    rewrite Rabs_right; lra.
  - reflexivity.
  - cbn. lia.
  - exists st'. split; [exact Hstep |]. rewrite Hangles.
    cbn [newAngles min max]. rewrite worldAxisOf_zero_wrist_pitch.
    rewrite ikRotAngle_forward_to_up.
    unfold zeroAngles. cbn [nth setAt].
    do 6 f_equal.
    unfold Rmax, Rmin.
    destruct (Rle_dec (PI / 1.2) _); destruct (Rle_dec (- PI / 1.2) _); lra.
Qed.

(** ** A call outside the documented domain

    With an empty limit array the same joint step reads [configs[5].min] of
    a missing entry: the call ends in the exception instead of a result. *)

Lemma distanceTo_ge a b r :
  0 <= r -> r * r <= distanceToSquared a b -> ~ distanceTo a b < r.
Proof.
  intros Hr H Hlt. unfold distanceTo in Hlt.
  assert (Hs : sqrt (r * r) <= sqrt (distanceToSquared a b))
    by (apply sqrt_le_1_alt; assumption).
  rewrite sqrt_square in Hs by assumption. lra.
Qed.

Example solveIK_without_limits :
  solveIK (mkVector3 0 1.5 2.5) zeroAngles DEFAULT_DIMENSIONS [] = None.
Proof.
  unfold solveIK, maxIterations. cbn [ikIterate].
  destruct (Rlt_dec _ threshold) as [Hnear | _].
  - exfalso. revert Hnear. apply distanceTo_ge; [unfold threshold; lra |].
    rewrite computeFK_zero. unfold distanceToSquared, threshold, DEFAULT_DIMENSIONS.
    cbn [nth vx vy vz baseHeight j1j2 j2j3 j3j4 j4j5 j5j6 j6j7 j7tip].
    cbv zeta. nra.
  - unfold ikPass, sweepJoints. cbn [ikSweep].
    replace (ikJointStep (mkVector3 0 1.5 2.5) DEFAULT_DIMENSIONS []
               (computeFK zeroAngles DEFAULT_DIMENSIONS)
               (mkIKState zeroAngles
                  (nth 7 (computeFK zeroAngles DEFAULT_DIMENSIONS) zero)) 5)
      with (@None IKState); [reflexivity |].
    symmetry. unfold ikJointStep. cbn [nth_error].
    destruct (Rlt_dec _ 0.0001) as [Hskip | _]; [| reflexivity].
    exfalso. revert Hskip. apply Rle_not_lt.
    rewrite computeFK_zero. unfold subVectors, DEFAULT_DIMENSIONS.
    cbn [nth endEffectorPos vx vy vz
           baseHeight j1j2 j2j3 j3j4 j4j5 j5j6 j6j7 j7tip].
    cbv zeta.
    match goal with
    | |- context [dot (normalize ?v) (normalize ?w)] =>
        replace v with (mkVector3 0 0 0.5) by (f_equal; lra);
        replace w with (mkVector3 0 1 0) by (f_equal; lra)
    end.
    rewrite normalize_along_z by lra.
    rewrite (normalize_unit (mkVector3 0 1 0)) by (cbn [vx vy vz]; ring).
    unfold dot. cbn [vx vy vz].
    replace (0 * 0 + 0 * 1 + 1 * 0) with 0 by ring.
    unfold Rmax, Rmin. destruct (Rle_dec 1 0); [lra |].
    destruct (Rle_dec (-1) 0); [| lra].
    rewrite Rabs_right; lra.
Qed.

(** * Further properties of the engine *)

(** ** Frames of the forward kinematics *)

Lemma computeFK_frames angles dims :
  computeFK angles dims
  = map (fun k => setFromMatrixPosition (fkFrame angles (getBoneOffsets dims) k))
        (seq 0 8).
Proof.
  unfold computeFK.
  cbn [fold_left seq fkStep fst snd app map fkFrame].
  reflexivity.
Qed.

Lemma computeFK_nth angles dims k :
  (k < 8)%nat ->
  nth k (computeFK angles dims) zero
  = setFromMatrixPosition (fkFrame angles (getBoneOffsets dims) k).
Proof.
  intros Hk. rewrite computeFK_frames.
  do 8 (destruct k as [| k]; [reflexivity |]). lia.
Qed.

(** A frame only reads the angles of the joints before it. *)
Lemma fkFrame_prefix a b offsets k :
  (forall j, (j < k)%nat -> nth j a 0 = nth j b 0) ->
  fkFrame a offsets k = fkFrame b offsets k.
Proof.
  induction k as [| k IH]; intros H; cbn [fkFrame]; [reflexivity |].
  rewrite IH by (intros j Hj; apply H; lia).
  rewrite (H k) by lia. reflexivity.
Qed.

(** X1: changing the angle of joint [k] moves none of the positions 0 to [k]
    (position [k] is the joint's own pivot). *)
Theorem X1_joint_moves_only_later_positions (angles : list R)
    (dims : RobotDimensions) (k i : nat) (x : R) :
  (i <= k)%nat -> (i < 8)%nat ->
  nth i (computeFK (setAt k x angles) dims) zero
  = nth i (computeFK angles dims) zero.
Proof.
  intros Hik Hi. rewrite !computeFK_nth by assumption.
  f_equal. apply fkFrame_prefix.
  intros j Hj. apply nth_setAt_other. lia.
Qed.

Lemma X1_joint_moves_only_later_positions_witness :
  nth 5 (computeFK (setAt 5 1 defaultAngles) DEFAULT_DIMENSIONS) zero
  = nth 5 (computeFK defaultAngles DEFAULT_DIMENSIONS) zero.
Proof.
  apply (X1_joint_moves_only_later_positions defaultAngles DEFAULT_DIMENSIONS
           5 5 1); lia.
Defined.

(** A rotation about Z followed by a translation along Z puts the origin
    where the translation alone puts it. *)
Lemma position_rotZ_translateZ m theta l :
  setFromMatrixPosition
    (multiply (multiply m (makeRotationZ theta)) (makeTranslation 0 0 l))
  = setFromMatrixPosition (multiply m (makeTranslation 0 0 l)).
Proof. unfold setFromMatrixPosition. cbn. f_equal; ring. Qed.

Lemma computeFK_wrist_roll (angles : list R) (dims : RobotDimensions)
    (x : R) :
  computeFK (setAt 6 x angles) dims = computeFK angles dims.
Proof.
  rewrite !computeFK_frames.
  assert (Hpre : forall k, (k <= 6)%nat ->
            fkFrame (setAt 6 x angles) (getBoneOffsets dims) k
            = fkFrame angles (getBoneOffsets dims) k).
  { intros k Hk. apply fkFrame_prefix.
    intros j Hj. apply nth_setAt_other. lia. }
  cbn [map seq].
  rewrite !Hpre by lia.
  do 7 f_equal.
  cbn [fkFrame]. fold (fkFrame (setAt 6 x angles) (getBoneOffsets dims) 6).
  fold (fkFrame angles (getBoneOffsets dims) 6).
  rewrite (Hpre 6%nat) by lia.
  cbn [nth JOINT_AXES getBoneOffsets Nat.add]. rewrite !fkRotation_Z.
  unfold translationOf. cbn [vx vy vz].
  rewrite !position_rotZ_translateZ. reflexivity.
Qed.

(** X2: the wrist roll (angle 6) moves no joint position and not the tip:
    overwriting it leaves the whole result of [computeFK] as it was. *)
Theorem X2_wrist_roll_moves_nothing (angles : list R) (dims : RobotDimensions)
    (x : R) :
  computeFK (setAt 6 x angles) dims = computeFK angles dims.
Proof. apply computeFK_wrist_roll. Qed.

(** ** Workspace samples under inverted limits *)

(** With the wrist-roll bounds inverted, a draw of one half for every joint
    gives the zero pose with a wrist roll of one half. *)
Lemma sampleAngles_invertedRoll i :
  sampleAngles invertedRollLimits (fun _ => 0.5) i = setAt 6 0.5 zeroAngles.
Proof.
  unfold sampleAngles, invertedRollLimits, DEFAULT_JOINTS, zeroAngles.
  cbn [firstn app randAngles min max setAt].
  repeat (f_equal; try lra).
Qed.

Lemma invertedRoll_sample_valid i :
  sampleValid DEFAULT_DIMENSIONS invertedRollLimits (fun _ => 0.5) i = true.
Proof.
  unfold sampleValid.
  rewrite sampleAngles_invertedRoll, computeFK_wrist_roll.
  rewrite zero_pose_collision_free. reflexivity.
Qed.

(** C6 (as stated) fails: with seven limit entries of which the wrist roll
    has [min = 1] above [max = 0], and every draw equal to one half, the
    generator emits the tip of the straight pose; no angle vector has its
    wrist roll inside the empty range [1, 0], so the point is the tip of no
    in-range vector. *)
Lemma C6_inverted_limits_emit_point :
  List.length invertedRollLimits = 7%nat
  /\ (forall k : nat, 0 <= (fun _ : nat => 0.5) k < 1)
  /\ exists p,
       In p (pointsOf (generateWorkspace 1 DEFAULT_DIMENSIONS
                         invertedRollLimits (fun _ => 0.5)))
       /\ ~ exists angles,
              (forall j, jointWithin invertedRollLimits angles j)
              /\ checkSelfCollision (computeFK angles DEFAULT_DIMENSIONS) = false
              /\ p = tipOf (computeFK angles DEFAULT_DIMENSIONS).
Proof.
  split; [reflexivity |]. split; [exact half_is_a_draw |].
  exists (tipOf (computeFK zeroAngles DEFAULT_DIMENSIONS)). split.
  - rewrite (proj1 (generateWorkspace_points 1 DEFAULT_DIMENSIONS
                      invertedRollLimits (fun _ => 0.5))).
    cbn [seq filter]. rewrite invertedRoll_sample_valid.
    cbn [map]. unfold sampleTip.
    rewrite sampleAngles_invertedRoll, computeFK_wrist_roll.
    left. reflexivity.
  - intros (angles & Hwithin & _).
    pose proof (Hwithin 6%nat _ eq_refl) as Hroll.
    unfold withinLimit in Hroll. cbn [min max] in Hroll. lra.
Qed.

(** ** Rigid links *)

Lemma rigid_identity : rigid identity.
Proof. unfold rigid. cbn. repeat split; ring. Qed.

Lemma rigid_makeTranslation x y z : rigid (makeTranslation x y z).
Proof. unfold rigid. cbn. repeat split; ring. Qed.

Lemma sin_cos_unit theta : sin theta * sin theta + cos theta * cos theta = 1.
Proof. pose proof (sin2_cos2 theta) as H. unfold Rsqr in H. exact H. Qed.

Lemma rigid_makeRotationX theta : rigid (makeRotationX theta).
Proof.
  pose proof (sin_cos_unit theta) as H.
  unfold rigid. cbn. repeat split; try ring; nra.
Qed.

Lemma rigid_makeRotationY theta : rigid (makeRotationY theta).
Proof.
  pose proof (sin_cos_unit theta) as H.
  unfold rigid. cbn. repeat split; try ring; nra.
Qed.

Lemma rigid_makeRotationZ theta : rigid (makeRotationZ theta).
Proof.
  pose proof (sin_cos_unit theta) as H.
  unfold rigid. cbn. repeat split; try ring; nra.
Qed.

Lemma rigid_fkRotation a theta : rigid (fkRotation a theta).
Proof.
  unfold fkRotation.
  destruct (Req_dec_T (vx a) 1); [apply rigid_makeRotationX |].
  destruct (Req_dec_T (vy a) 1);
    [apply rigid_makeRotationY | apply rigid_makeRotationZ].
Qed.

Lemma rigid_multiply a b : rigid a -> rigid b -> rigid (multiply a b).
Proof.
  unfold rigid. destruct a, b. cbn.
  intros (A1 & A2 & A3 & A4 & A5 & A6 & A7 & A8 & A9 & A10)
         (B1 & B2 & B3 & B4 & B5 & B6 & B7 & B8 & B9 & B10).
  subst. repeat split; try ring; nsatz.
Qed.

Lemma rigid_fkFrame angles offsets k : rigid (fkFrame angles offsets k).
Proof.
  induction k as [| k IH]; cbn [fkFrame].
  - apply rigid_multiply; [apply rigid_identity | apply rigid_makeTranslation].
  - apply rigid_multiply; [| apply rigid_makeTranslation].
    apply rigid_multiply; [exact IH | apply rigid_fkRotation].
Qed.

(** A rigid frame moved by a translation: the origin travels exactly the
    length of the translation. *)
Lemma rigid_translation_distance m x y z :
  rigid m ->
  distanceToSquared (setFromMatrixPosition m)
    (setFromMatrixPosition (multiply m (makeTranslation x y z)))
  = x * x + y * y + z * z.
Proof.
  unfold rigid. destruct m. cbn.
  intros (A1 & A2 & A3 & A4 & A5 & A6 & A7 & A8 & A9 & A10).
  subst. unfold distanceToSquared. cbn. nsatz.
Qed.

(** A joint rotation turns the frame about its own origin. *)
Lemma position_fkRotation m a theta :
  setFromMatrixPosition (multiply m (fkRotation a theta))
  = setFromMatrixPosition m.
Proof.
  unfold fkRotation, setFromMatrixPosition.
  destruct (Req_dec_T (vx a) 1); [cbn; f_equal; ring |].
  destruct (Req_dec_T (vy a) 1); cbn; f_equal; ring.
Qed.

Lemma sqrt_square_abs x : sqrt (x * x) = Rabs x.
Proof. rewrite <- sqrt_Rsqr_abs. reflexivity. Qed.

Lemma linkLengths_offsets dims i :
  (i < 7)%nat ->
  nth (S i) (getBoneOffsets dims) zero
  = mkVector3 0 (if Nat.eqb i 0 then nth i (linkLengths dims) 0 else 0)
              (if Nat.eqb i 0 then 0 else nth i (linkLengths dims) 0).
Proof.
  intros Hi. do 7 (destruct i as [| i]; [reflexivity |]). lia.
Qed.

Lemma computeFK_link_distance angles dims i :
  (i < 7)%nat ->
  distanceTo (nth i (computeFK angles dims) zero)
             (nth (S i) (computeFK angles dims) zero)
  = Rabs (nth i (linkLengths dims) 0).
Proof.
  intros Hi. rewrite !computeFK_nth by lia.
  cbn [fkFrame]. replace (i + 1)%nat with (S i) by lia.
  rewrite linkLengths_offsets by assumption.
  unfold translationOf. cbn [vx vy vz].
  unfold distanceTo.
  rewrite <- (position_fkRotation (fkFrame angles (getBoneOffsets dims) i)
                (nth i JOINT_AXES zero) (nth i angles 0)) at 1.
  rewrite rigid_translation_distance
    by (apply rigid_multiply; [apply rigid_fkFrame | apply rigid_fkRotation]).
  destruct (Nat.eqb i 0).
  - replace (0 * 0 + _ * _ + 0 * 0) with
      (nth i (linkLengths dims) 0 * nth i (linkLengths dims) 0) by ring.
    apply sqrt_square_abs.
  - replace (0 * 0 + 0 * 0 + _ * _) with
      (nth i (linkLengths dims) 0 * nth i (linkLengths dims) 0) by ring.
    apply sqrt_square_abs.
Qed.

(** X3: the links are rigid: whatever the angles, two consecutive joint
    positions are exactly one link length apart. *)
Theorem X3_links_keep_their_length (angles : list R) (dims : RobotDimensions)
    (i : nat) :
  (i < 7)%nat ->
  distanceTo (nth i (computeFK angles dims) zero)
             (nth (S i) (computeFK angles dims) zero)
  = Rabs (nth i (linkLengths dims) 0).
Proof. apply computeFK_link_distance. Qed.

Lemma X3_links_keep_their_length_witness :
  distanceTo (nth 5 (computeFK defaultAngles DEFAULT_DIMENSIONS) zero)
             (nth 6 (computeFK defaultAngles DEFAULT_DIMENSIONS) zero)
  = Rabs (nth 5 (linkLengths DEFAULT_DIMENSIONS) 0).
Proof.
  apply (X3_links_keep_their_length defaultAngles DEFAULT_DIMENSIONS 5). lia.
Defined.

(** ** Reach *)

Lemma distanceTo_nonneg a b : 0 <= distanceTo a b.
Proof. apply sqrt_pos. Qed.

Lemma distanceToSquared_nonneg a b : 0 <= distanceToSquared a b.
Proof. unfold distanceToSquared. cbv zeta. apply sqrt_sum_squares_nonneg. Qed.

Lemma distanceTo_sqr a b : distanceTo a b * distanceTo a b = distanceToSquared a b.
Proof. apply sqrt_sqrt, distanceToSquared_nonneg. Qed.

(** The triangle inequality for [distanceTo]. *)
Lemma distanceTo_triangle a b c :
  distanceTo a c <= distanceTo a b + distanceTo b c.
Proof.
  pose proof (distanceTo_nonneg a b) as Hab.
  pose proof (distanceTo_nonneg b c) as Hbc.
  pose proof (distanceTo_nonneg a c) as Hac.
  pose proof (distanceTo_sqr a b) as Sab.
  pose proof (distanceTo_sqr b c) as Sbc.
  pose proof (distanceTo_sqr a c) as Sac.
  set (U := distanceTo a b) in *. set (V := distanceTo b c) in *.
  set (W := distanceTo a c) in *.
  unfold distanceToSquared in Sab, Sbc, Sac. cbv zeta in Sab, Sbc, Sac.
  destruct a as [ax ay az], b as [bx by_ bz], c as [cx cy cz].
  cbn [vx vy vz] in *.
  set (u1 := ax - bx) in *. set (u2 := ay - by_) in *. set (u3 := az - bz) in *.
  set (v1 := bx - cx) in *. set (v2 := by_ - cy) in *. set (v3 := bz - cz) in *.
  assert (Sac' : W * W = (u1 + v1) * (u1 + v1) + (u2 + v2) * (u2 + v2)
                         + (u3 + v3) * (u3 + v3)).
  { rewrite Sac. unfold u1, u2, u3, v1, v2, v3. ring. }
  set (p := u1 * v1 + u2 * v2 + u3 * v3).
  assert (Hcs : p * p <= (U * V) * (U * V)).
  { replace ((U * V) * (U * V)) with ((U * U) * (V * V)) by ring.
    rewrite Sab, Sbc. unfold p.
    pose proof (sqrt_sum_squares_nonneg (u1 * v2 - u2 * v1)
                  (u1 * v3 - u3 * v1) (u2 * v3 - u3 * v2)) as Hlag.
    replace ((u1 * u1 + u2 * u2 + u3 * u3) * (v1 * v1 + v2 * v2 + v3 * v3))
      with ((u1 * v1 + u2 * v2 + u3 * v3) * (u1 * v1 + u2 * v2 + u3 * v3)
            + ((u1 * v2 - u2 * v1) * (u1 * v2 - u2 * v1)
               + (u1 * v3 - u3 * v1) * (u1 * v3 - u3 * v1)
               + (u2 * v3 - u3 * v2) * (u2 * v3 - u3 * v2))) by ring.
    lra. }
  assert (Hp : p <= U * V).
  { destruct (Rle_dec p 0) as [Hneg | Hpos].
    - apply Rle_trans with 0; [assumption | apply Rmult_le_pos; assumption].
    - apply Rsqr_incr_0_var; [unfold Rsqr; exact Hcs |].
      apply Rmult_le_pos; assumption. }
  apply Rsqr_incr_0_var; [| lra].
  unfold Rsqr. rewrite Sac'.
  replace ((U + V) * (U + V)) with (U * U + 2 * (U * V) + V * V) by ring.
  rewrite Sab, Sbc. unfold p in Hp.
  replace ((u1 + v1) * (u1 + v1) + (u2 + v2) * (u2 + v2) + (u3 + v3) * (u3 + v3))
    with ((u1 * u1 + u2 * u2 + u3 * u3) + 2 * (u1 * v1 + u2 * v2 + u3 * v3)
          + (v1 * v1 + v2 * v2 + v3 * v3)) by ring.
  lra.
Qed.

Lemma sumAbs_linkLengths_step dims k :
  (k < 7)%nat ->
  sumAbs (S k) (linkLengths dims)
  = sumAbs k (linkLengths dims) + Rabs (nth k (linkLengths dims) 0).
Proof.
  intros Hk. unfold linkLengths.
  do 7 (destruct k as [| k]; [cbn [sumAbs nth]; ring |]). lia.
Qed.

Lemma computeFK_reach angles dims k :
  (k < 8)%nat ->
  distanceTo (nth 0 (computeFK angles dims) zero)
             (nth k (computeFK angles dims) zero)
  <= sumAbs k (linkLengths dims).
Proof.
  induction k as [| k IH]; intros Hk.
  - rewrite distanceTo_self. cbn [sumAbs]. lra.
  - rewrite sumAbs_linkLengths_step by lia.
    eapply Rle_trans; [apply (distanceTo_triangle _ (nth k (computeFK angles dims) zero)) |].
    rewrite computeFK_link_distance by lia.
    specialize (IH ltac:(lia)). lra.
Qed.

(** The first position is the top of the base, whatever the angles. *)
Lemma computeFK_base angles dims :
  nth 0 (computeFK angles dims) zero = mkVector3 0 (baseHeight dims) 0.
Proof.
  rewrite computeFK_nth by lia. cbn [fkFrame nth getBoneOffsets].
  rewrite multiply_identity_l. reflexivity.
Qed.

(** X4: whatever the angles, joint position [k] is no farther from the top of
    the base, (0, baseHeight, 0), than the first [k] link lengths added up;
    for [k = 7] the tip stays within the total length of the arm. *)
Theorem X4_positions_within_reach (angles : list R) (dims : RobotDimensions)
    (k : nat) :
  (k < 8)%nat ->
  distanceTo (mkVector3 0 (baseHeight dims) 0)
             (nth k (computeFK angles dims) zero)
  <= sumAbs k (linkLengths dims).
Proof.
  intros Hk. rewrite <- (computeFK_base angles dims).
  apply computeFK_reach. assumption.
Qed.

Lemma X4_positions_within_reach_witness :
  distanceTo (mkVector3 0 (baseHeight DEFAULT_DIMENSIONS) 0)
             (nth 7 (computeFK defaultAngles DEFAULT_DIMENSIONS) zero)
  <= sumAbs 7 (linkLengths DEFAULT_DIMENSIONS).
Proof.
  apply (X4_positions_within_reach defaultAngles DEFAULT_DIMENSIONS 7). lia.
Defined.

(** ** More on the segment distance *)

(** X5: the distance returned is the distance between a point of the first
    segment and a point of the second: both interpolation parameters lie in
    [0, 1]. So it is never smaller than the true distance of the segments. *)
Theorem X5_distance_realised_on_segments (p q p' q' : Vector3) :
  let s := segSc (segParams p q p' q') in
  let t := segTc (segParams p q p' q') in
  0 <= s <= 1 /\ 0 <= t <= 1
  /\ distSegmentToSegment p q p' q' = distanceTo (pointOn p q s) (pointOn p' q' t).
Proof.
  cbv zeta. split; [apply segSc_unit |]. split; [apply segTc_unit |].
  unfold distSegmentToSegment, distanceTo, distanceToSquared, length, pointOn.
  set (s := segSc _). set (t := segTc _).
  unfold sub, subVectors, addVectors, multiplyScalar. cbn [vx vy vz].
  f_equal. ring.
Qed.

Lemma segParams_shared_start p q q' :
  let r := segParams p q p q' in sN r = 0 /\ tN r = 0.
Proof.
  cbv zeta. unfold segParams.
  set (u := subVectors q p). set (v := subVectors q' p).
  replace (subVectors p p) with zero
    by (unfold subVectors, zero; f_equal; ring).
  replace (dot u zero) with 0 by (unfold dot, zero; cbn; ring).
  replace (dot v zero) with 0 by (unfold dot, zero; cbn; ring).
  pose proof (dot_self_nonneg v) as Hc.
  set (a := dot u u). set (b := dot u v). set (c := dot v v) in *.
  unfold segParamsS.
  destruct (Rlt_dec (a * c - b * b) 1e-6) as [HD | HD].
  - unfold segParamsT. cbn [sN sD tN tD].
    destruct (Rlt_dec 0 0); [lra |].
    destruct (Rgt_dec 0 c) as [Hg | _]; [unfold Rgt in Hg; lra |].
    cbn. split; reflexivity.
  - replace (b * 0 - c * 0) with 0 by ring.
    replace (a * 0 - b * 0) with 0 by ring.
    destruct (Rlt_dec 0 0); [lra |].
    destruct (Rgt_dec 0 (a * c - b * b)) as [Hg | _];
      [unfold Rgt in Hg; lra |].
    unfold segParamsT. cbn [sN sD tN tD].
    destruct (Rlt_dec 0 0); [lra |].
    destruct (Rgt_dec 0 (a * c - b * b)) as [Hg | _];
      [unfold Rgt in Hg; lra |].
    cbn. split; reflexivity.
Qed.

Lemma guarded_quotient_zero dn :
  (if Rlt_dec (Rabs 0) 1e-6 then 0 else 0 / dn) = 0.
Proof. rewrite Rabs_R0. destruct (Rlt_dec 0 1e-6); [reflexivity | lra]. Qed.

(** X6: two segments that start at the same point are at distance 0; in
    particular a segment is at distance 0 from itself. *)
Theorem X6_shared_start_distance_zero (p q q' : Vector3) :
  distSegmentToSegment p q p q' = 0.
Proof.
  unfold distSegmentToSegment, segSc, segTc.
  destruct (segParams_shared_start p q q') as [Hs Ht].
  rewrite Hs, Ht, !guarded_quotient_zero.
  unfold length, sub, subVectors, addVectors, multiplyScalar. cbn [vx vy vz].
  replace (_ + _ + _) with 0 by ring. apply sqrt_0.
Qed.

Lemma segParams_points p p' :
  let r := segParams p p p' p' in sN r = 0 /\ tN r = 0.
Proof.
  cbv zeta. unfold segParams.
  replace (subVectors p p) with zero
    by (unfold subVectors, zero; f_equal; ring).
  replace (subVectors p' p') with zero
    by (unfold subVectors, zero; f_equal; ring).
  replace (dot zero zero) with 0 by (unfold dot, zero; cbn; ring).
  replace (dot zero (subVectors p p')) with 0 by (unfold dot, zero; cbn; ring).
  unfold segParamsS.
  replace (0 * 0 - 0 * 0) with 0 by ring.
  destruct (Rlt_dec 0 1e-6) as [_ | Hn]; [| lra].
  unfold segParamsT. cbn [sN sD tN tD].
  destruct (Rlt_dec 0 0); [lra |].
  destruct (Rgt_dec 0 0) as [Hg | _]; [unfold Rgt in Hg; lra |].
  cbn. split; reflexivity.
Qed.

(** X7: for two segments of length zero the result is the distance of the
    two points; no quotient is taken. *)
Theorem X7_distance_of_two_points (p p' : Vector3) :
  distSegmentToSegment p p p' p' = distanceTo p p'.
Proof.
  unfold distSegmentToSegment, segSc, segTc.
  destruct (segParams_points p p') as [Hs Ht].
  rewrite Hs, Ht, !guarded_quotient_zero.
  unfold length, distanceTo, distanceToSquared, sub, subVectors, addVectors,
    multiplyScalar. cbn [vx vy vz].
  f_equal. ring.
Qed.

(** X8: two segments on either side of a gap of width [delta] along the Z
    axis are reported at least [delta] apart. *)
Theorem X8_gap_along_z_bounds_distance (p q p' q' : Vector3) (m delta : R) :
  vz p <= m -> vz q <= m ->
  m + delta <= vz p' -> m + delta <= vz q' ->
  0 <= delta ->
  delta <= distSegmentToSegment p q p' q'.
Proof. apply distSegmentToSegment_separated_z. Qed.

Lemma X8_gap_along_z_bounds_distance_witness :
  0.6 <= distSegmentToSegment (mkVector3 0 0.5 0) (mkVector3 0 0.5 0.8)
           (mkVector3 0 0.5 1.4) (mkVector3 0 0.5 2).
Proof.
  apply (X8_gap_along_z_bounds_distance _ _ _ _ 0.8 0.6); cbn [vz]; lra.
Defined.

(** ** More on the collision check *)

Lemma floor_violation_collides (positions : list Vector3) (p : Vector3) :
  In p positions -> vy p < FLOOR_LIMIT + 0.05 ->
  checkSelfCollision positions = true.
Proof.
  intros Hin Hp. unfold checkSelfCollision.
  replace (existsb (fun p0 => Rltb (vy p0) (FLOOR_LIMIT + 0.05)) positions)
    with true; [reflexivity |].
  symmetry. apply existsb_exists. exists p.
  split; [assumption | apply Rltb_true; assumption].
Qed.

(** X9: a position below [FLOOR_LIMIT + 0.05] makes the check answer true,
    however many positions there are. *)
Theorem X9_floor_violation_detected (positions : list Vector3) (p : Vector3) :
  In p positions -> vy p < FLOOR_LIMIT + 0.05 ->
  checkSelfCollision positions = true.
Proof. apply floor_violation_collides. Qed.

Lemma X9_floor_violation_detected_witness :
  checkSelfCollision [mkVector3 0 0.2 0; mkVector3 1 0 1] = true.
Proof.
  apply (X9_floor_violation_detected _ (mkVector3 1 0 1)).
  - right. left. reflexivity.
  - unfold FLOOR_LIMIT. cbn [vy]. lra.
Defined.

Lemma workspaceLoop_all_rejected samples dims configs rnd k points :
  (forall angles, checkSelfCollision (computeFK angles dims) = true) ->
  workspaceLoop samples dims configs rnd k points = points.
Proof.
  intros Hall. revert k points.
  induction samples as [| samples IH]; intros k points;
    cbn [workspaceLoop]; [reflexivity |].
  rewrite Hall. cbn [negb]. apply IH.
Qed.

(** X10: with a base lower than the floor buffer (baseHeight below
    [FLOOR_LIMIT + 0.05]) every pose is reported as colliding, and the
    workspace generator emits nothing. *)
Theorem X10_low_base_always_collides (dims : RobotDimensions)
    (angles : list R) (samples : nat) (configs : list JointConfig)
    (rnd : nat -> R) :
  baseHeight dims < FLOOR_LIMIT + 0.05 ->
  checkSelfCollision (computeFK angles dims) = true
  /\ generateWorkspace samples dims configs rnd = [].
Proof.
  intros Hlow.
  assert (Hall : forall a, checkSelfCollision (computeFK a dims) = true).
  { intros a.
    apply (floor_violation_collides _ (mkVector3 0 (baseHeight dims) 0));
      [| exact Hlow].
    rewrite <- (computeFK_base a dims). apply nth_In.
    rewrite computeFK_length. lia. }
  split; [apply Hall |].
  unfold generateWorkspace. apply workspaceLoop_all_rejected. exact Hall.
Qed.

Lemma X10_low_base_always_collides_witness :
  let dims := mkRobotDimensions 0.04 0.3 0.8 0.6 0.6 0.5 0.3 0.2 in
  checkSelfCollision (computeFK defaultAngles dims) = true
  /\ generateWorkspace 1000 dims DEFAULT_JOINTS (fun _ => 0.5) = [].
Proof.
  cbv zeta.
  apply (X10_low_base_always_collides
           (mkRobotDimensions 0.04 0.3 0.8 0.6 0.6 0.5 0.3 0.2)).
  unfold FLOOR_LIMIT. cbn [baseHeight]. lra.
Defined.

(** ** The control loop *)

Lemma bind_Some {A B : Type} (o : option A) (f : A -> option B) b :
  bind o f = Some b -> exists a, o = Some a /\ f a = Some b.
Proof. destruct o as [a |]; cbn [bind]; [eauto | discriminate]. Qed.

Ltac inv_bind H :=
  let a := fresh "a" in
  let Ha := fresh "Ha" in
  apply bind_Some in H; destruct H as (a & Ha & H).

Lemma clampTo_within cfg v : min cfg <= max cfg -> withinLimit cfg (clampTo cfg v).
Proof. intros H. apply clamp_within. assumption. Qed.

Lemma clampTo_id cfg v : withinLimit cfg v -> clampTo cfg v = v.
Proof.
  unfold withinLimit, clampTo, Rmax, Rmin. intros [Hlo Hhi].
  destruct (Rle_dec (max cfg) v); destruct (Rle_dec (min cfg) _); lra.
Qed.

(** With inverted limits the clamp always answers [min]. *)
Lemma clampTo_inverted cfg v : max cfg < min cfg -> clampTo cfg v = min cfg.
Proof.
  unfold clampTo, Rmax, Rmin. intros H.
  destruct (Rle_dec (max cfg) v); destruct (Rle_dec (min cfg) _); lra.
Qed.

Lemma clampJoints_length configs vals r :
  clampJoints configs vals = Some r -> List.length r = List.length vals.
Proof.
  revert configs r. induction vals as [| v vals IH]; intros configs r H.
  - cbn in H. inversion H. reflexivity.
  - destruct configs as [| cfg configs]; [discriminate H |].
    cbn [clampJoints] in H. inv_bind H. injection H as <-.
    cbn [List.length]. f_equal. eapply IH. eassumption.
Qed.

Lemma clampJoints_total configs vals :
  (List.length vals <= List.length configs)%nat ->
  exists r, clampJoints configs vals = Some r.
Proof.
  revert configs. induction vals as [| v vals IH]; intros configs H.
  - exists []. reflexivity.
  - destruct configs as [| cfg configs]; [cbn in H; lia |].
    destruct (IH configs) as [r Hr]; [cbn in H; lia |].
    exists (clampTo cfg v :: r). cbn [clampJoints]. rewrite Hr. reflexivity.
Qed.

(** Entry [j] of the clamped vector is the clamp of entry [j]. *)
Lemma clampJoints_nth configs vals r j cfg :
  clampJoints configs vals = Some r ->
  nth_error configs j = Some cfg ->
  (j < List.length vals)%nat ->
  nth j r 0 = clampTo cfg (nth j vals 0).
Proof.
  revert configs r j. induction vals as [| v vals IH]; intros configs r j H Hc Hj.
  - cbn in Hj. lia.
  - destruct configs as [| c configs]; [discriminate H |].
    cbn [clampJoints] in H. inv_bind H. injection H as <-.
    destruct j as [| j].
    + cbn in Hc. injection Hc as ->. reflexivity.
    + cbn [nth]. eapply IH; [eassumption | exact Hc | cbn in Hj; lia].
Qed.

Lemma clampJoints_within configs vals r :
  (forall cfg, In cfg configs -> min cfg <= max cfg) ->
  List.length vals = List.length configs ->
  clampJoints configs vals = Some r ->
  forall j, jointWithin configs r j.
Proof.
  intros Hord Hlen H j cfg Hcfg.
  assert (Hj : (j < List.length vals)%nat).
  { rewrite Hlen. apply nth_error_Some. congruence. }
  rewrite (clampJoints_nth _ _ _ _ _ H Hcfg Hj).
  apply clampTo_within, Hord. eapply nth_error_In; eassumption.
Qed.

(** A vector already within its limits passes the clamp unchanged. *)
Lemma clampJoints_id configs vals :
  List.length vals = List.length configs ->
  (forall j, jointWithin configs vals j) ->
  clampJoints configs vals = Some vals.
Proof.
  revert configs. induction vals as [| v vals IH]; intros configs Hlen Hin.
  - reflexivity.
  - destruct configs as [| cfg configs]; [discriminate Hlen |].
    cbn [clampJoints]. rewrite IH.
    + cbn [bind]. rewrite clampTo_id; [reflexivity |].
      apply (Hin 0%nat cfg). reflexivity.
    + cbn in Hlen. lia.
    + intros j c Hc. apply (Hin (S j) c). exact Hc.
Qed.

Lemma applyJoints_Some dims configs st proposed st' :
  applyJoints dims configs st proposed = Some st' ->
  exists clamped,
    clampJoints configs proposed = Some clamped
    /\ st' = commitJoints dims st clamped.
Proof.
  unfold applyJoints. intros H. inv_bind H.
  injection H as <-. eauto.
Qed.

(** What a commit leaves in [jointValues]. *)
Lemma commitJoints_cases dims st clamped :
  (checkSelfCollision (computeFK clamped dims) = true
   /\ jointValues (commitJoints dims st clamped) = jointValues st
   /\ isColliding (commitJoints dims st clamped) = true)
  \/ (checkSelfCollision (computeFK clamped dims) = false
      /\ jointValues (commitJoints dims st clamped) = clamped
      /\ isColliding (commitJoints dims st clamped) = false).
Proof.
  unfold commitJoints. cbn [jointValues isColliding].
  destruct (checkSelfCollision (computeFK clamped dims)); cbn [negb]; auto.
Qed.

(** The joint values after an apply step: the old ones, or a valid pose. *)
Lemma applyJoints_safe dims configs st proposed st' :
  (forall cfg, In cfg configs -> min cfg <= max cfg) ->
  List.length proposed = List.length configs ->
  applyJoints dims configs st proposed = Some st' ->
  (jointValues st' = jointValues st /\ isColliding st' = true)
  \/ (validPose dims configs (jointValues st') /\ isColliding st' = false).
Proof.
  intros Hord Hlen H.
  apply applyJoints_Some in H. destruct H as (clamped & Hc & ->).
  destruct (commitJoints_cases dims st clamped)
    as [(_ & Hj & Hi) | (Hfree & Hj & Hi)].
  - left. split; assumption.
  - right. split; [| assumption]. rewrite Hj. split; [| assumption].
    eapply clampJoints_within; eassumption.
Qed.

Lemma addAt_length i x arr : List.length (addAt i x arr) = List.length arr.
Proof. apply setAt_length. Qed.

Lemma subAt_length i x arr : List.length (subAt i x arr) = List.length arr.
Proof. apply setAt_length. Qed.

Lemma solveIK_length targetPos angles dims configs result :
  solveIK targetPos angles dims configs = Some result ->
  List.length result = List.length angles.
Proof.
  unfold solveIK. generalize maxIterations. intros fuel. revert angles.
  induction fuel as [| fuel IH]; intros angles H; cbn [ikIterate] in H.
  - injection H as <-. reflexivity.
  - destruct (Rlt_dec _ threshold); [injection H as <-; reflexivity |].
    destruct (ikPass targetPos dims configs angles) as [angles' |] eqn:Hp;
      [| discriminate].
    rewrite (IH _ H). eapply ikPass_length; eassumption.
Qed.

Lemma ikControl_length a0 a1 a2 a3 dU dD dL dR dims configs target joints moved :
  ikControl a0 a1 a2 a3 dU dD dL dR dims configs target joints = Some moved ->
  List.length (snd moved) = List.length joints.
Proof.
  unfold ikControl. intros H. inv_bind H. inv_bind H.
  injection H as <-. cbn [snd].
  repeat match goal with
         | |- context [if ?b then _ else _] => destruct b
         end;
    repeat (rewrite addAt_length || rewrite subAt_length);
    eapply solveIK_length; eassumption.
Qed.

Lemma manualControl_length mode a0 a1 a2 a3 dU dD configs joints proposed :
  manualControl mode a0 a1 a2 a3 dU dD configs joints = Some proposed ->
  List.length proposed = List.length joints.
Proof.
  unfold manualControl. intros H.
  destruct (Z.eqb mode 0).
  { inv_bind H. inv_bind H. inv_bind H. injection H as <-.
    rewrite !subAt_length. reflexivity. }
  destruct (Z.eqb mode 1).
  { inv_bind H. inv_bind H. inv_bind H. injection H as <-.
    rewrite !subAt_length. reflexivity. }
  destruct (Z.eqb mode 2).
  { inv_bind H. inv_bind H. injection H as <-.
    destruct dD, dU; repeat (rewrite addAt_length || rewrite subAt_length);
      reflexivity. }
  injection H as <-. reflexivity.
Qed.

Lemma updateLoop_safe gp dims configs st st' :
  List.length configs = 7%nat ->
  List.length (jointValues st) = 7%nat ->
  (forall cfg, In cfg configs -> min cfg <= max cfg) ->
  updateLoop gp dims configs st = Some st' ->
  jointValues st' = jointValues st
  \/ (validPose dims configs (jointValues st') /\ isColliding st' = false).
Proof.
  intros Hlc Hlj Hord H. destruct gp as [g |]; cbn [updateLoop] in H.
  - unfold gamepadFrame in H.
    do 7 inv_bind H. inv_bind H.
    match type of H with
    | applyJoints _ _ ?s _ = _ =>
        assert (Hjs : jointValues s = jointValues st) by reflexivity
    end.
    apply applyJoints_safe in H; [| assumption |].
    + rewrite Hjs in H. destruct H as [[H _] | H]; [left | right]; assumption.
    + rewrite Hlc, <- Hlj.
      match goal with
      | Hm : (if ikMode ?s then _ else _) = Some _ |- _ =>
          destruct (ikMode s);
          [ apply ikControl_length in Hm; exact Hm
          | inv_bind Hm; injection Hm as <-; cbn [snd];
            eapply manualControl_length; eassumption ]
      end.
  - unfold idleFrame in H. destruct (ikMode st).
    + inv_bind H.
      apply applyJoints_safe in H; [| assumption |].
      * destruct H as [[H _] | H]; [left | right]; assumption.
      * rewrite Hlc, <- Hlj. eapply solveIK_length; eassumption.
    + injection H as <-. left. reflexivity.
Qed.

(** X11: whatever the gamepad does, after a frame the joint values are
    either the ones before the frame or a pose that lies within all limits
    and passes the collision check; so a valid pose is never replaced by an
    invalid one. *)
Theorem X11_loop_keeps_pose_valid (gp : option Gamepad)
    (dims : RobotDimensions) (configs : list JointConfig)
    (st st' : LoopState) :
  List.length configs = 7%nat ->
  List.length (jointValues st) = 7%nat ->
  (forall cfg, In cfg configs -> min cfg <= max cfg) ->
  updateLoop gp dims configs st = Some st' ->
  (jointValues st' = jointValues st
   \/ (validPose dims configs (jointValues st') /\ isColliding st' = false))
  /\ (validPose dims configs (jointValues st) ->
      validPose dims configs (jointValues st')).
Proof.
  intros Hlc Hlj Hord H.
  pose proof (updateLoop_safe gp dims configs st st' Hlc Hlj Hord H) as Hs.
  split; [exact Hs |].
  intros Hv. destruct Hs as [-> | [Hv' _]]; assumption.
Qed.

Lemma X11_loop_keeps_pose_valid_witness :
  let st := mkLoopState defaultAngles 0 0 true
              (tipOf (computeFK defaultAngles DEFAULT_DIMENSIONS))
              false false false false in
  let st' := commitJoints DEFAULT_DIMENSIONS st defaultAngles in
  (jointValues st' = jointValues st
   \/ (validPose DEFAULT_DIMENSIONS DEFAULT_JOINTS (jointValues st')
       /\ isColliding st' = false))
  /\ (validPose DEFAULT_DIMENSIONS DEFAULT_JOINTS (jointValues st) ->
      validPose DEFAULT_DIMENSIONS DEFAULT_JOINTS (jointValues st')).
Proof.
  cbv zeta.
  apply (X11_loop_keeps_pose_valid None DEFAULT_DIMENSIONS DEFAULT_JOINTS).
  - reflexivity.
  - reflexivity.
  - exact DEFAULT_JOINTS_ordered.
  - cbn [updateLoop]. unfold idleFrame. cbn [ikMode ikTargetPos jointValues].
    rewrite solveIK_early_exit
      by (rewrite distanceTo_self; unfold threshold; lra).
    cbn [bind]. unfold applyJoints.
    rewrite clampJoints_id;
      [reflexivity | reflexivity | exact defaultAngles_within].
Defined.

Lemma gripperStep_unit gp g : 0 <= gripperStep gp g <= 1.
Proof. unfold gripperStep. cbv zeta. apply clamp_within. lra. Qed.

Lemma gamepadFrame_gripper gp dims configs st st' :
  gamepadFrame gp dims configs st = Some st' ->
  gripperValue st' = gripperStep gp (gripperValue st).
Proof.
  unfold gamepadFrame. intros H. do 7 inv_bind H. inv_bind H.
  apply applyJoints_Some in H. destruct H as (clamped & _ & ->).
  reflexivity.
Qed.

(** X12: after a frame with a gamepad the gripper value lies in [0, 1],
    whatever it was before and whatever the triggers report. *)
Theorem X12_gripper_stays_in_unit_range (gp : Gamepad)
    (dims : RobotDimensions) (configs : list JointConfig)
    (st st' : LoopState) :
  gamepadFrame gp dims configs st = Some st' ->
  0 <= gripperValue st' <= 1.
Proof.
  intros H. rewrite (gamepadFrame_gripper _ _ _ _ _ H).
  apply gripperStep_unit.
Qed.

Lemma speedAt_total configs i :
  (i < List.length configs)%nat -> exists s, speedAt configs i = Some s.
Proof.
  intros Hi. unfold speedAt.
  destruct (nth_error configs i) as [cfg |] eqn:Hc; [cbn; eauto |].
  apply nth_error_None in Hc. lia.
Qed.

Lemma buttonAt_total gp k :
  (k < List.length (buttons gp))%nat -> exists b, buttonAt gp k = Some b.
Proof.
  intros Hk. unfold buttonAt.
  destruct (nth_error (buttons gp) k) eqn:Hb; [eauto |].
  apply nth_error_None in Hb. lia.
Qed.

Lemma solveIK_total targetPos angles dims configs :
  (6 <= List.length configs)%nat ->
  exists result, solveIK targetPos angles dims configs = Some result.
Proof.
  intros Hlen.
  destruct (ikIterate_passes maxIterations targetPos dims configs angles Hlen)
    as (k & result & _ & Hres & _).
  exists result. exact Hres.
Qed.

Lemma applyJoints_total dims configs st proposed :
  (List.length proposed <= List.length configs)%nat ->
  exists st', applyJoints dims configs st proposed = Some st'.
Proof.
  intros Hlen. unfold applyJoints.
  destruct (clampJoints_total configs proposed Hlen) as [r ->].
  cbn [bind]. eauto.
Qed.

Lemma ikControl_total a0 a1 a2 a3 dU dD dL dR dims configs target joints :
  List.length configs = 7%nat ->
  exists moved,
    ikControl a0 a1 a2 a3 dU dD dL dR dims configs target joints = Some moved.
Proof.
  intros Hlc. unfold ikControl.
  match goal with
  | |- context [solveIK ?t joints dims configs] =>
      destruct (solveIK_total t joints dims configs) as [r ->]; [lia |]
  end.
  cbn [bind].
  destruct (speedAt_total configs 6) as [s ->]; [lia |].
  cbn [bind]. eauto.
Qed.

Lemma manualControl_total mode a0 a1 a2 a3 dU dD configs joints :
  List.length configs = 7%nat ->
  exists proposed,
    manualControl mode a0 a1 a2 a3 dU dD configs joints = Some proposed.
Proof.
  intros Hlc. unfold manualControl.
  destruct (speedAt_total configs 0) as [s0 ->]; [lia |].
  destruct (speedAt_total configs 1) as [s1 ->]; [lia |].
  destruct (speedAt_total configs 2) as [s2 ->]; [lia |].
  destruct (speedAt_total configs 3) as [s3 ->]; [lia |].
  destruct (speedAt_total configs 4) as [s4 ->]; [lia |].
  destruct (speedAt_total configs 5) as [s5 ->]; [lia |].
  destruct (speedAt_total configs 6) as [s6 ->]; [lia |].
  cbn [bind].
  destruct (Z.eqb mode 0); [eauto |].
  destruct (Z.eqb mode 1); [eauto |].
  destruct (Z.eqb mode 2); eauto.
Qed.

Lemma gamepadFrame_total gp dims configs st :
  (16 <= List.length (buttons gp))%nat ->
  List.length configs = 7%nat ->
  List.length (jointValues st) = 7%nat ->
  exists st', gamepadFrame gp dims configs st = Some st'.
Proof.
  intros Hb Hlc Hlj. unfold gamepadFrame.
  destruct (buttonAt_total gp 0) as [b0 ->]; [lia |].
  destruct (buttonAt_total gp 4) as [b4 ->]; [lia |].
  destruct (buttonAt_total gp 5) as [b5 ->]; [lia |].
  destruct (buttonAt_total gp 12) as [b12 ->]; [lia |].
  destruct (buttonAt_total gp 13) as [b13 ->]; [lia |].
  destruct (buttonAt_total gp 14) as [b14 ->]; [lia |].
  destruct (buttonAt_total gp 15) as [b15 ->]; [lia |].
  cbn [bind].
  set (ev := buttonEvents b0 b4 b5 dims st).
  assert (Hev : jointValues ev = jointValues st) by reflexivity.
  destruct (ikMode ev).
  - destruct (ikControl_total (axisAt gp 0) (axisAt gp 1) (axisAt gp 2)
                (axisAt gp 3) (pressed b12) (pressed b13) (pressed b14)
                (pressed b15) dims configs (ikTargetPos ev) (jointValues ev) Hlc)
      as [moved Hm].
    rewrite Hm. cbn [bind].
    apply applyJoints_total.
    rewrite (ikControl_length _ _ _ _ _ _ _ _ _ _ _ _ _ Hm), Hev. lia.
  - destruct (manualControl_total (controlMode ev) (axisAt gp 0) (axisAt gp 1)
                (axisAt gp 2) (axisAt gp 3) (pressed b12) (pressed b13)
                configs (jointValues ev) Hlc) as [proposed Hm].
    rewrite Hm. cbn [bind fst snd].
    apply applyJoints_total.
    rewrite (manualControl_length _ _ _ _ _ _ _ _ _ _ Hm), Hev. lia.
Qed.

Lemma updateLoop_total (gp : option Gamepad) (dims : RobotDimensions)
    (configs : list JointConfig) (st : LoopState) :
  (forall g, gp = Some g -> (16 <= List.length (buttons g))%nat) ->
  List.length configs = 7%nat ->
  List.length (jointValues st) = 7%nat ->
  exists st', updateLoop gp dims configs st = Some st'.
Proof.
  intros Hb Hlc Hlj. destruct gp as [g |]; cbn [updateLoop].
  - apply gamepadFrame_total; auto.
  - unfold idleFrame. destruct (ikMode st); [| eauto].
    destruct (solveIK_total (ikTargetPos st) (jointValues st) dims configs)
      as [r Hr]; [lia |].
    rewrite Hr. cbn [bind]. apply applyJoints_total.
    rewrite (solveIK_length _ _ _ _ _ Hr). lia.
Qed.

(** X13: with a gamepad that has at least 16 buttons, seven limit entries
    and seven joint values, a frame never throws: it always produces the next
    state (also without a gamepad). *)
Theorem X13_frame_never_throws (gp : option Gamepad) (dims : RobotDimensions)
    (configs : list JointConfig) (st : LoopState) :
  (forall g, gp = Some g -> (16 <= List.length (buttons g))%nat) ->
  List.length configs = 7%nat ->
  List.length (jointValues st) = 7%nat ->
  exists st', updateLoop gp dims configs st = Some st'.
Proof. apply updateLoop_total. Qed.

Lemma X13_frame_never_throws_witness :
  exists st',
    updateLoop (Some idlePad) DEFAULT_DIMENSIONS DEFAULT_JOINTS initialState
    = Some st'.
Proof.
  apply (X13_frame_never_throws (Some idlePad) DEFAULT_DIMENSIONS
           DEFAULT_JOINTS initialState).
  - intros g Hg. injection Hg as <-. cbn. lia.
  - reflexivity.
  - reflexivity.
Defined.

Lemma X12_gripper_stays_in_unit_range_witness :
  exists st',
    gamepadFrame idlePad DEFAULT_DIMENSIONS DEFAULT_JOINTS initialState = Some st'
    /\ 0 <= gripperValue st' <= 1.
Proof.
  destruct (gamepadFrame_total idlePad DEFAULT_DIMENSIONS DEFAULT_JOINTS
              initialState) as [st' Hst'];
    [cbn; lia | reflexivity | reflexivity |].
  exists st'. split; [exact Hst' |].
  exact (X12_gripper_stays_in_unit_range idlePad DEFAULT_DIMENSIONS
           DEFAULT_JOINTS initialState st' Hst').
Defined.

(** X14: a pad that reports fewer than 16 buttons makes every frame throw:
    the d-pad entries 12 to 15 are read unconditionally. *)
Theorem X14_short_pad_throws (gp : Gamepad) (dims : RobotDimensions)
    (configs : list JointConfig) (st : LoopState) :
  (List.length (buttons gp) < 16)%nat ->
  gamepadFrame gp dims configs st = None.
Proof.
  intros Hb. unfold gamepadFrame.
  assert (H15 : buttonAt gp 15 = None)
    by (apply nth_error_None; lia).
  rewrite H15.
  destruct (buttonAt gp 0); [| reflexivity].
  destruct (buttonAt gp 4); [| reflexivity].
  destruct (buttonAt gp 5); [| reflexivity].
  destruct (buttonAt gp 12); [| reflexivity].
  destruct (buttonAt gp 13); [| reflexivity].
  destruct (buttonAt gp 14); reflexivity.
Qed.

Lemma X14_short_pad_throws_witness :
  gamepadFrame (mkGamepad [0; 0] (repeat (mkGamepadButton false 0) 12))
    DEFAULT_DIMENSIONS DEFAULT_JOINTS initialState = None.
Proof.
  apply X14_short_pad_throws. cbn. lia.
Defined.

(** The parts of a frame that did not throw. *)
Lemma gamepadFrame_inv gp dims configs st st' :
  gamepadFrame gp dims configs st = Some st' ->
  exists b0 b4 b5 b12 b13 b14 b15 moved clamped,
    buttonAt gp 0 = Some b0 /\ buttonAt gp 4 = Some b4
    /\ buttonAt gp 5 = Some b5 /\ buttonAt gp 12 = Some b12
    /\ buttonAt gp 13 = Some b13 /\ buttonAt gp 14 = Some b14
    /\ buttonAt gp 15 = Some b15
    /\ (if ikMode (buttonEvents b0 b4 b5 dims st) then
          ikControl (axisAt gp 0) (axisAt gp 1) (axisAt gp 2) (axisAt gp 3)
            (pressed b12) (pressed b13) (pressed b14) (pressed b15)
            dims configs (ikTargetPos (buttonEvents b0 b4 b5 dims st))
            (jointValues st)
        else
          proposedJoints <-
            manualControl (controlMode (buttonEvents b0 b4 b5 dims st))
              (axisAt gp 0) (axisAt gp 1) (axisAt gp 2) (axisAt gp 3)
              (pressed b12) (pressed b13) configs (jointValues st) ;;
          Some (ikTargetPos (buttonEvents b0 b4 b5 dims st), proposedJoints))
       = Some moved
    /\ clampJoints configs (snd moved) = Some clamped
    /\ jointValues st'
       = (if checkSelfCollision (computeFK clamped dims) then jointValues st
          else clamped)
    /\ isColliding st' = checkSelfCollision (computeFK clamped dims)
    /\ ikMode st' = ikMode (buttonEvents b0 b4 b5 dims st)
    /\ controlMode st' = controlMode (buttonEvents b0 b4 b5 dims st)
    /\ ikTargetPos st' = fst moved
    /\ lastButton0 st' = pressed b0.
Proof.
  unfold gamepadFrame. intros H.
  apply bind_Some in H. destruct H as (b0 & H0 & H).
  apply bind_Some in H. destruct H as (b4 & H4 & H).
  apply bind_Some in H. destruct H as (b5 & H5 & H).
  apply bind_Some in H. destruct H as (b12 & H12 & H).
  apply bind_Some in H. destruct H as (b13 & H13 & H).
  apply bind_Some in H. destruct H as (b14 & H14 & H).
  apply bind_Some in H. destruct H as (b15 & H15 & H).
  apply bind_Some in H. destruct H as (moved & Hm & H).
  apply applyJoints_Some in H. destruct H as (clamped & Hc & ->).
  exists b0, b4, b5, b12, b13, b14, b15, moved, clamped.
  repeat (split; [assumption |]).
  unfold commitJoints. cbn [jointValues isColliding ikMode controlMode
                              ikTargetPos lastButton0].
  destruct (checkSelfCollision (computeFK clamped dims)); cbn [negb];
    repeat split; reflexivity.
Qed.

Lemma prevMode_range m : (0 <= m < 3)%Z -> (0 <= prevMode m < 3)%Z.
Proof.
  intros H. unfold prevMode.
  assert (m = 0 \/ m = 1 \/ m = 2)%Z as [-> | [-> | ->]] by lia;
    cbn; lia.
Qed.

Lemma nextMode_range m : (0 <= m < 3)%Z -> (0 <= nextMode m < 3)%Z.
Proof.
  intros H. unfold nextMode.
  assert (m = 0 \/ m = 1 \/ m = 2)%Z as [-> | [-> | ->]] by lia;
    cbn; lia.
Qed.

Lemma buttonEvents_mode_range b0 b4 b5 dims st :
  (0 <= controlMode st < 3)%Z ->
  (0 <= controlMode (buttonEvents b0 b4 b5 dims st) < 3)%Z.
Proof.
  intros H. unfold buttonEvents. cbn [controlMode].
  destruct (negb _); [| assumption].
  destruct (pressed b4 && negb (lastButton4 st));
    destruct (pressed b5 && negb (lastButton5 st));
    auto using prevMode_range, nextMode_range.
Qed.

(** X15: the manual mode stays one of 0, 1, 2 across frames, whichever
    shoulder buttons are pressed. *)
Theorem X15_control_mode_stays_in_range (gp : option Gamepad)
    (dims : RobotDimensions) (configs : list JointConfig)
    (st st' : LoopState) :
  updateLoop gp dims configs st = Some st' ->
  (0 <= controlMode st < 3)%Z ->
  (0 <= controlMode st' < 3)%Z.
Proof.
  intros H Hm.
  destruct gp as [g |]; cbn [updateLoop] in H.
  - apply gamepadFrame_inv in H.
    destruct H as (b0 & b4 & b5 & b12 & b13 & b14 & b15 & moved & clamped
                   & _ & _ & _ & _ & _ & _ & _ & _ & _ & _ & _ & _ & Hcm & _).
    rewrite Hcm. apply buttonEvents_mode_range. assumption.
  - unfold idleFrame in H. destruct (ikMode st).
    + inv_bind H. apply applyJoints_Some in H.
      destruct H as (clamped & _ & ->). exact Hm.
    + injection H as <-. exact Hm.
Qed.

Lemma X15_control_mode_stays_in_range_witness :
  exists st',
    updateLoop (Some idlePad) DEFAULT_DIMENSIONS DEFAULT_JOINTS initialState
    = Some st'
    /\ (0 <= controlMode st' < 3)%Z.
Proof.
  destruct (gamepadFrame_total idlePad DEFAULT_DIMENSIONS DEFAULT_JOINTS
              initialState) as [st' Hst'];
    [cbn; lia | reflexivity | reflexivity |].
  exists st'. split; [exact Hst' |].
  apply (X15_control_mode_stays_in_range (Some idlePad) DEFAULT_DIMENSIONS
           DEFAULT_JOINTS initialState st' Hst').
  cbn. lia.
Defined.

(** X16: on the modes 0, 1, 2 the two shoulder buttons undo each other, and
    three steps in one direction come back to the start. *)
Theorem X16_mode_steps_cycle (m : Z) :
  (0 <= m < 3)%Z ->
  prevMode (nextMode m) = m /\ nextMode (prevMode m) = m
  /\ nextMode (nextMode (nextMode m)) = m
  /\ prevMode (prevMode (prevMode m)) = m.
Proof.
  intros H.
  assert (m = 0 \/ m = 1 \/ m = 2)%Z as [-> | [-> | ->]] by lia;
    repeat split; reflexivity.
Qed.

Lemma X16_mode_steps_cycle_witness :
  prevMode (nextMode 2) = 2%Z /\ nextMode (prevMode 2) = 2%Z
  /\ nextMode (nextMode (nextMode 2)) = 2%Z
  /\ prevMode (prevMode (prevMode 2)) = 2%Z.
Proof. apply (X16_mode_steps_cycle 2). lia. Defined.

(** A stick inside the dead zone reads as 0. *)
Lemma axisAt_deadzone gp k :
  (forall a, nth_error (axes gp) k = Some a -> Rabs a <= stickThreshold) ->
  axisAt gp k = 0.
Proof.
  intros H. unfold axisAt.
  destruct (nth_error (axes gp) k) as [a |]; [| reflexivity].
  destruct (Rgt_dec (Rabs a) stickThreshold) as [Hg | _]; [| reflexivity].
  specialize (H a eq_refl). unfold Rgt in Hg. lra.
Qed.

Lemma setAt_nth i arr : setAt i (nth i arr 0) arr = arr.
Proof.
  revert i. induction arr as [| y arr IH]; intros [| i]; cbn [setAt nth];
    try reflexivity. f_equal. apply IH.
Qed.

Lemma subAt_zero i s arr : subAt i (0 * s) arr = arr.
Proof.
  unfold subAt. replace (nth i arr 0 - 0 * s) with (nth i arr 0) by ring.
  apply setAt_nth.
Qed.

(** Centred sticks and a released d-pad: the manual branch proposes the
    joints it was given. *)
Lemma manualControl_idle mode configs joints proposed :
  manualControl mode 0 0 0 0 false false configs joints = Some proposed ->
  proposed = joints.
Proof.
  unfold manualControl. intros H.
  destruct (Z.eqb mode 0).
  { inv_bind H. inv_bind H. inv_bind H. injection H as <-.
    rewrite !subAt_zero. reflexivity. }
  destruct (Z.eqb mode 1).
  { inv_bind H. inv_bind H. inv_bind H. injection H as <-.
    rewrite !subAt_zero. reflexivity. }
  destruct (Z.eqb mode 2).
  { inv_bind H. inv_bind H. injection H as <-.
    rewrite !subAt_zero. reflexivity. }
  injection H as <-. reflexivity.
Qed.

Lemma Rgtb_abs_zero : Rgtb (Rabs 0) 0 = false.
Proof.
  unfold Rgtb. rewrite Rabs_R0.
  destruct (Rgt_dec 0 0) as [H | _]; [unfold Rgt in H; lra | reflexivity].
Qed.

(** Centred sticks, a released d-pad and the target on the tip: the IK branch
    proposes the joints it was given and leaves the target alone. *)
Lemma ikControl_idle_at_tip dims configs joints moved :
  ikControl 0 0 0 0 false false false false dims configs
    (tipOf (computeFK joints dims)) joints = Some moved ->
  moved = (tipOf (computeFK joints dims), joints).
Proof.
  unfold ikControl. rewrite Rgtb_abs_zero. cbn [orb].
  rewrite solveIK_early_exit
    by (rewrite distanceTo_self; unfold threshold; lra).
  cbn [bind]. intros H. inv_bind H.
  destruct (Req_dec_T 0 0) as [_ | Hn]; [| lra].
  cbn [orb] in H. rewrite subAt_zero in H.
  injection H as <-. reflexivity.
Qed.

Lemma jointValues_after_clamp_id dims configs (old joints clamped : list R) :
  List.length joints = List.length configs ->
  (forall j, jointWithin configs joints j) ->
  clampJoints configs joints = Some clamped ->
  (if checkSelfCollision (computeFK clamped dims) then joints else clamped)
  = joints.
Proof.
  intros Hlen Hin Hc. rewrite clampJoints_id in Hc by assumption.
  injection Hc as <-. destruct (checkSelfCollision _); reflexivity.
Qed.

Lemma dpad_released gp k b :
  (forall k' b', (12 <= k' <= 15)%nat -> buttonAt gp k' = Some b' ->
                 pressed b' = false) ->
  (12 <= k <= 15)%nat -> buttonAt gp k = Some b -> pressed b = false.
Proof. intros H Hk Hb. eapply H; eassumption. Qed.

Lemma gamepadFrame_enable_ik gp dims configs st st' b0 :
  List.length configs = 7%nat ->
  List.length (jointValues st) = 7%nat ->
  (forall j, jointWithin configs (jointValues st) j) ->
  ikMode st = false -> lastButton0 st = false ->
  buttonAt gp 0 = Some b0 -> pressed b0 = true ->
  (forall k a, nth_error (axes gp) k = Some a -> Rabs a <= stickThreshold) ->
  (forall k b, (12 <= k <= 15)%nat -> buttonAt gp k = Some b ->
               pressed b = false) ->
  gamepadFrame gp dims configs st = Some st' ->
  ikMode st' = true
  /\ ikTargetPos st' = tipOf (computeFK (jointValues st) dims)
  /\ jointValues st' = jointValues st.
Proof.
  intros Hlc Hlj Hin Hik Hlast Hb0 Hp0 Hax Hpad H.
  apply gamepadFrame_inv in H.
  destruct H as (b0' & b4 & b5 & b12 & b13 & b14 & b15 & moved & clamped
                 & H0 & _ & _ & H12 & H13 & H14 & H15 & Hm & Hc
                 & Hj & _ & Him & _ & Ht & _).
  rewrite Hb0 in H0. injection H0 as <-.
  assert (Hev : ikMode (buttonEvents b0 b4 b5 dims st) = true).
  { unfold buttonEvents. cbn [ikMode]. rewrite Hp0, Hlast, Hik. reflexivity. }
  assert (Htg : ikTargetPos (buttonEvents b0 b4 b5 dims st)
                = tipOf (computeFK (jointValues st) dims)).
  { unfold buttonEvents. cbn [ikTargetPos]. rewrite Hp0, Hlast, Hik.
    reflexivity. }
  rewrite Hev, Htg in Hm.
  rewrite !axisAt_deadzone in Hm by (intros a Ha; eapply Hax; eassumption).
  rewrite (Hpad 12%nat b12), (Hpad 13%nat b13), (Hpad 14%nat b14),
    (Hpad 15%nat b15) in Hm by (lia || assumption).
  apply ikControl_idle_at_tip in Hm. subst moved. cbn [fst snd] in *.
  split; [congruence |]. split; [assumption |].
  rewrite Hj. apply (jointValues_after_clamp_id dims configs (jointValues st));
    [lia | assumption | assumption].
Qed.

(** X17: pressing A to switch IK on, with the sticks in the dead zone and the
    d-pad released, snaps the target to the tip and leaves every joint where
    it was (for a pose within its limits). *)
Theorem X17_enabling_ik_keeps_pose (gp : Gamepad) (dims : RobotDimensions)
    (configs : list JointConfig) (st st' : LoopState) (b0 : GamepadButton) :
  List.length configs = 7%nat ->
  List.length (jointValues st) = 7%nat ->
  (forall j, jointWithin configs (jointValues st) j) ->
  ikMode st = false -> lastButton0 st = false ->
  buttonAt gp 0 = Some b0 -> pressed b0 = true ->
  (forall k a, nth_error (axes gp) k = Some a -> Rabs a <= 0.1) ->
  (forall k b, (12 <= k <= 15)%nat -> buttonAt gp k = Some b ->
               pressed b = false) ->
  gamepadFrame gp dims configs st = Some st' ->
  ikMode st' = true
  /\ ikTargetPos st' = tipOf (computeFK (jointValues st) dims)
  /\ jointValues st' = jointValues st.
Proof. apply gamepadFrame_enable_ik. Qed.

Lemma pressAPad_deadzone k a :
  nth_error (axes pressAPad) k = Some a -> Rabs a <= 0.1.
Proof.
  unfold pressAPad. cbn [axes]. intros H.
  do 4 (destruct k as [| k];
        [injection H as <-; unfold Rabs; destruct (Rcase_abs _); lra |]).
  destruct k; discriminate H.
Qed.

Lemma pressAPad_dpad k b :
  (12 <= k <= 15)%nat -> buttonAt pressAPad k = Some b -> pressed b = false.
Proof.
  intros Hk H. unfold buttonAt, pressAPad in H. cbn [buttons repeat] in H.
  do 12 (destruct k as [| k]; [lia |]).
  do 4 (destruct k as [| k]; [injection H as <-; reflexivity |]). lia.
Qed.

Lemma X17_enabling_ik_keeps_pose_witness :
  exists st',
    gamepadFrame pressAPad DEFAULT_DIMENSIONS DEFAULT_JOINTS initialState
    = Some st'
    /\ ikMode st' = true
    /\ ikTargetPos st'
       = tipOf (computeFK (jointValues initialState) DEFAULT_DIMENSIONS)
    /\ jointValues st' = jointValues initialState.
Proof.
  destruct (gamepadFrame_total pressAPad DEFAULT_DIMENSIONS DEFAULT_JOINTS
              initialState) as [st' Hst'];
    [cbn; lia | reflexivity | reflexivity |].
  exists st'. split; [exact Hst' |].
  apply (X17_enabling_ik_keeps_pose pressAPad DEFAULT_DIMENSIONS
           DEFAULT_JOINTS initialState st' (mkGamepadButton true 1)).
  - reflexivity.
  - reflexivity.
  - exact defaultAngles_within.
  - reflexivity.
  - reflexivity.
  - reflexivity.
  - reflexivity.
  - exact pressAPad_deadzone.
  - exact pressAPad_dpad.
  - exact Hst'.
Defined.

Lemma toggle_then_idle_frame dims configs st st' :
  List.length configs = 7%nat ->
  List.length (jointValues st) = 7%nat ->
  (forall j, jointWithin configs (jointValues st) j) ->
  updateLoop None dims configs (toggleIkMode dims st) = Some st' ->
  jointValues st' = jointValues st
  /\ ikMode st' = negb (ikMode st).
Proof.
  intros Hlc Hlj Hin H. cbn [updateLoop] in H. unfold idleFrame in H.
  unfold toggleIkMode in H. cbn [ikMode ikTargetPos jointValues] in H.
  destruct (ikMode st); cbn [negb] in H.
  - injection H as <-. split; reflexivity.
  - rewrite solveIK_early_exit in H
      by (rewrite distanceTo_self; unfold threshold; lra).
    cbn [bind] in H. apply applyJoints_Some in H.
    destruct H as (clamped & Hc & ->).
    unfold commitJoints. cbn [jointValues ikMode]. split; [| reflexivity].
    rewrite clampJoints_id in Hc by (assumption || lia).
    injection Hc as <-. destruct (negb _); reflexivity.
Qed.

(** X18: flipping the IK switch of the overlay, on or off, and running the
    next frame without a gamepad leaves every joint where it was (for a pose
    within its limits): switching on snaps the target to the tip, so the
    solver has nothing to do. *)
Theorem X18_overlay_toggle_keeps_pose (dims : RobotDimensions)
    (configs : list JointConfig) (st st' : LoopState) :
  List.length configs = 7%nat ->
  List.length (jointValues st) = 7%nat ->
  (forall j, jointWithin configs (jointValues st) j) ->
  updateLoop None dims configs (toggleIkMode dims st) = Some st' ->
  jointValues st' = jointValues st
  /\ ikMode st' = negb (ikMode st).
Proof. apply toggle_then_idle_frame. Qed.

Lemma X18_overlay_toggle_keeps_pose_witness :
  exists st',
    updateLoop None DEFAULT_DIMENSIONS DEFAULT_JOINTS
      (toggleIkMode DEFAULT_DIMENSIONS initialState) = Some st'
    /\ jointValues st' = jointValues initialState
    /\ ikMode st' = negb (ikMode initialState).
Proof.
  destruct (updateLoop_total None DEFAULT_DIMENSIONS DEFAULT_JOINTS
              (toggleIkMode DEFAULT_DIMENSIONS initialState)) as [st' Hst'];
    [discriminate | reflexivity | reflexivity |].
  exists st'. split; [exact Hst' |].
  apply (X18_overlay_toggle_keeps_pose DEFAULT_DIMENSIONS DEFAULT_JOINTS
           initialState st');
    [reflexivity | reflexivity | exact defaultAngles_within | exact Hst'].
Defined.

Lemma gamepadFrame_manual_idle gp dims configs st st' :
  List.length configs = 7%nat ->
  List.length (jointValues st) = 7%nat ->
  (forall j, jointWithin configs (jointValues st) j) ->
  ikMode st = false ->
  (forall b, buttonAt gp 0 = Some b -> pressed b = false) ->
  (forall k a, nth_error (axes gp) k = Some a -> Rabs a <= stickThreshold) ->
  (forall k b, (12 <= k <= 15)%nat -> buttonAt gp k = Some b ->
               pressed b = false) ->
  gamepadFrame gp dims configs st = Some st' ->
  jointValues st' = jointValues st /\ ikTargetPos st' = ikTargetPos st.
Proof.
  intros Hlc Hlj Hin Hik Hb0 Hax Hpad H.
  apply gamepadFrame_inv in H.
  destruct H as (b0 & b4 & b5 & b12 & b13 & b14 & b15 & moved & clamped
                 & H0 & _ & _ & H12 & H13 & H14 & H15 & Hm & Hc
                 & Hj & _ & _ & _ & Ht & _).
  assert (Hev : ikMode (buttonEvents b0 b4 b5 dims st) = false).
  { unfold buttonEvents. cbn [ikMode]. rewrite (Hb0 b0 H0), Hik. reflexivity. }
  assert (Htg : ikTargetPos (buttonEvents b0 b4 b5 dims st) = ikTargetPos st).
  { unfold buttonEvents. cbn [ikTargetPos]. rewrite (Hb0 b0 H0). reflexivity. }
  rewrite Hev, Htg in Hm.
  rewrite !axisAt_deadzone in Hm by (intros a Ha; eapply Hax; eassumption).
  rewrite (Hpad 12%nat b12), (Hpad 13%nat b13) in Hm by (lia || assumption).
  inv_bind Hm. apply manualControl_idle in Ha. subst a.
  injection Hm as <-. cbn [fst snd] in *.
  split; [| assumption].
  rewrite Hj. apply (jointValues_after_clamp_id dims configs (jointValues st));
    [lia | assumption | assumption].
Qed.

(** X19: in manual mode, stick deflections of at most 0.1 are ignored: with
    button A and the d-pad released, the frame moves no joint and leaves the
    IK target alone (for a pose within its limits), in every control mode. *)
Theorem X19_dead_zone_holds_pose (gp : Gamepad) (dims : RobotDimensions)
    (configs : list JointConfig) (st st' : LoopState) :
  List.length configs = 7%nat ->
  List.length (jointValues st) = 7%nat ->
  (forall j, jointWithin configs (jointValues st) j) ->
  ikMode st = false ->
  (forall b, buttonAt gp 0 = Some b -> pressed b = false) ->
  (forall k a, nth_error (axes gp) k = Some a -> Rabs a <= 0.1) ->
  (forall k b, (12 <= k <= 15)%nat -> buttonAt gp k = Some b ->
               pressed b = false) ->
  gamepadFrame gp dims configs st = Some st' ->
  jointValues st' = jointValues st /\ ikTargetPos st' = ikTargetPos st.
Proof. apply gamepadFrame_manual_idle. Qed.

Lemma driftPad_deadzone k a :
  nth_error (axes driftPad) k = Some a -> Rabs a <= 0.1.
Proof.
  unfold driftPad. cbn [axes]. intros H.
  do 4 (destruct k as [| k];
        [injection H as <-; unfold Rabs; destruct (Rcase_abs _); lra |]).
  destruct k; discriminate H.
Qed.

Lemma driftPad_released k b : buttonAt driftPad k = Some b -> pressed b = false.
Proof.
  intros H. unfold buttonAt, driftPad in H. cbn [buttons repeat] in H.
  do 16 (destruct k as [| k]; [injection H as <-; reflexivity |]).
  destruct k; discriminate H.
Qed.

Lemma X19_dead_zone_holds_pose_witness :
  exists st',
    gamepadFrame driftPad DEFAULT_DIMENSIONS DEFAULT_JOINTS initialState
    = Some st'
    /\ jointValues st' = jointValues initialState
    /\ ikTargetPos st' = ikTargetPos initialState.
Proof.
  destruct (gamepadFrame_total driftPad DEFAULT_DIMENSIONS DEFAULT_JOINTS
              initialState) as [st' Hst'];
    [cbn; lia | reflexivity | reflexivity |].
  exists st'. split; [exact Hst' |].
  apply (X19_dead_zone_holds_pose driftPad DEFAULT_DIMENSIONS DEFAULT_JOINTS
           initialState st').
  - reflexivity.
  - reflexivity.
  - exact defaultAngles_within.
  - reflexivity.
  - intros b Hb. exact (driftPad_released 0 b Hb).
  - exact driftPad_deadzone.
  - intros k b _ Hb. exact (driftPad_released k b Hb).
  - exact Hst'.
Defined.

Lemma gamepadFrame_button0 gp dims configs st st' b0 :
  buttonAt gp 0 = Some b0 ->
  gamepadFrame gp dims configs st = Some st' ->
  lastButton0 st' = pressed b0
  /\ ikMode st'
     = (if pressed b0 && negb (lastButton0 st) then negb (ikMode st)
        else ikMode st).
Proof.
  intros Hb0 H. apply gamepadFrame_inv in H.
  destruct H as (b0' & b4 & b5 & b12 & b13 & b14 & b15 & moved & clamped
                 & H0 & _ & _ & _ & _ & _ & _ & _ & _
                 & _ & _ & Him & _ & _ & Hl).
  rewrite Hb0 in H0. injection H0 as <-.
  split; [assumption |]. rewrite Him. reflexivity.
Qed.

(** X20: button A is edge-triggered: pressed in one frame it flips the IK
    mode, held down through the next frame it does not flip it again. *)
Theorem X20_held_button_toggles_once (gp1 gp2 : Gamepad)
    (dims : RobotDimensions) (configs : list JointConfig)
    (st st1 st2 : LoopState) (b b' : GamepadButton) :
  lastButton0 st = false ->
  buttonAt gp1 0 = Some b -> pressed b = true ->
  buttonAt gp2 0 = Some b' -> pressed b' = true ->
  gamepadFrame gp1 dims configs st = Some st1 ->
  gamepadFrame gp2 dims configs st1 = Some st2 ->
  ikMode st1 = negb (ikMode st) /\ ikMode st2 = ikMode st1.
Proof.
  intros Hlast Hb Hp Hb' Hp' H1 H2.
  destruct (gamepadFrame_button0 _ _ _ _ _ _ Hb H1) as [Hl1 Hm1].
  destruct (gamepadFrame_button0 _ _ _ _ _ _ Hb' H2) as [_ Hm2].
  rewrite Hp, Hlast in Hm1. cbn in Hm1.
  rewrite Hp', Hl1, Hp in Hm2. cbn in Hm2.
  split; assumption.
Qed.

Lemma X20_held_button_toggles_once_witness :
  exists st1 st2,
    gamepadFrame pressAPad DEFAULT_DIMENSIONS DEFAULT_JOINTS initialState
    = Some st1
    /\ gamepadFrame pressAPad DEFAULT_DIMENSIONS DEFAULT_JOINTS st1 = Some st2
    /\ ikMode st1 = negb (ikMode initialState) /\ ikMode st2 = ikMode st1.
Proof.
  destruct (gamepadFrame_total pressAPad DEFAULT_DIMENSIONS DEFAULT_JOINTS
              initialState) as [st1 H1];
    [cbn; lia | reflexivity | reflexivity |].
  assert (Hj1 : jointValues st1 = jointValues initialState).
  { apply (gamepadFrame_enable_ik pressAPad DEFAULT_DIMENSIONS DEFAULT_JOINTS
             initialState st1 (mkGamepadButton true 1));
      try reflexivity;
      [exact defaultAngles_within | exact pressAPad_deadzone
       | exact pressAPad_dpad | exact H1]. }
  destruct (gamepadFrame_total pressAPad DEFAULT_DIMENSIONS DEFAULT_JOINTS st1)
    as [st2 H2]; [cbn; lia | reflexivity | rewrite Hj1; reflexivity |].
  exists st1, st2. split; [exact H1 |]. split; [exact H2 |].
  apply (X20_held_button_toggles_once pressAPad pressAPad DEFAULT_DIMENSIONS
           DEFAULT_JOINTS initialState st1 st2
           (mkGamepadButton true 1) (mkGamepadButton true 1));
    try reflexivity; assumption.
Defined.

(** A joint outside the driven set keeps its proposed value. *)
Lemma manualControl_frame mode a0 a1 a2 a3 dU dD configs joints proposed j :
  manualControl mode a0 a1 a2 a3 dU dD configs joints = Some proposed ->
  ~ In j (modeJoints mode) ->
  nth j proposed 0 = nth j joints 0.
Proof.
  unfold manualControl, modeJoints. intros H Hj.
  destruct (Z.eqb mode 0).
  { inv_bind H. inv_bind H. inv_bind H. injection H as <-.
    assert (j <> 0%nat /\ j <> 1%nat /\ j <> 2%nat) as (H0 & H1 & H2)
      by (repeat split; intros ->; apply Hj; cbn; auto).
    unfold subAt. rewrite !nth_setAt_other by congruence. reflexivity. }
  destruct (Z.eqb mode 1).
  { inv_bind H. inv_bind H. inv_bind H. injection H as <-.
    assert (j <> 2%nat /\ j <> 3%nat /\ j <> 4%nat) as (H2 & H3 & H4)
      by (repeat split; intros ->; apply Hj; cbn; auto).
    unfold subAt. rewrite !nth_setAt_other by congruence. reflexivity. }
  destruct (Z.eqb mode 2).
  { inv_bind H. inv_bind H. injection H as <-.
    assert (j <> 5%nat /\ j <> 6%nat /\ j <> 3%nat) as (H5 & H6 & H3)
      by (repeat split; intros ->; apply Hj; cbn; auto).
    unfold addAt, subAt.
    destruct dD, dU; rewrite !nth_setAt_other by congruence; reflexivity. }
  injection H as <-. reflexivity.
Qed.

Lemma clampJoints_nth_id configs vals r j :
  List.length vals = List.length configs ->
  clampJoints configs vals = Some r ->
  jointWithin configs vals j ->
  nth j r 0 = nth j vals 0.
Proof.
  intros Hlen Hc Hin.
  destruct (nth_error configs j) as [cfg |] eqn:Hcfg.
  - assert (Hj : (j < List.length vals)%nat)
      by (rewrite Hlen; apply nth_error_Some; congruence).
    rewrite (clampJoints_nth _ _ _ _ _ Hc Hcfg Hj).
    apply clampTo_id, Hin. assumption.
  - apply nth_error_None in Hcfg.
    rewrite !nth_overflow;
      [reflexivity | lia | rewrite (clampJoints_length _ _ _ Hc); lia].
Qed.

Lemma gamepadFrame_manual_frame gp dims configs st st' j :
  List.length configs = 7%nat ->
  List.length (jointValues st) = 7%nat ->
  jointWithin configs (jointValues st) j ->
  gamepadFrame gp dims configs st = Some st' ->
  ikMode st' = false ->
  ~ In j (modeJoints (controlMode st')) ->
  nth j (jointValues st') 0 = nth j (jointValues st) 0.
Proof.
  intros Hlc Hlj Hin H Hik Hj.
  apply gamepadFrame_inv in H.
  destruct H as (b0 & b4 & b5 & b12 & b13 & b14 & b15 & moved & clamped
                 & _ & _ & _ & _ & _ & _ & _ & Hm & Hc
                 & Hjv & _ & Him & Hcm & _ & _).
  rewrite Hjv. destruct (checkSelfCollision _); [reflexivity |].
  rewrite <- Him, Hik in Hm. inv_bind Hm. injection Hm as <-.
  cbn [snd] in Hc. rewrite <- Hcm in Ha.
  pose proof (manualControl_length _ _ _ _ _ _ _ _ _ _ Ha) as Hlen.
  pose proof (manualControl_frame _ _ _ _ _ _ _ _ _ _ j Ha Hj) as Hnth.
  rewrite (clampJoints_nth_id configs a clamped j); [assumption | lia | assumption |].
  intros cfg Hcfg. rewrite Hnth. apply Hin. assumption.
Qed.

(** X21: which joints a manual mode can move: mode 0 drives joints 0, 1, 2,
    mode 1 drives 2, 3, 4 and mode 2 drives 5, 6 and (through the d-pad) 3.
    A frame in manual mode leaves every other joint that is within its
    limits exactly where it was; in particular mode 2 never moves joint 4. *)
Theorem X21_manual_mode_moves_only_its_joints (gp : Gamepad)
    (dims : RobotDimensions) (configs : list JointConfig)
    (st st' : LoopState) (j : nat) :
  List.length configs = 7%nat ->
  List.length (jointValues st) = 7%nat ->
  jointWithin configs (jointValues st) j ->
  gamepadFrame gp dims configs st = Some st' ->
  ikMode st' = false ->
  ~ In j (modeJoints (controlMode st')) ->
  nth j (jointValues st') 0 = nth j (jointValues st) 0.
Proof. apply gamepadFrame_manual_frame. Qed.

Lemma gamepadFrame_modes_kept gp dims configs st st' :
  (forall k b, In k [0; 4; 5]%nat -> buttonAt gp k = Some b ->
               pressed b = false) ->
  gamepadFrame gp dims configs st = Some st' ->
  ikMode st' = ikMode st /\ controlMode st' = controlMode st.
Proof.
  intros Hrel H. apply gamepadFrame_inv in H.
  destruct H as (b0 & b4 & b5 & b12 & b13 & b14 & b15 & moved & clamped
                 & H0 & H4 & H5 & _ & _ & _ & _ & _ & _
                 & _ & _ & Him & Hcm & _ & _).
  rewrite Him, Hcm. unfold buttonEvents. cbn [ikMode controlMode].
  rewrite (Hrel 0%nat b0), (Hrel 4%nat b4), (Hrel 5%nat b5)
    by (assumption || (cbn; auto)).
  cbn [andb]. destruct (negb (ikMode st)); split; reflexivity.
Qed.

Lemma steerPad_released k b : buttonAt steerPad k = Some b -> pressed b = false.
Proof.
  intros H. unfold buttonAt, steerPad in H. cbn [buttons repeat] in H.
  do 16 (destruct k as [| k]; [injection H as <-; reflexivity |]).
  destruct k; discriminate H.
Qed.

Lemma X21_manual_mode_moves_only_its_joints_witness :
  exists st',
    gamepadFrame steerPad DEFAULT_DIMENSIONS DEFAULT_JOINTS initialState
    = Some st'
    /\ nth 4 (jointValues st') 0 = nth 4 (jointValues initialState) 0.
Proof.
  destruct (gamepadFrame_total steerPad DEFAULT_DIMENSIONS DEFAULT_JOINTS
              initialState) as [st' Hst'];
    [cbn; lia | reflexivity | reflexivity |].
  exists st'. split; [exact Hst' |].
  destruct (gamepadFrame_modes_kept steerPad DEFAULT_DIMENSIONS DEFAULT_JOINTS
              initialState st') as [Hik Hcm];
    [intros k b _ Hb; exact (steerPad_released k b Hb) | exact Hst' |].
  apply (X21_manual_mode_moves_only_its_joints steerPad DEFAULT_DIMENSIONS
           DEFAULT_JOINTS initialState st' 4).
  - reflexivity.
  - reflexivity.
  - exact (defaultAngles_within 4).
  - exact Hst'.
  - rewrite Hik. reflexivity.
  - rewrite Hcm. cbn. intuition lia.
Defined.

Lemma gamepadFrame_inverted_limits gp dims configs st st' j cfg :
  List.length configs = 7%nat ->
  List.length (jointValues st) = 7%nat ->
  nth_error configs j = Some cfg ->
  max cfg < min cfg ->
  gamepadFrame gp dims configs st = Some st' ->
  isColliding st' = false ->
  nth j (jointValues st') 0 = min cfg.
Proof.
  intros Hlc Hlj Hcfg Hinv H Hfree.
  apply gamepadFrame_inv in H.
  destruct H as (b0 & b4 & b5 & b12 & b13 & b14 & b15 & moved & clamped
                 & _ & _ & _ & _ & _ & _ & _ & Hm & Hc
                 & Hjv & Hcol & _ & _ & _ & _).
  rewrite Hjv. rewrite Hcol in Hfree. rewrite Hfree.
  assert (Hlen : List.length (snd moved) = 7%nat).
  { rewrite <- Hlj.
    destruct (ikMode (buttonEvents b0 b4 b5 dims st)).
    - eapply ikControl_length. eassumption.
    - inv_bind Hm. injection Hm as <-. cbn [snd].
      eapply manualControl_length. eassumption. }
  assert (Hj : (j < List.length (snd moved))%nat).
  { rewrite Hlen, <- Hlc. apply nth_error_Some. congruence. }
  rewrite (clampJoints_nth _ _ _ _ _ Hc Hcfg Hj).
  apply clampTo_inverted. assumption.
Qed.

(** X22: the limits are not required to be ordered, and a joint whose
    [min] lies above its [max] is pinned: every frame with a gamepad that
    commits a pose commits [min] for that joint, whatever the sticks or the
    solver asked for. *)
Theorem X22_inverted_limits_pin_joint (gp : Gamepad) (dims : RobotDimensions)
    (configs : list JointConfig) (st st' : LoopState) (j : nat)
    (cfg : JointConfig) :
  List.length configs = 7%nat ->
  List.length (jointValues st) = 7%nat ->
  nth_error configs j = Some cfg ->
  max cfg < min cfg ->
  gamepadFrame gp dims configs st = Some st' ->
  isColliding st' = false ->
  nth j (jointValues st') 0 = min cfg.
Proof. apply gamepadFrame_inverted_limits. Qed.

Lemma idlePad_deadzone k a :
  nth_error (axes idlePad) k = Some a -> Rabs a <= stickThreshold.
Proof.
  unfold idlePad, stickThreshold. cbn [axes]. intros H.
  do 4 (destruct k as [| k];
        [injection H as <-; rewrite Rabs_R0; lra |]).
  destruct k; discriminate H.
Qed.

Lemma idlePad_released k b : buttonAt idlePad k = Some b -> pressed b = false.
Proof.
  intros H. unfold buttonAt, idlePad in H. cbn [buttons repeat] in H.
  do 16 (destruct k as [| k]; [injection H as <-; reflexivity |]).
  destruct k; discriminate H.
Qed.

Lemma invertedRollLimits_clamp clamped :
  clampJoints invertedRollLimits zeroAngles = Some clamped ->
  clamped = setAt 6 1 zeroAngles.
Proof.
  intros Hc. pose proof PI_RGT_0 as Hpi.
  apply (nth_ext _ _ 0 0).
  - rewrite (clampJoints_length _ _ _ Hc). reflexivity.
  - rewrite (clampJoints_length _ _ _ Hc). intros j Hj.
    cbn [List.length zeroAngles] in Hj.
    do 6 (destruct j as [| j];
          [erewrite (clampJoints_nth invertedRollLimits zeroAngles clamped
                       _ _ Hc); [| reflexivity | cbn; lia];
           apply clampTo_id; unfold withinLimit; cbn; lra |]).
    destruct j as [| j]; [| cbn in Hj; lia].
    erewrite (clampJoints_nth invertedRollLimits zeroAngles clamped _ _ Hc);
      [| reflexivity | cbn; lia].
    apply clampTo_inverted. cbn. lra.
Qed.

Lemma X22_inverted_limits_pin_joint_witness :
  exists st',
    gamepadFrame idlePad DEFAULT_DIMENSIONS invertedRollLimits straightState
    = Some st'
    /\ nth 6 (jointValues st') 0 = 1.
Proof.
  destruct (gamepadFrame_total idlePad DEFAULT_DIMENSIONS invertedRollLimits
              straightState) as [st' Hst'];
    [cbn; lia | reflexivity | reflexivity |].
  exists st'. split; [exact Hst' |].
  apply (X22_inverted_limits_pin_joint idlePad DEFAULT_DIMENSIONS
           invertedRollLimits straightState st' 6
           (mkJointConfig 6 "J7: Wrist Roll" 1 0 AxisZ 0 0.05)).
  - reflexivity.
  - reflexivity.
  - reflexivity.
  - cbn [min max]. lra.
  - exact Hst'.
  - pose proof Hst' as H. apply gamepadFrame_inv in H.
    destruct H as (b0 & b4 & b5 & b12 & b13 & b14 & b15 & moved & clamped
                   & H0 & _ & _ & H12 & H13 & _ & _ & Hm & Hc
                   & _ & Hcol & _ & _ & _ & _).
    rewrite Hcol.
    assert (Hev : ikMode (buttonEvents b0 b4 b5 DEFAULT_DIMENSIONS
                            straightState) = false).
    { unfold buttonEvents. cbn [ikMode].
      rewrite (idlePad_released 0 b0 H0). reflexivity. }
    rewrite Hev in Hm.
    rewrite !axisAt_deadzone in Hm by (intros a Ha; eapply idlePad_deadzone; eassumption).
    rewrite (idlePad_released 12 b12 H12), (idlePad_released 13 b13 H13) in Hm.
    inv_bind Hm. apply manualControl_idle in Ha. subst a.
    injection Hm as <-. cbn [snd] in Hc.
    apply invertedRollLimits_clamp in Hc. subst clamped.
    rewrite computeFK_wrist_roll. apply zero_pose_collision_free.
Defined.

(** ** How far one call of the solver can turn a joint *)

Lemma ikRotAngle_bound toEnd toTarget worldAxis :
  Rabs (ikRotAngle toEnd toTarget worldAxis) <= PI / 2.
Proof.
  unfold ikRotAngle. cbv zeta.
  match goal with
  | |- context [acos ?x] =>
      pose proof (acos_bound x) as Hb; set (ac := acos x) in *
  end.
  destruct (Rlt_dec _ 0); unfold Rabs; destruct (Rcase_abs _); lra.
Qed.

Lemma clamp_step lo hi x r :
  lo <= x <= hi -> Rabs (Rmax lo (Rmin hi (x + r)) - x) <= Rabs r.
Proof.
  intros H. unfold Rmax, Rmin.
  destruct (Rle_dec hi (x + r)); destruct (Rle_dec lo _);
    unfold Rabs; destruct (Rcase_abs _); destruct (Rcase_abs r); lra.
Qed.

(** One joint step turns its joint by at most a quarter turn. *)
Lemma ikJointStep_turn targetPos dims configs positions st i st' :
  ikJointStep targetPos dims configs positions st i = Some st' ->
  jointWithin configs (newAngles st) i ->
  Rabs (nth i (newAngles st') 0 - nth i (newAngles st) 0) <= PI / 2.
Proof.
  pose proof PI_RGT_0 as Hpi.
  unfold ikJointStep. intros H Hin.
  destruct (Rlt_dec _ 0.0001).
  { injection H as <-.
    replace (_ - _) with 0 by ring. rewrite Rabs_R0. lra. }
  destruct (nth_error configs i) as [cfg |] eqn:Hcfg; [| discriminate].
  match type of H with
  | Some (mkIKState _ ?e) = Some _ => set (e' := e) in H; clearbody e'
  end.
  injection H as <-. cbn [newAngles].
  match goal with
  | |- context [ikRotAngle ?a ?b ?c] =>
      pose proof (ikRotAngle_bound a b c) as Hr;
      set (rot := ikRotAngle a b c) in *
  end.
  destruct (Nat.lt_ge_cases i (List.length (newAngles st))) as [Hlt | Hge].
  - rewrite (nth_setAt_same i _ (setAt i _ _)) by (rewrite setAt_length; assumption).
    rewrite nth_setAt_same by assumption.
    eapply Rle_trans; [apply clamp_step; apply Hin; assumption | assumption].
  - rewrite !setAt_beyond by (rewrite ?setAt_length; assumption).
    replace (_ - _) with 0 by ring. rewrite Rabs_R0. lra.
Qed.

Lemma ikSweep_turn targetPos dims configs positions js st st' j :
  NoDup js ->
  ikSweep targetPos dims configs positions js st = Some st' ->
  jointWithin configs (newAngles st) j ->
  Rabs (nth j (newAngles st') 0 - nth j (newAngles st) 0) <= PI / 2.
Proof.
  pose proof PI_RGT_0 as Hpi.
  intros Hnd. revert st.
  induction js as [| i js IH]; intros st H Hin; cbn [ikSweep] in H.
  - injection H as <-. replace (_ - _) with 0 by ring. rewrite Rabs_R0. lra.
  - destruct (ikJointStep _ _ _ _ st i) as [st1 |] eqn:H1; [| discriminate].
    inversion Hnd as [| ? ? Hni Hnd']; subst.
    destruct (Nat.eq_dec i j) as [-> | Hne].
    + rewrite (nth_of_nth_error _ _ _
                 (ikSweep_frame _ _ _ _ _ _ _ j H Hni)).
      eapply ikJointStep_turn; eassumption.
    + rewrite <- (nth_of_nth_error _ _ _
                    (ikJointStep_frame _ _ _ _ _ _ _ j H1 Hne)).
      apply (IH Hnd' st1 H).
      intros cfg Hcfg.
      rewrite (nth_of_nth_error _ _ _
                 (ikJointStep_frame _ _ _ _ _ _ _ j H1 Hne)).
      apply Hin. assumption.
Qed.

Lemma sweepJoints_NoDup : NoDup sweepJoints.
Proof.
  unfold sweepJoints.
  repeat (constructor; [cbn; intuition lia |]). constructor.
Qed.

Lemma ikPass_turn targetPos dims configs angles angles' j :
  ikPass targetPos dims configs angles = Some angles' ->
  jointWithin configs angles j ->
  Rabs (nth j angles' 0 - nth j angles 0) <= PI / 2.
Proof.
  unfold ikPass. intros H Hin.
  destruct (ikSweep _ _ _ _ _ _) as [st |] eqn:Hs; [| discriminate].
  injection H as <-.
  apply (ikSweep_turn _ _ _ _ _ _ _ j sweepJoints_NoDup Hs). exact Hin.
Qed.

Lemma ikIterate_turn fuel targetPos dims configs angles result j :
  (forall cfg, In cfg configs -> min cfg <= max cfg) ->
  ikIterate fuel targetPos dims configs angles = Some result ->
  jointWithin configs angles j ->
  Rabs (nth j result 0 - nth j angles 0) <= INR fuel * (PI / 2).
Proof.
  pose proof PI_RGT_0 as Hpi.
  intros Hord. revert angles.
  induction fuel as [| fuel IH]; intros angles H Hin; cbn [ikIterate] in H.
  - injection H as <-. replace (_ - _) with 0 by ring.
    rewrite Rabs_R0. cbn. lra.
  - assert (Hfuel : 0 <= INR fuel * (PI / 2))
      by (apply Rmult_le_pos; [apply pos_INR | lra]).
    rewrite S_INR.
    destruct (Rlt_dec _ threshold).
    { injection H as <-. replace (_ - _) with 0 by ring.
      rewrite Rabs_R0. lra. }
    destruct (ikPass targetPos dims configs angles) as [angles' |] eqn:Hp;
      [| discriminate].
    pose proof (ikPass_turn _ _ _ _ _ j Hp Hin) as Hstep.
    pose proof (IH angles' H
                  (ikPass_within targetPos dims configs Hord _ _ j Hp Hin))
      as Hrest.
    replace (nth j result 0 - nth j angles 0)
      with ((nth j result 0 - nth j angles' 0)
            + (nth j angles' 0 - nth j angles 0)) by ring.
    eapply Rle_trans; [apply Rabs_triang |]. lra.
Qed.

(** X23: the damping bounds the motion: one call of the solver turns a joint
    that starts within its limits by at most five quarter turns, one per
    backward pass. *)
Theorem X23_solver_turn_is_bounded (targetPos : Vector3) (angles : list R)
    (dims : RobotDimensions) (configs : list JointConfig)
    (result : list R) (j : nat) :
  List.length angles = 7%nat ->
  List.length configs = 7%nat ->
  (forall cfg, In cfg configs -> min cfg <= max cfg) ->
  jointWithin configs angles j ->
  solveIK targetPos angles dims configs = Some result ->
  Rabs (nth j result 0 - nth j angles 0) <= 5 * (PI / 2).
Proof.
  intros _ _ Hord Hin H. unfold solveIK, maxIterations in H.
  pose proof (ikIterate_turn 5 _ _ _ _ _ j Hord H Hin) as Hb.
  replace (INR 5) with 5 in Hb by (cbn; ring). exact Hb.
Qed.

Lemma X23_solver_turn_is_bounded_witness :
  exists result,
    solveIK (mkVector3 0 1.5 1.5) defaultAngles DEFAULT_DIMENSIONS
      DEFAULT_JOINTS = Some result
    /\ Rabs (nth 5 result 0 - nth 5 defaultAngles 0) <= 5 * (PI / 2).
Proof.
  destruct (solveIK_total (mkVector3 0 1.5 1.5) defaultAngles
              DEFAULT_DIMENSIONS DEFAULT_JOINTS) as [result Hr]; [cbn; lia |].
  exists result. split; [exact Hr |].
  apply (X23_solver_turn_is_bounded (mkVector3 0 1.5 1.5) defaultAngles
           DEFAULT_DIMENSIONS DEFAULT_JOINTS result 5);
    [reflexivity | reflexivity | exact DEFAULT_JOINTS_ordered
     | exact (defaultAngles_within 5) | exact Hr].
Defined.

(** ** The limit sliders *)

Lemma mathRound_integer (d : Z) : mathRound (IZR d) = d.
Proof.
  unfold mathRound. symmetry. apply Int_part_spec. lra.
Qed.

Lemma shownDegrees_of_degrees (d : Z) : shownDegrees (IZR d * (PI / 180)) = d.
Proof.
  unfold shownDegrees.
  replace (IZR d * (PI / 180) * 180 / PI) with (IZR d)
    by (field; apply PI_neq0).
  apply mathRound_integer.
Qed.

Lemma limitOf_withLimit cfg field rad : limitOf field (withLimit cfg field rad) = rad.
Proof. destruct field; reflexivity. Qed.

Lemma handleLimitChange_nth cfgs i field value cfg :
  nth_error cfgs i = Some cfg ->
  nth_error (handleLimitChange cfgs i field value) i
  = Some (withLimit cfg field (value * (PI / 180))).
Proof.
  revert i. induction cfgs as [| c cfgs IH]; intros [| i] H;
    cbn in H; try discriminate.
  - injection H as ->. reflexivity.
  - cbn [handleLimitChange nth_error]. apply IH. assumption.
Qed.

(** X24: a limit slider shows what was set: after the handler stores the
    whole number of degrees [d] for a bound of joint [i], the degrees
    displayed for that bound are [d] again. *)
Theorem X24_limit_slider_round_trip (cfgs : list JointConfig) (i : nat)
    (field : LimitField) (d : Z) (cfg : JointConfig) :
  nth_error cfgs i = Some cfg ->
  option_map (fun c => shownDegrees (limitOf field c))
    (nth_error (handleLimitChange cfgs i field (IZR d)) i)
  = Some d.
Proof.
  intros H. rewrite (handleLimitChange_nth _ _ _ _ _ H). cbn [option_map].
  rewrite limitOf_withLimit, shownDegrees_of_degrees. reflexivity.
Qed.

Lemma X24_limit_slider_round_trip_witness :
  option_map (fun c => shownDegrees (limitOf FieldMax c))
    (nth_error (handleLimitChange DEFAULT_JOINTS 1 FieldMax (IZR (-45))) 1)
  = Some (-45)%Z.
Proof.
  apply (X24_limit_slider_round_trip DEFAULT_JOINTS 1 FieldMax (-45)
           (mkJointConfig 1 "J2: Shoulder Pitch" (- PI / 2) (PI / 2) AxisX 0
              0.02)).
  reflexivity.
Defined.

(** ** The IK target under stick control *)

Lemma gamepadFrame_target_floor gp dims configs st st' :
  gamepadFrame gp dims configs st = Some st' ->
  ikMode st' = true ->
  axisAt gp 0 <> 0 \/ axisAt gp 1 <> 0 \/ axisAt gp 3 <> 0 ->
  axisAt gp 2 = 0 ->
  (forall k b, (12 <= k <= 15)%nat -> buttonAt gp k = Some b ->
               pressed b = false) ->
  0.05 <= vy (ikTargetPos st').
Proof.
  intros H Hik Hmove Hroll Hpad.
  apply gamepadFrame_inv in H.
  destruct H as (b0 & b4 & b5 & b12 & b13 & b14 & b15 & moved & clamped
                 & _ & _ & _ & H12 & H13 & H14 & H15 & Hm & _
                 & _ & _ & Him & _ & Ht & _).
  rewrite Ht. rewrite <- Him, Hik in Hm.
  rewrite (Hpad 12%nat b12), (Hpad 13%nat b13), (Hpad 14%nat b14),
    (Hpad 15%nat b15), Hroll in Hm by (lia || assumption).
  unfold ikControl in Hm.
  assert (Hcond : Rgtb (Rabs (axisAt gp 0)) 0 || Rgtb (Rabs (axisAt gp 1)) 0
                  || Rgtb (Rabs (axisAt gp 3)) 0 = true).
  { assert (Hpos : forall x, x <> 0 -> Rgtb (Rabs x) 0 = true).
    { intros x Hx. unfold Rgtb.
      destruct (Rgt_dec (Rabs x) 0) as [_ | Hn]; [reflexivity |].
      exfalso. apply Hn. apply Rabs_pos_lt. assumption. }
    destruct Hmove as [Hx | [Hx | Hx]]; rewrite (Hpos _ Hx);
      rewrite ?orb_true_r; reflexivity. }
  rewrite Hcond in Hm. inv_bind Hm. inv_bind Hm.
  destruct (Req_dec_T 0 0) as [_ | Hn]; [| lra].
  cbn [orb] in Hm. injection Hm as <-. cbn [fst vy].
  apply Rmax_l.
Qed.

(** X25: the sticks cannot drive the IK target under the floor buffer: in IK
    mode, a frame in which a stick moves the target (and neither the wrist
    roll stick nor the d-pad re-snaps it to the tip) leaves the target at a
    height of at least 0.05. *)
Theorem X25_sticks_keep_target_above_floor (gp : Gamepad)
    (dims : RobotDimensions) (configs : list JointConfig)
    (st st' : LoopState) :
  gamepadFrame gp dims configs st = Some st' ->
  ikMode st' = true ->
  axisAt gp 0 <> 0 \/ axisAt gp 1 <> 0 \/ axisAt gp 3 <> 0 ->
  axisAt gp 2 = 0 ->
  (forall k b, (12 <= k <= 15)%nat -> buttonAt gp k = Some b ->
               pressed b = false) ->
  0.05 <= vy (ikTargetPos st').
Proof. apply gamepadFrame_target_floor. Qed.

Lemma pushPad_released k b : buttonAt pushPad k = Some b -> pressed b = false.
Proof.
  intros H. unfold buttonAt, pushPad in H. cbn [buttons repeat] in H.
  do 16 (destruct k as [| k]; [injection H as <-; reflexivity |]).
  destruct k; discriminate H.
Qed.

Lemma X25_sticks_keep_target_above_floor_witness :
  exists st',
    gamepadFrame pushPad DEFAULT_DIMENSIONS DEFAULT_JOINTS ikState = Some st'
    /\ 0.05 <= vy (ikTargetPos st').
Proof.
  destruct (gamepadFrame_total pushPad DEFAULT_DIMENSIONS DEFAULT_JOINTS
              ikState) as [st' Hst'];
    [cbn; lia | reflexivity | reflexivity |].
  exists st'. split; [exact Hst' |].
  destruct (gamepadFrame_modes_kept pushPad DEFAULT_DIMENSIONS DEFAULT_JOINTS
              ikState st') as [Hik _];
    [intros k b _ Hb; exact (pushPad_released k b Hb) | exact Hst' |].
  apply (X25_sticks_keep_target_above_floor pushPad DEFAULT_DIMENSIONS
           DEFAULT_JOINTS ikState st' Hst').
  - rewrite Hik. reflexivity.
  - left. unfold axisAt, pushPad, stickThreshold. cbn [axes nth_error].
    destruct (Rgt_dec (Rabs 0.5) 0.1) as [_ | Hn]; [lra |].
    exfalso. apply Hn. rewrite Rabs_right; lra.
  - unfold axisAt, pushPad, stickThreshold. cbn [axes nth_error].
    destruct (Rgt_dec (Rabs 0) 0.1) as [Hg | _]; [| reflexivity].
    rewrite Rabs_R0 in Hg. unfold Rgt in Hg. lra.
  - intros k b _ Hb. exact (pushPad_released k b Hb).
Defined.
